(* ===== verification/_CoqProject ===== *)
-Q . S2P
Prelude.v
JsString.v
NodePath.v
NodeJoin.v
FileNames.v
JsNumber.v
Flags.v
Mip.v
Locator.v
ImageSize.v
