(* ===== verification/Prelude.v ===== *)
(** * A verification library for [src/lib/utilities.ts] of texture-compressor

    The repository fragment is one TypeScript module of helpers used by the
    texture-compressor command line tool.  Its parts, and how they interact:

    - the platform binary locator [getBinaryDirectory] (lines 13-25): reads
      [os.platform()]; on ["linux"] awaits [si.osInfo()] and overrides the
      platform tag to ["centos7"] when [/CentOS/g.test(distro)] or
      [/alios7/g.test(kernel)] holds and [~~parseFloat(release) === 7];
      then returns [path.join(__dirname, '../../../bin/', plat)].  It is the
      only part with effects (an OS query that may fail) and it is the only
      part that uses the number and path machinery of the runtime;
    - the file name helpers [getFileExtension] (line 32) and [getFileName]
      (lines 39-40), thin wrappers around Node's [path.parse(p).ext] and
      [path.basename(p, ext)];
    - the flag helpers [createFlagsForTool] (line 62) and
      [splitFlagAndValue] (lines 69-70), list transformations built on
      [Array.prototype.map], [String.prototype.split] and [[].concat(...)];
    - [getMipChainLevels] (line 55), [Math.floor(Math.log2(value)) + 1];
    - [getImageSize] (lines 47-48), a synchronous call of the [image-size]
      package, whose exceptions it lets through.

    The helpers share no state; they interact only through the runtime
    primitives they call.  The development therefore models the runtime
    primitives first (JS strings, JS numbers, Node's POSIX [path]) as
    components of their own, and proves the helpers against them.

    ** Files (in dependency order)

    - [Prelude] (this file): JS strings as lists of UTF-16 code units
      ([jsstr], literals [‹"..."›] in [js_scope]), the code-unit constants
      the Node sources name ([CHAR_DOT], ...), the [result] type of
      fallible operations with stdpp's monad notation, the hint databases
      [jsdb]/[jsrw], the tactic [invc], list lemmas ([span_while]) and the
      counted loops [loop_down_r] ([for (i = end; i >= start; --i)]) and
      [loop_up_r] ([for (i = start; i < end; ++i)]), both with [break],
      with the lemmas that split a loop into consecutive ranges.
    - [JsString] (Module [JsString]): [charCodeAt] ([None] for [NaN]),
      [slice], [lastIndexOf], [split] with a one-unit separator, the
      [join] of arrays (used in statements), and a regular-expression
      literal without metacharacters ([/CentOS/g.test]) as substring
      search ([regex_test_spec]).
    - [NodePath] (Module [NodePath]): Node's POSIX [path.parse] and
      [path.basename] (with and without suffix), each the loop Node runs
      ([parse_step], [basename_step], [basename_suffix_step] on
      [loop_down_r]), and a reference decomposition of a path into the
      part before its last component, the component and the trailing
      separators ([path_split]) with the component's extension
      ([comp_ext], [path_ext]); [parse_spec], [basename_spec] and
      [basename_suffix_strip] prove that the loops compute it.
    - [NodeJoin] (Module [NodeJoin]): [normalizeString] (one loop over the
      code units on [loop_up_r], state record [ns_state]), [normalize] and
      [join]; [normalizeString_spec] proves the loop equal to a stack
      resolution of the segments ([normalize_ref]); for absolute paths the
      stack holds plain segments only ([path_segments]), [join_bin_abs]
      computes [join(dir, '../../../bin/', tag)] for every absolute [dir]
      and [normalize_join_plain] shows a path of plain segments canonical.
    - [FileNames] (Module [FileNames]): [getFileExtension], [getFileName],
      proved against the interface [PathLib] (a [Class] of the three
      [path] functions they call, with the laws [PathLibLaws]); the
      instances [node_path]/[node_path_laws] are [NodePath]'s functions
      and theorems.
    - [JsNumber] (Module [JsNumber]): JS numbers as binary64 values
      (Stdlib's [spec_float]); [parseFloat] (white space, the
      StrDecimalLiteral scanner [scan_decimal_literal], the correctly
      rounded conversion [round_binary64], ties to even, with subnormals
      and overflow), [ToInt32] and [~] ([bitwise_not], [double_not]).
    - [Flags] (Module [Flags]): [createFlagsForTool], and
      [splitFlagAndValue] over the JS values of an [any[]] array
      ([js_value]): [flag.split(' ')] ([value_split]) throws a [TypeError]
      on a non-string, [map] rethrows it ([mapM] in the [result] monad),
      and [[].concat(...)] is [array_concat].
    - [Mip] (Module [Mip]): [getMipChainLevels] with [Math.floor]
      ([math_floor]) and [+] ([number_add], Stdlib's [SFadd]) on binary64
      values, over the interface [MathLog2] of [Math.log2], which
      ECMAScript leaves implementation-approximated; its laws
      [Log2Laws] are the exact cases and correct rounding on integers,
      stated in integer arithmetic ([log2_nearest]), and [rn_log2] is an
      instance.  [mip_chain] lists the level sizes [n, ⌊n/2⌋, ..., 1].
    - [Locator] (Module [Locator]): the values of [os.platform()], the
      fields of [si.osInfo()], [isCentos7] (the condition of line 19) and
      [getBinaryDirectory] as a program over the two queries
      ([locator_prog]: a free monad with stdpp's [≫=]); [run] executes it
      against a [host] (a platform and how [si.osInfo()] settles) and
      returns the queries answered, in order, with the [settlement] of the
      promise: [Fulfilled], [Rejected] with the reason, or [Pending] for
      ever.  The contract of the specification is
      [locator_tag]/[locator_queries]/[locator_dir].
    - [ImageSize] (Module [ImageSize]): [getImageSize] over the interface
      of the [image-size] package: the file read ([file_system]) and the
      header decoder (the class [ImageSizeLib]); [imageSize] reads, then
      decodes, and both failures reach the caller unchanged.

    ** What the theorems show

    - the locator refines its contract for every absolute [__dirname]
      (C1): it queries the OS information exactly on Linux and returns
      [<normalized __dirname three segments up, not above the root>/bin/<tag>];
      off Linux the platform tag is used as it is (C2); a rejected query
      rejects with the same reason (C3); the promise settles unless the
      query never does (C4, liveness); the result is a canonical absolute
      path ending with [/bin/<tag>], with no [".."] (C5, safety); the
      override condition is exactly "CentOS in the distribution or alios7
      in the kernel (case-sensitive), and [ToInt32(parseFloat(release))]
      is [7]" (C6);
    - release strings: every ["7.<at most 15 digits>"] gives [7] (C7); a
      decimal integer below [2^53] parses exactly and [~~] wraps it modulo
      [2^32] (C8), so ["4294967303"] counts as release 7;
    - mip levels: for every value below [2^48] and every correctly rounded
      [Math.log2], [getMipChainLevels] is the length of the mip chain
      (C9); below [2^53] it is an integer, the length or one more (C10);
      at [2^49 - 1] it is one more (C11);
    - the file name helpers: [getFileName p ++ getFileExtension p] is the
      base name of every path (C12), the extension is that of the last
      component (C13) and has the shape of one (C14), and [basename]'s
      suffix loop agrees with [parse]'s [name] (C15);
    - the flag helpers: split/join round trips on string entries (C16,
      C20), the [TypeError] of the contract ([split_type_error]) exactly
      at the first non-string entry (C17), no token has a space (C18), the
      number of tokens (C19), and [createFlagsForTool] loses nothing (C21);
    - library lemmas: Node's [path] loops equal their references
      ([parse_spec], [basename_spec], [normalizeString_spec]); binary64
      rounding keeps integers below [2^53] and values in [[7, 8)] that are
      more than half an ulp below [8] ([round_binary64_int],
      [round_binary64_seven]); bounds on [(1 - 1/A)^N] place [log2 n]
      relative to the rounding midpoints ([log2_upper], [log2_lower]), and
      rounding never crosses a representable integer
      ([floor_nearest_range]).

    ** Bounds and fuel

    No definition uses fuel: every loop of the sources runs over a string
    and is a structural recursion on the number of iterations, which is
    the string's length (plus one for [normalizeString]'s virtual last
    separator), so every function is total.  Integers are kept in [Z]
    with the width the code uses: [ToInt32] reduces modulo [2^32], binary64
    mantissas are below [2^53] with exponents in [[-1074, 971]].  The
    bound of 15 fraction digits in C7 is what binary64 guarantees: with
    [L] digits the value is below [8 - 10^-L], and it stays below [8]
    after rounding exactly when [10^L < 2^51].  The bound [2^48] of C9 is
    where [log2 (2^(k+1) - 1)] stops being more than half a gap below
    [k + 1]: [(1 - 2^-(k+1))^(2^(53-j)) < 1/2] needs [k + 1 ≤ 53 - j]
    with [j = ⌊log2 k⌋]; [mip_chain] runs on 64 units of fuel, enough for
    every value below [2^64].

    ** Not modelled

    The internals of the [image-size] package (which formats it knows and
    how it reads their headers: library code outside the repository, left
    as the interface [ImageSizeLib], so no theorem is stated about
    [getImageSize], which only passes the result through); [Math.log2]
    on values that are not integers (its laws constrain integers only,
    which is all the theorems use); the file system and the real OS
    queries, which are inputs here (the [host], the [file_system]); holes
    of sparse arrays and objects with a [split] method of their own among
    the entries of [splitFlagAndValue]; code units beyond ASCII in
    literals (the sources use ASCII only). *)

From stdpp Require Export base list strings sets.
From Stdlib Require Export NArith ZArith Lia.
From Stdlib Require Import Ascii.

Declare Scope js_scope.
Delimit Scope js_scope with js.

(** ** JS strings

    A JS string is a sequence of UTF-16 code units, each a number below
    [2^16]; [js] turns an ASCII literal into one. *)
Abbreviation codeunit := N.
Abbreviation jsstr := (list codeunit).

Definition js (s : string) : jsstr := map N_of_ascii (String.list_ascii_of_string s).

Notation "‹ s ›" := (js s%string) (format "‹ s ›") : js_scope.
Open Scope js_scope.

(** The code-unit constants of Node's [internal/constants.js]. *)
Definition CHAR_FORWARD_SLASH : codeunit := 47.
Definition CHAR_DOT : codeunit := 46.
Definition CHAR_SPACE : codeunit := 32.
Definition CHAR_HYPHEN_MINUS : codeunit := 45.
Definition CHAR_PLUS : codeunit := 43.
Definition CHAR_0 : codeunit := 48.
Definition CHAR_9 : codeunit := 57.
Definition CHAR_LOWERCASE_E : codeunit := 101.
Definition CHAR_UPPERCASE_E : codeunit := 69.

(** ** Fallible operations

    A JS operation that may throw returns [Err msg]; the message is kept
    verbatim, as the sources never wrap an error. *)
Inductive result (A : Type) : Type :=
| Ok (a : A)
| Err (msg : jsstr).
Arguments Ok {A} a.
Arguments Err {A} msg.

#[export] Instance result_ret : MRet result := λ A a, Ok a.
#[export] Instance result_bind : MBind result :=
  λ A B f r, match r with Ok a => f a | Err e => Err e end.

(** ** Automation *)
Create HintDb jsdb discriminated.
Create Rewrite HintDb jsrw.

Ltac invc H := inversion H; subst; clear H.

(** Unfold the [result] monad's operations, also where [simpl] exposes them. *)
Ltac result_simpl :=
  simpl in *; unfold mbind, result_bind, mret, result_ret in *; simpl in *.

(** ** Shared list lemmas *)
Section lists.
Context {A : Type}.

Lemma take_app_length_exact (l1 l2 : list A) : take (length l1) (l1 ++ l2) = l1.
Proof. by rewrite take_app_length. Qed.

Lemma drop_app_length_exact (l1 l2 : list A) : drop (length l1) (l1 ++ l2) = l2.
Proof. by rewrite drop_app_length. Qed.
End lists.

#[export] Hint Rewrite @take_app_length_exact @drop_app_length_exact : jsrw.

(** The longest prefix of [l] whose elements satisfy [P], and the rest. *)
Fixpoint span_while {A} (P : A → bool) (l : list A) : list A * list A :=
  match l with
  | [] => ([], [])
  | x :: l' => if P x then let '(a, b) := span_while P l' in (x :: a, b) else ([], l)
  end.

Lemma span_while_spec {A} (P : A → bool) l a b :
  span_while P l = (a, b) →
  l = a ++ b ∧ Forall (λ x, P x = true) a ∧ (∀ x b', b = x :: b' → P x = false).
Proof.
  revert a b. induction l as [|x l IH]; intros a b; simpl.
  - intros [= <- <-]. split_and!; [done|constructor|done].
  - destruct (P x) eqn:Hx.
    + destruct (span_while P l) as [a' b'] eqn:E. intros [= <- <-].
      destruct (IH _ _ eq_refl) as (-> & Ha & Hb). split_and!; [done|by constructor|done].
    + intros [= <- <-]. split_and!; [done|constructor|]. by intros ?? [= -> ->].
Qed.

Lemma span_while_app {A} (P : A → bool) a b :
  forallb P a = true → (∀ x b', b = x :: b' → P x = false) →
  span_while P (a ++ b) = (a, b).
Proof.
  intros Ha Hb. induction a as [|x a IH]; simpl in *.
  - destruct b as [|x b]; [done|]. simpl. by rewrite (Hb x b eq_refl).
  - apply andb_true_iff in Ha as [-> Ha]. by rewrite IH.
Qed.

(** ** Counted loops

    [for (let i = start + k - 1; i >= start; --i) body] where the body may
    [break]: [step i st] is [inl st'] to go on and [inr st'] to break.
    [loop_down_r] tells the two exits apart, [loop_down] forgets which. *)
Fixpoint loop_down_r {S} (step : Z → S → S + S) (start : Z) (k : nat) (st : S) : S + S :=
  match k with
  | O => inl st
  | Datatypes.S k' =>
      match step (start + Z.of_nat k')%Z st with
      | inl st' => loop_down_r step start k' st'
      | inr st' => inr st'
      end
  end.

Definition loop_down {S} (step : Z → S → S + S) (start : Z) (k : nat) (st : S) : S :=
  match loop_down_r step start k st with inl st' | inr st' => st' end.

Section loops.
Context {S : Type} (step : Z → S → S + S).

(** Running [k1 + k2] iterations is running the top [k2], then, unless they
    broke, the bottom [k1]. *)
Lemma loop_down_r_add start k1 k2 st :
  loop_down_r step start (k1 + k2) st =
  match loop_down_r step (start + Z.of_nat k1) k2 st with
  | inl st' => loop_down_r step start k1 st'
  | inr st' => inr st'
  end.
Proof.
  revert st. induction k2 as [|k2 IH]; intros st; simpl; [by rewrite Nat.add_0_r|].
  rewrite Nat.add_succ_r. simpl.
  replace (start + Z.of_nat (k1 + k2))%Z with (start + Z.of_nat k1 + Z.of_nat k2)%Z by lia.
  destruct (step _ st); [apply IH|done].
Qed.

Lemma loop_down_r_add_inl start k1 k2 st st' :
  loop_down_r step (start + Z.of_nat k1) k2 st = inl st' →
  loop_down_r step start (k1 + k2) st = loop_down_r step start k1 st'.
Proof. intros H. by rewrite loop_down_r_add, H. Qed.

Lemma loop_down_r_one start st :
  loop_down_r step start 1 st = step start st.
Proof. simpl. rewrite Z.add_0_r. by destruct (step start st). Qed.

(** Three consecutive ranges of iterations, top first. *)
Lemma loop_down_r_phases start a b c st :
  loop_down_r step start (a + b + c) st =
  match loop_down_r step (start + Z.of_nat (a + b)) c st with
  | inl st1 =>
      match loop_down_r step (start + Z.of_nat a) b st1 with
      | inl st2 => loop_down_r step start a st2
      | inr st2 => inr st2
      end
  | inr st1 => inr st1
  end.
Proof.
  rewrite loop_down_r_add. destruct (loop_down_r step _ c st); [|done].
  apply loop_down_r_add.
Qed.

(** Iterations that leave the state alone can be skipped. *)
Lemma loop_down_r_noop start k st :
  (∀ j, j < k → step (start + Z.of_nat j)%Z st = inl st) →
  loop_down_r step start k st = inl st.
Proof.
  induction k as [|k IH]; intros Hj; simpl; [done|].
  rewrite Hj by lia. apply IH. intros j ?. apply Hj. lia.
Qed.
End loops.

(** [for (let i = start; i < start + k; ++i) body] where the body may
    [break], with the same convention as [loop_down_r]. *)
Fixpoint loop_up_r {S} (step : Z → S → S + S) (i : Z) (k : nat) (st : S) : S + S :=
  match k with
  | O => inl st
  | Datatypes.S k' =>
      match step i st with
      | inl st' => loop_up_r step (i + 1)%Z k' st'
      | inr st' => inr st'
      end
  end.

Definition loop_up {S} (step : Z → S → S + S) (i : Z) (k : nat) (st : S) : S :=
  match loop_up_r step i k st with inl st' | inr st' => st' end.

Section loops_up.
Context {S : Type} (step : Z → S → S + S).

(** The first [k1] iterations, then, unless they broke, the next [k2]. *)
Lemma loop_up_r_add i k1 k2 st :
  loop_up_r step i (k1 + k2) st =
  match loop_up_r step i k1 st with
  | inl st' => loop_up_r step (i + Z.of_nat k1) k2 st'
  | inr st' => inr st'
  end.
Proof.
  revert i st. induction k1 as [|k1 IH]; intros i st; simpl; [by rewrite Z.add_0_r|].
  destruct (step i st); [|done]. rewrite IH.
  by replace (i + 1 + Z.of_nat k1)%Z with (i + Z.pos (Pos.of_succ_nat k1))%Z by lia.
Qed.

Lemma loop_up_r_add_inl i k1 k2 st st' :
  loop_up_r step i k1 st = inl st' →
  loop_up_r step i (k1 + k2) st = loop_up_r step (i + Z.of_nat k1) k2 st'.
Proof. intros H. by rewrite loop_up_r_add, H. Qed.

Lemma loop_up_r_one i st : loop_up_r step i 1 st = step i st.
Proof. simpl. by destruct (step i st). Qed.
End loops_up.
