(* ===== verification/JsString.v ===== *)
(** * The JS string primitives the sources call

    ECMAScript's [String.prototype.charCodeAt], [slice], [lastIndexOf],
    [split] (with a one-unit separator, the only form the sources use),
    [Array.prototype.join] (the inverse of [split], used in statements), and
    the [test] method of a regular-expression literal made of plain
    characters.  These are runtime library code, not code of the
    repository: each definition follows the ECMAScript algorithm. *)

From S2P Require Import Prelude.

Module JsString.

(** [s.charCodeAt(i)]: [None] stands for [NaN], returned out of range. *)
Definition charCodeAt (s : jsstr) (i : Z) : option codeunit :=
  if decide (0 ≤ i)%Z then s !! Z.to_nat i else None.

(** [code === c] where [code] is a code unit read with [charCodeAt]. *)
Definition unit_is (s : jsstr) (i : Z) (c : codeunit) : bool :=
  bool_decide (charCodeAt s i = Some c).

(** [x === y] on two results of [charCodeAt]: [NaN] equals nothing. *)
Definition code_eq (x y : option codeunit) : bool :=
  match x, y with Some a, Some b => bool_decide (a = b) | _, _ => false end.

(** [String.prototype.slice(start, end)] for integer arguments:
    negative positions count from the end, both are clamped to the
    string, an empty range gives the empty string. *)
Definition rel_pos (len : Z) (p : Z) : Z :=
  if decide (p < 0)%Z then Z.max (len + p) 0 else Z.min p len.

Definition slice (s : jsstr) (start end_ : Z) : jsstr :=
  let len := Z.of_nat (length s) in
  let from := rel_pos len start in
  let to := rel_pos len end_ in
  take (Z.to_nat (to - from)) (drop (Z.to_nat from) s).

(** [String.prototype.lastIndexOf(c)] for a one-unit search string. *)
Fixpoint lastIndexOf_from (s : jsstr) (c : codeunit) (i : Z) : Z :=
  match s with
  | [] => -1
  | d :: s' =>
      let r := lastIndexOf_from s' c (i + 1) in
      if decide (r = -1)%Z then (if decide (d = c) then i else -1) else r
  end.

Definition lastIndexOf (s : jsstr) (c : codeunit) : Z := lastIndexOf_from s c 0.

(** [String.prototype.split(sep)] for a one-unit separator and no limit:
    the pieces between the occurrences of [sep], the empty string giving
    [[""]]. *)
Fixpoint split (s : jsstr) (sep : codeunit) : list jsstr :=
  match s with
  | [] => [[]]
  | c :: s' =>
      let ps := split s' sep in
      if decide (c = sep) then [] :: ps
      else match ps with
           | p :: ps' => (c :: p) :: ps'
           | [] => [[c]]
           end
  end.

(** [Array.prototype.join(sep)] on an array of strings. *)
Fixpoint join (sep : jsstr) (ps : list jsstr) : jsstr :=
  match ps with
  | [] => []
  | [p] => p
  | p :: ps' => p ++ sep ++ join sep ps'
  end.

(** [/pat/g.test(s)] for a literal [pat] without metacharacters: a regular
    expression literal is a fresh object at each evaluation, so its
    [lastIndex] starts at [0] and the [g] flag has no effect; the test
    succeeds when [pat] occurs in [s] at some index. *)
Fixpoint is_prefix (pat s : jsstr) : bool :=
  match pat, s with
  | [], _ => true
  | _ :: _, [] => false
  | c :: pat', d :: s' => bool_decide (c = d) && is_prefix pat' s'
  end.

Fixpoint regex_test (pat s : jsstr) : bool :=
  is_prefix pat s || match s with [] => false | _ :: s' => regex_test pat s' end.

(** ** Lemmas *)

Lemma is_prefix_spec pat s : is_prefix pat s = true ↔ ∃ t, s = pat ++ t.
Proof.
  revert s; induction pat as [|c pat IH]; intros [|d s]; simpl.
  - split; eauto.
  - split; eauto.
  - split; [done|]. intros [t Ht]. done.
  - rewrite andb_true_iff, bool_decide_eq_true, IH. split.
    + intros [-> [t ->]]. eauto.
    + intros [t Ht]. simplify_eq. eauto.
Qed.

(** The regular-expression test is substring search. *)
Lemma regex_test_spec pat s :
  regex_test pat s = true ↔ ∃ a b, s = a ++ pat ++ b.
Proof.
  induction s as [|d s IH]; simpl; rewrite orb_true_iff, is_prefix_spec.
  - split.
    + intros [[t Ht]|H]; [|discriminate]. exists [], t. done.
    + intros [a [b Hab]]. left. exists b.
      destruct a; [done|]. simpl in Hab. discriminate.
  - rewrite IH. split.
    + intros [[t Ht]|[a [b ->]]].
      * exists [], t. done.
      * exists (d :: a), b. done.
    + intros [[|d' a] [b Hab]]; simpl in Hab.
      * left. eauto.
      * right. simplify_eq. eauto.
Qed.

Lemma split_not_nil s sep : split s sep ≠ [].
Proof.
  induction s as [|c s IH]; simpl; [done|].
  case_decide; [done|]. by destruct (split s sep).
Qed.

Lemma join_cons sep p ps : ps ≠ [] → join sep (p :: ps) = p ++ sep ++ join sep ps.
Proof. by destruct ps. Qed.

(** Joining a concatenation of two non-empty arrays. *)
Lemma join_app_ne sep xs ys :
  xs ≠ [] → ys ≠ [] → join sep (xs ++ ys) = join sep xs ++ sep ++ join sep ys.
Proof.
  induction xs as [|x [|x' xs] IH]; intros Hx Hy; [done| |].
  - cbn [app]. by rewrite join_cons.
  - rewrite <- app_comm_cons, (join_cons _ x), (join_cons _ x), IH by done.
    by rewrite !app_assoc.
Qed.

(** Splitting and joining back with the separator is the identity. *)
Lemma join_split s sep : join [sep] (split s sep) = s.
Proof.
  induction s as [|c s IH]; simpl; [done|].
  pose proof (split_not_nil s sep) as Hne.
  destruct (split s sep) as [|p ps]; [congruence|].
  case_decide as Hc.
  - subst c. rewrite join_cons, IH by done. done.
  - destruct ps as [|p' ps]; [simpl in *; congruence|].
    rewrite join_cons in IH |- * by done. rewrite <- IH. done.
Qed.

(** No piece contains the separator. *)
Lemma split_pieces_sep_free s sep : Forall (λ p, sep ∉ p) (split s sep).
Proof.
  induction s as [|c s IH]; simpl.
  - constructor; [apply not_elem_of_nil|constructor].
  - case_decide as Hc.
    + constructor; [apply not_elem_of_nil|done].
    + destruct (split s sep) as [|p ps]; [by repeat constructor; set_solver|].
      apply Forall_cons in IH as [Hp Hps]. constructor; [|done].
      rewrite elem_of_cons. naive_solver.
Qed.

(** A separator-free string is its own single piece. *)
Lemma split_sep_free s sep : sep ∉ s → split s sep = [s].
Proof.
  induction s as [|c s IH]; simpl; [done|]. rewrite elem_of_cons. intros Hn.
  rewrite decide_False by naive_solver. rewrite IH by naive_solver. done.
Qed.

Lemma split_sep_cons b sep : split (sep :: b) sep = [] :: split b sep.
Proof. simpl. by rewrite decide_True. Qed.

(** [split] distributes over a separator occurrence. *)
Lemma split_app_sep a b sep :
  sep ∉ a → split (a ++ sep :: b) sep = a :: split b sep.
Proof.
  induction a as [|c a IH]; simpl; intros Hn.
  - by rewrite decide_True.
  - rewrite elem_of_cons in Hn. rewrite decide_False by naive_solver.
    rewrite IH by naive_solver. done.
Qed.

(** [split] of a concatenation at a separator: the pieces of each side. *)
Lemma split_app_sep_gen a b sep : split (a ++ sep :: b) sep = split a sep ++ split b sep.
Proof.
  induction a as [|c a IH]; simpl; [by rewrite decide_True|].
  rewrite IH. case_decide; [done|].
  pose proof (split_not_nil a sep). by destruct (split a sep).
Qed.

(** A non-empty array joins to a string that ends with its last element. *)
Lemma join_snoc_suffix sep ps t : ∃ x, join sep (ps ++ [t]) = x ++ t.
Proof.
  destruct ps as [|p ps]; [by exists []|].
  exists (join sep (p :: ps) ++ sep). rewrite join_app_ne by done. by rewrite app_assoc.
Qed.

(** Conversely, joining separator-free pieces and splitting gives them back. *)
Lemma split_join ps sep :
  ps ≠ [] → Forall (λ p, sep ∉ p) ps → split (join [sep] ps) sep = ps.
Proof.
  induction ps as [|p [|p' ps] IH]; intros Hne Hf; [done| |].
  - apply Forall_cons in Hf as [Hp _]. by apply split_sep_free.
  - apply Forall_cons in Hf as [Hp Hf].
    rewrite join_cons by done. cbn [app].
    rewrite split_app_sep, IH by done. done.
Qed.

Lemma length_split s sep : length (split s sep) = S (length (filter (λ c, c = sep) s)).
Proof.
  induction s as [|c s IH]; simpl; [done|].
  rewrite filter_cons. case_decide; simpl; [by rewrite IH|].
  pose proof (split_not_nil s sep). destruct (split s sep); simpl in *; congruence.
Qed.

Lemma charCodeAt_nat s n : charCodeAt s (Z.of_nat n) = s !! n.
Proof. unfold charCodeAt. rewrite decide_True by lia. by rewrite Nat2Z.id. Qed.

(** A slice of the middle part of a concatenation. *)
Lemma slice_mid (pre mid post : jsstr) i j :
  i ≤ j ≤ length mid →
  slice (pre ++ mid ++ post) (Z.of_nat (length pre + i)) (Z.of_nat (length pre + j))
  = take (j - i) (drop i mid).
Proof.
  intros Hij. unfold slice, rel_pos. rewrite !length_app.
  rewrite !decide_False by lia. rewrite !Z.min_l by lia.
  replace (Z.to_nat _) with (j - i) by lia. rewrite Nat2Z.id.
  rewrite drop_app_ge by lia. replace (length pre + i - length pre) with i by lia.
  rewrite drop_app_le by lia. rewrite take_app_le by (rewrite length_drop; lia). done.
Qed.

Lemma slice_mid_take (pre mid post : jsstr) j :
  j ≤ length mid →
  slice (pre ++ mid ++ post) (Z.of_nat (length pre)) (Z.of_nat (length pre + j)) = take j mid.
Proof.
  intros Hj. rewrite <- (Nat.add_0_r (length pre)) at 1.
  rewrite slice_mid by lia. by rewrite Nat.sub_0_r, drop_0.
Qed.

Lemma slice_mid_drop (pre mid post : jsstr) i :
  i ≤ length mid →
  slice (pre ++ mid ++ post) (Z.of_nat (length pre + i)) (Z.of_nat (length pre + length mid))
  = drop i mid.
Proof.
  intros Hi. rewrite slice_mid by lia. apply take_ge. rewrite length_drop. lia.
Qed.

Lemma lastIndexOf_from_not_in s c i : c ∉ s → lastIndexOf_from s c i = (-1)%Z.
Proof.
  revert i. induction s as [|d s IH]; intros i Hc; simpl; [done|].
  rewrite elem_of_cons in Hc. rewrite IH by naive_solver.
  rewrite decide_True, decide_False by naive_solver. done.
Qed.

Lemma lastIndexOf_from_app_r a b c i :
  c ∉ b → lastIndexOf_from (a ++ b) c i = lastIndexOf_from a c i.
Proof.
  revert i. induction a as [|d a IH]; intros i Hc; simpl.
  - by apply lastIndexOf_from_not_in.
  - by rewrite IH.
Qed.

Lemma lastIndexOf_from_snoc a c i :
  (0 ≤ i)%Z → lastIndexOf_from (a ++ [c]) c i = (i + Z.of_nat (length a))%Z.
Proof.
  revert i. induction a as [|d a IH]; intros i Hi; simpl.
  - repeat case_decide; done || lia.
  - rewrite IH by lia. case_decide; lia.
Qed.

(** The last occurrence of [c] is the one no [c] follows. *)
Lemma lastIndexOf_last a c b : c ∉ b → lastIndexOf (a ++ c :: b) c = Z.of_nat (length a).
Proof.
  intros Hc. unfold lastIndexOf. change (c :: b) with ([c] ++ b).
  rewrite (app_assoc a [c] b), lastIndexOf_from_app_r by done.
  by rewrite lastIndexOf_from_snoc by lia.
Qed.

Lemma lastIndexOf_none s c : c ∉ s → lastIndexOf s c = (-1)%Z.
Proof. apply lastIndexOf_from_not_in. Qed.

End JsString.
