(* ===== verification/NodePath.v ===== *)
(** * Node's POSIX [path] module: [basename], [parse]

    [getFileExtension] and [getFileName] ([src/lib/utilities.ts] lines 32
    and 39-40) are one-line wrappers around [path.parse(p).ext] and
    [path.basename(p, ext)].  This file models those two functions of
    Node's [lib/path.js] (the POSIX variant) as the loops Node runs: each
    loop walks the path from its last code unit down, with [break], in the
    counted-loop combinator [loop_down] of the prelude.

    The reference specification is [path_split]: a path is
    [pre ++ comp ++ sl] where [sl] are the trailing slashes, [comp] the
    last component (no slash) and [pre] the rest (empty, or ending with a
    slash).  The theorems show that the loops compute [comp], its extension
    [comp_ext] (from the last dot, unless the dot starts the component or
    the component is [".."]) and the component without a given suffix. *)

From S2P Require Import Prelude JsString.

Module NodePath.
Import JsString.

(** ** Reference specification: the last component of a path *)

Definition is_slash (c : codeunit) : bool := bool_decide (c = CHAR_FORWARD_SLASH).

(** [(pre, comp, sl)]: the path is [pre ++ comp ++ sl]. *)
Definition path_split (path : jsstr) : jsstr * jsstr * jsstr :=
  let '(sl_r, rest_r) := span_while is_slash (reverse path) in
  let '(comp_r, pre_r) := span_while (λ c, negb (is_slash c)) rest_r in
  (reverse pre_r, reverse comp_r, reverse sl_r).

(** The last component: what [basename] returns. *)
Definition last_component (path : jsstr) : jsstr := (path_split path).1.2.

(** The index of the last dot of a component. *)
Fixpoint last_dot (s : jsstr) : option nat :=
  match s with
  | [] => None
  | c :: s' =>
      match last_dot s' with
      | Some k => Some (S k)
      | None => if bool_decide (c = CHAR_DOT) then Some 0 else None
      end
  end.

(** The extension of a component: from its last dot, unless there is no
    dot, the dot is the component's first unit, or the component is
    [".."] and [dotdot] asks for that test. *)
Definition comp_ext (comp : jsstr) (dotdot : bool) : jsstr :=
  match last_dot comp with
  | None | Some 0 => []
  | Some k => if dotdot && bool_decide (comp = [CHAR_DOT; CHAR_DOT]) then [] else drop k comp
  end.

(** Node tests for [".."] against the start of the component, except when
    the component starts right after the root of an absolute path, where
    its loop stops before the root and the test is off by one. *)
Definition path_ext (path : jsstr) : jsstr :=
  let '(pre, comp, _) := path_split path in
  comp_ext comp (bool_decide (pre ≠ [CHAR_FORWARD_SLASH])).

(** ** Node's [path.basename(path)] (no suffix) *)

Record bn_state := BnState { bn_start : Z; bn_end : Z; bn_matchedSlash : bool }.

(** One iteration of [for (let i = path.length - 1; i >= 0; --i)]. *)
Definition basename_step (path : jsstr) (i : Z) (st : bn_state) : bn_state + bn_state :=
  if unit_is path i CHAR_FORWARD_SLASH then
    (* a separator that is not part of the trailing ones: stop *)
    if negb (bn_matchedSlash st) then inr (BnState (i + 1) (bn_end st) (bn_matchedSlash st))
    else inl st
  else if decide (bn_end st = -1)%Z then inl (BnState (bn_start st) (i + 1) false)
  else inl st.

Definition basename (path : jsstr) : jsstr :=
  let st := loop_down (basename_step path) 0 (length path) (BnState 0 (-1) true) in
  if decide (bn_end st = -1)%Z then [] else slice path (bn_start st) (bn_end st).

(** ** Node's [path.parse(path)] *)

Record parse_result := ParseResult {
  pr_root : jsstr; pr_dir : jsstr; pr_base : jsstr; pr_ext : jsstr; pr_name : jsstr
}.

Record parse_state := PState {
  ps_startDot : Z; ps_startPart : Z; ps_end : Z; ps_matchedSlash : bool; ps_preDotState : Z
}.

Definition parse_init : parse_state := PState (-1) 0 (-1) true 0.

(** One iteration of [for (; i >= start; --i)] in [parse]. *)
Definition parse_step (path : jsstr) (i : Z) (st : parse_state) : parse_state + parse_state :=
  if unit_is path i CHAR_FORWARD_SLASH then
    if negb (ps_matchedSlash st) then
      inr (PState (ps_startDot st) (i + 1) (ps_end st) (ps_matchedSlash st) (ps_preDotState st))
    else inl st
  else
    (* the first non-separator marks the end of the extension *)
    let st := if decide (ps_end st = -1)%Z
              then PState (ps_startDot st) (ps_startPart st) (i + 1) false (ps_preDotState st)
              else st in
    if unit_is path i CHAR_DOT then
      (* the first dot seen marks the start of the extension *)
      if decide (ps_startDot st = -1)%Z then
        inl (PState i (ps_startPart st) (ps_end st) (ps_matchedSlash st) (ps_preDotState st))
      else if decide (ps_preDotState st ≠ 1)%Z then
        inl (PState (ps_startDot st) (ps_startPart st) (ps_end st) (ps_matchedSlash st) 1)
      else inl st
    else if decide (ps_startDot st ≠ -1)%Z then
      (* a non-dot before the dot: the extension may be non-empty *)
      inl (PState (ps_startDot st) (ps_startPart st) (ps_end st) (ps_matchedSlash st) (-1))
    else inl st.

Definition parse (path : jsstr) : parse_result :=
  if decide (path = []) then ParseResult [] [] [] [] [] else
  let isAbsolute := unit_is path 0 CHAR_FORWARD_SLASH in
  let root := if isAbsolute then [CHAR_FORWARD_SLASH] else [] in
  let start := if isAbsolute then 1%Z else 0%Z in
  let st := loop_down (parse_step path) start
              (Z.to_nat (Z.of_nat (length path) - start)) parse_init in
  let startDot := ps_startDot st in
  let startPart := ps_startPart st in
  let end_ := ps_end st in
  let preDotState := ps_preDotState st in
  let '(base, name, ext) :=
    if decide (end_ ≠ -1)%Z then
      let start := if bool_decide (startPart = 0)%Z && isAbsolute then 1%Z else startPart in
      if bool_decide (startDot = -1)%Z
         (* a dot with nothing before it in the component *)
         || bool_decide (preDotState = 0)%Z
         (* the last component is exactly [".."] *)
         || (bool_decide (preDotState = 1)%Z && bool_decide (startDot = end_ - 1)%Z
             && bool_decide (startDot = startPart + 1)%Z)
      then (slice path start end_, slice path start end_, [])
      else (slice path start end_, slice path start startDot, slice path startDot end_)
    else ([], [], []) in
  let dir := if decide (0 < startPart)%Z then slice path 0 (startPart - 1)
             else if isAbsolute then [CHAR_FORWARD_SLASH] else [] in
  ParseResult root dir base ext name.

(** ** Node's [path.basename(path, suffix)] *)

Record bs_state := BsState {
  bs_start : Z; bs_end : Z; bs_matchedSlash : bool; bs_extIdx : Z; bs_firstNonSlashEnd : Z
}.

(** One iteration of the loop of [basename] when a suffix is given: it
    matches the suffix from its end while it walks the last component. *)
Definition basename_suffix_step (path suffix : jsstr) (i : Z) (st : bs_state)
    : bs_state + bs_state :=
  if unit_is path i CHAR_FORWARD_SLASH then
    if negb (bs_matchedSlash st) then
      inr (BsState (i + 1) (bs_end st) (bs_matchedSlash st) (bs_extIdx st) (bs_firstNonSlashEnd st))
    else inl st
  else
    (* remember where the component ends, in case the suffix does not match *)
    let st := if decide (bs_firstNonSlashEnd st = -1)%Z
              then BsState (bs_start st) (bs_end st) false (bs_extIdx st) (i + 1)
              else st in
    if decide (0 ≤ bs_extIdx st)%Z then
      if code_eq (charCodeAt path i) (charCodeAt suffix (bs_extIdx st)) then
        let extIdx := (bs_extIdx st - 1)%Z in
        if decide (extIdx = -1)%Z then
          (* the whole suffix matched: the component ends here *)
          inl (BsState (bs_start st) i (bs_matchedSlash st) extIdx (bs_firstNonSlashEnd st))
        else inl (BsState (bs_start st) (bs_end st) (bs_matchedSlash st) extIdx
                    (bs_firstNonSlashEnd st))
      else
        (* no match: the result is the entire component *)
        inl (BsState (bs_start st) (bs_firstNonSlashEnd st) (bs_matchedSlash st) (-1)
               (bs_firstNonSlashEnd st))
    else inl st.

Definition basename_suffix (path suffix : jsstr) : jsstr :=
  if decide (0 < length suffix ∧ length suffix ≤ length path) then
    if decide (suffix = path) then [] else
    let st := loop_down (basename_suffix_step path suffix) 0 (length path)
                (BsState 0 (-1) true (Z.of_nat (length suffix) - 1) (-1)) in
    let end_ := if decide (bs_start st = bs_end st) then bs_firstNonSlashEnd st
                else if decide (bs_end st = -1)%Z then Z.of_nat (length path)
                else bs_end st in
    slice path (bs_start st) end_
  else basename path.

(** ** Lemmas on the reference decomposition *)


Record split_ok (path pre comp sl : jsstr) : Prop := {
  split_app : path = pre ++ comp ++ sl;
  split_sl : Forall (λ c, c = CHAR_FORWARD_SLASH) sl;
  split_comp : Forall (λ c, c ≠ CHAR_FORWARD_SLASH) comp;
  split_pre : pre = [] ∨ ∃ pre', pre = pre' ++ [CHAR_FORWARD_SLASH];
  split_empty : comp = [] → pre = [];
}.

Lemma path_split_ok path : let '(pre, comp, sl) := path_split path in split_ok path pre comp sl.
Proof.
  unfold path_split.
  destruct (span_while is_slash (reverse path)) as [sl_r rest_r] eqn:E1.
  destruct (span_while (λ c, negb (is_slash c)) rest_r) as [comp_r pre_r] eqn:E2.
  destruct (span_while_spec _ _ _ _ E1) as (Hp & Hsl & Hrest).
  destruct (span_while_spec _ _ _ _ E2) as (Hr & Hcomp & Hpre).
  subst rest_r. split.
  - by rewrite <- (reverse_involutive path), Hp, !reverse_app, app_assoc.
  - apply Forall_reverse. eapply Forall_impl; [done|]. intros c. apply bool_decide_eq_true.
  - apply Forall_reverse. eapply Forall_impl; [done|]. intros c Hc.
    apply negb_true_iff, bool_decide_eq_false in Hc. done.
  - destruct pre_r as [|x t]; [by left|right]. exists (reverse t).
    rewrite reverse_cons. f_equal. f_equal.
    specialize (Hpre x t eq_refl). apply negb_false_iff, bool_decide_eq_true in Hpre. done.
  - intros Hc. destruct comp_r as [|y cr]; [|by apply (f_equal length) in Hc;
      rewrite length_reverse in Hc]. simpl in *.
    destruct pre_r as [|x t]; [done|]. exfalso.
    specialize (Hpre x t eq_refl). specialize (Hrest x t eq_refl). by rewrite Hrest in Hpre.
Qed.

(** ** Lemmas on reading the path *)

Lemma unit_is_nat path n c : unit_is path (Z.of_nat n) c = bool_decide (path !! n = Some c).
Proof.
  unfold unit_is, charCodeAt. rewrite decide_True by lia. by rewrite Nat2Z.id.
Qed.

Lemma lookup_split_comp (pre comp sl : jsstr) j :
  j < length comp → (pre ++ comp ++ sl) !! (length pre + j) = comp !! j.
Proof.
  intros Hj. rewrite lookup_app_r by lia. rewrite Nat.add_comm, Nat.add_sub.
  by rewrite lookup_app_l.
Qed.

Lemma lookup_split_sl (pre comp sl : jsstr) j :
  (pre ++ comp ++ sl) !! (length pre + length comp + j) = sl !! j.
Proof.
  rewrite lookup_app_r by lia. rewrite lookup_app_r by lia. f_equal. lia.
Qed.

Lemma lookup_split_pre_last (pre' comp sl : jsstr) :
  (pre' ++ [CHAR_FORWARD_SLASH] ++ comp ++ sl) !! length pre' = Some CHAR_FORWARD_SLASH.
Proof. rewrite lookup_app_r by lia. by rewrite Nat.sub_diag. Qed.

Lemma slice_split_comp pre comp sl :
  slice (pre ++ comp ++ sl) (Z.of_nat (length pre)) (Z.of_nat (length pre + length comp)) = comp.
Proof. rewrite slice_mid_take by done. by apply take_ge. Qed.

Lemma Z_of_nat_add_assoc (a j : nat) : (Z.of_nat a + Z.of_nat j)%Z = Z.of_nat (a + j).
Proof. lia. Qed.

(** ** [basename] computes the last component *)

Section basename_phases.
Context (pre comp sl : jsstr).
Let path := pre ++ comp ++ sl.
Hypothesis Hok : split_ok path pre comp sl.

Lemma basename_sl_noop st :
  bn_matchedSlash st = true →
  loop_down_r (basename_step path) (Z.of_nat (length pre + length comp)) (length sl) st = inl st.
Proof.
  intros Hm. apply loop_down_r_noop. intros j Hj.
  unfold basename_step. rewrite Z_of_nat_add_assoc, unit_is_nat.
  unfold path. rewrite lookup_split_sl.
  destruct (lookup_lt_is_Some_2 sl j Hj) as [c Hc].
  rewrite (Forall_lookup_1 _ _ _ _ (split_sl _ _ _ _ Hok) Hc) in Hc.
  rewrite Hc, bool_decide_eq_true_2 by done. by rewrite Hm.
Qed.

Lemma basename_comp_phase :
  comp ≠ [] →
  loop_down_r (basename_step path) (Z.of_nat (length pre)) (length comp) (BnState 0 (-1) true)
  = inl (BnState 0 (Z.of_nat (length pre + length comp)) false).
Proof.
  intros Hne. destruct (length comp) as [|n] eqn:Hl; [by destruct comp|].
  pose proof (split_comp _ _ _ _ Hok) as Hc.
  assert (Hns : ∀ j, j < length comp → unit_is path (Z.of_nat (length pre + j)) CHAR_FORWARD_SLASH = false).
  { intros j Hj. rewrite unit_is_nat. unfold path. rewrite lookup_split_comp by done.
    destruct (lookup_lt_is_Some_2 comp j Hj) as [c Hcj]. rewrite Hcj.
    apply bool_decide_eq_false. intros [= ->]. by eapply (Forall_lookup_1 _ _ _ _ Hc Hcj). }
  replace (S n) with (n + 1) by lia. rewrite loop_down_r_add, loop_down_r_one.
  unfold basename_step at 1. rewrite Z_of_nat_add_assoc, Hns by lia. simpl.
  rewrite loop_down_r_noop; [do 2 f_equal; lia|].
  intros j Hj. unfold basename_step.
  rewrite Z_of_nat_add_assoc, Hns by lia. rewrite decide_False; [done|simpl; lia].
Qed.
Lemma basename_pre_phase st :
  bn_matchedSlash st = false →
  loop_down_r (basename_step path) 0 (length pre) st =
  if decide (pre = []) then inl st
  else inr (BnState (Z.of_nat (length pre)) (bn_end st) false).
Proof.
  intros Hm. destruct (split_pre _ _ _ _ Hok) as [->|[pre' ->]]; [done|].
  rewrite decide_False by (by destruct pre').
  rewrite length_app, loop_down_r_add, loop_down_r_one. unfold basename_step.
  rewrite Z.add_0_l, unit_is_nat. unfold path.
  rewrite <- app_assoc, lookup_split_pre_last, bool_decide_eq_true_2, Hm by done.
  simpl. do 2 f_equal. lia.
Qed.
End basename_phases.

Lemma basename_all_slashes sl :
  Forall (λ c, c = CHAR_FORWARD_SLASH) sl → basename sl = [].
Proof.
  intros Hsl. assert (Hok : split_ok sl [] [] sl) by (split; simpl; auto; constructor).
  pose proof (basename_sl_noop [] [] sl Hok (BnState 0 (-1) true) eq_refl) as H.
  cbn [app length Nat.add] in H. change (Z.of_nat 0) with 0%Z in H.
  unfold basename, loop_down. rewrite H. by rewrite decide_True.
Qed.

(** ** [parse] computes the extension of the last component *)

(** The state of [parse]'s loop once it has read a whole component [comp]
    that starts at index [a], from the right. *)
Definition comp_state (a : nat) (comp : jsstr) : parse_state :=
  PState (from_option (λ k, Z.of_nat (a + k)) (-1)%Z (last_dot comp)) 0
         (Z.of_nat (a + length comp)) false
         (match last_dot comp with
          | Some (S _) => if bool_decide (head comp = Some CHAR_DOT) then 1 else -1
          | _ => 0
          end)%Z.

Lemma unit_is_at path a c d :
  path !! a = Some c → unit_is path (Z.of_nat a) d = bool_decide (c = d).
Proof.
  intros H. rewrite unit_is_nat, H. apply bool_decide_ext. split; [by intros [=]|by intros ->].
Qed.

Lemma parse_comp_phase (path : jsstr) (s : jsstr) a :
  s ≠ [] → (∀ j, j < length s → path !! (a + j) = s !! j) →
  Forall (λ c, c ≠ CHAR_FORWARD_SLASH) s →
  loop_down_r (parse_step path) (Z.of_nat a) (length s) parse_init = inl (comp_state a s).
Proof.
  revert a. induction s as [|c s IH]; intros a Hne Hat Hns; [done|].
  apply Forall_cons in Hns as [Hc Hns].
  assert (Hrest : loop_down_r (parse_step path) (Z.of_nat (a + 1)) (length s) parse_init =
                  if decide (s = []) then inl parse_init else inl (comp_state (a + 1) s)).
  { destruct (decide (s = [])) as [->|Hs]; [done|]. apply IH; [done| |done].
    intros j Hj. rewrite <- Nat.add_assoc. apply (Hat (S j)). simpl. lia. }
  change (length (c :: s)) with (1 + length s). rewrite loop_down_r_add.
  rewrite Z_of_nat_add_assoc, Hrest. clear Hrest IH.
  assert (Ha : path !! a = Some c) by (rewrite <- (Nat.add_0_r a); apply (Hat 0); simpl; lia).
  destruct (decide (s = [])) as [->|Hs]; rewrite loop_down_r_one; unfold parse_step;
    rewrite !(unit_is_at _ _ _ _ Ha), bool_decide_eq_false_2 by done; simpl.
  - unfold comp_state. simpl.
    destruct (bool_decide (c = CHAR_DOT)); simpl; do 2 f_equal; lia.
  - destruct (decide (Z.of_nat (a + 1 + length s) = -1)%Z); [lia|].
    unfold comp_state. simpl. destruct (last_dot s) as [k|] eqn:Hk; simpl; case_bool_decide as Hd; simpl.
    + rewrite decide_False by lia.
      subst c. rewrite (bool_decide_eq_true_2 (Some CHAR_DOT = Some CHAR_DOT)) by done.
      case_decide as Hp; [do 2 f_equal; lia|].
      rewrite Hp. do 2 f_equal; lia.
    + rewrite decide_True by lia. rewrite bool_decide_eq_false_2 by congruence.
      do 2 f_equal; lia.
    + do 2 f_equal; lia.
    + try (rewrite decide_False by lia). do 2 f_equal; lia.
Qed.


Lemma last_dot_Some s k : last_dot s = Some k → s !! k = Some CHAR_DOT.
Proof.
  revert k. induction s as [|c s IH]; intros k; simpl; [done|].
  destruct (last_dot s) as [k'|]; [intros [= <-]; by apply IH|].
  case_bool_decide; [intros [= <-]; by subst|done].
Qed.

(** Node's three tests for "no extension", on the state its loop reaches
    after the last component [comp] (at index [p], with [sp] the start of
    the component as the loop recorded it), are [comp_ext]'s cases. *)
Lemma parse_ext_cond (comp : jsstr) (p : nat) (sp : Z) (dotdot : bool) :
  (sp = Z.of_nat p ∧ dotdot = true) ∨ (sp = 0%Z ∧ p = 1 ∧ dotdot = false) →
  let cs := comp_state p comp in
  (bool_decide (ps_startDot cs = -1)%Z || bool_decide (ps_preDotState cs = 0)%Z
   || (bool_decide (ps_preDotState cs = 1)%Z && bool_decide (ps_startDot cs = ps_end cs - 1)%Z
       && bool_decide (ps_startDot cs = sp + 1)%Z))
  = match last_dot comp with
    | None | Some 0 => true
    | Some _ => dotdot && bool_decide (comp = [CHAR_DOT; CHAR_DOT])
    end.
Proof.
  intros Hsp. unfold comp_state. simpl.
  destruct (last_dot comp) as [[|k]|] eqn:Hk; simpl.
  - by rewrite bool_decide_eq_false_2 by lia.
  - pose proof (last_dot_Some _ _ Hk) as Hdot. pose proof (lookup_lt_Some _ _ _ Hdot) as Hlt.
    rewrite bool_decide_eq_false_2 by lia.
    destruct (decide (head comp = Some CHAR_DOT)) as [Hh|Hh].
    + rewrite (bool_decide_eq_true_2 (head comp = Some CHAR_DOT)) by done. simpl.
      destruct Hsp as [[-> ->]|[-> [-> ->]]]; simpl;
        [|rewrite (bool_decide_eq_false_2 (_ = 0 + 1)%Z) by lia; by rewrite andb_false_r].
      rewrite <- bool_decide_and. apply bool_decide_ext. split.
      * intros [H1 H2]. assert (k = 0) as -> by lia.
        destruct comp as [|c [|d [|e comp']]]; simpl in *; try lia.
        injection Hh as ->. by injection Hdot as ->.
      * intros ->. simpl in Hk. injection Hk as <-. simpl. split; lia.
    + rewrite (bool_decide_eq_false_2 (head comp = Some CHAR_DOT)) by done. simpl.
      destruct dotdot; [|done]. symmetry. apply bool_decide_eq_false_2. by intros ->.
  - done.
Qed.

Section parse_phases.
Context (pre comp sl : jsstr).
Let path := pre ++ comp ++ sl.
Hypothesis Hok : split_ok path pre comp sl.

Lemma parse_sl_noop :
  loop_down_r (parse_step path) (Z.of_nat (length pre + length comp)) (length sl) parse_init
  = inl parse_init.
Proof.
  apply loop_down_r_noop. intros j Hj.
  unfold parse_step. rewrite Z_of_nat_add_assoc, unit_is_nat.
  unfold path. rewrite lookup_split_sl.
  destruct (lookup_lt_is_Some_2 sl j Hj) as [c Hc].
  rewrite (Forall_lookup_1 _ _ _ _ (split_sl _ _ _ _ Hok) Hc) in Hc.
  by rewrite Hc, bool_decide_eq_true_2.
Qed.

Lemma parse_pre_phase (s0 : nat) st :
  ps_matchedSlash st = false →
  loop_down_r (parse_step path) (Z.of_nat s0) (length pre - s0) st =
  if decide (length pre ≤ s0) then inl st
  else inr (PState (ps_startDot st) (Z.of_nat (length pre)) (ps_end st) false
              (ps_preDotState st)).
Proof.
  intros Hm. case_decide as Hle; [by replace (length pre - s0) with 0 by lia|].
  destruct (split_pre _ _ _ _ Hok) as [->|[pre' ->]]; [simpl in *; lia|].
  rewrite length_app in Hle |- *. cbn [length] in Hle |- *.
  replace (length pre' + 1 - s0) with ((length pre' - s0) + 1) by lia.
  rewrite loop_down_r_add, loop_down_r_one. unfold parse_step.
  replace (Z.of_nat s0 + Z.of_nat (length pre' - s0))%Z with (Z.of_nat (length pre')) by lia.
  rewrite unit_is_nat. unfold path.
  rewrite <- app_assoc, lookup_split_pre_last, bool_decide_eq_true_2, Hm by done.
  simpl. do 2 f_equal. lia.
Qed.

(** The whole loop of [parse], from the lower bound [s0] of its index. *)
Lemma parse_loop (s0 : nat) :
  comp ≠ [] → s0 ≤ length pre →
  loop_down (parse_step path) (Z.of_nat s0) (length pre - s0 + length comp + length sl) parse_init
  = PState (ps_startDot (comp_state (length pre) comp))
           (if decide (length pre ≤ s0) then 0 else Z.of_nat (length pre))
           (Z.of_nat (length pre + length comp)) false
           (ps_preDotState (comp_state (length pre) comp)).
Proof.
  intros Hne Hle. unfold loop_down. rewrite loop_down_r_phases.
  replace (Z.of_nat s0 + Z.of_nat (length pre - s0 + length comp))%Z
    with (Z.of_nat (length pre + length comp)) by lia.
  rewrite parse_sl_noop.
  replace (Z.of_nat s0 + Z.of_nat (length pre - s0))%Z with (Z.of_nat (length pre)) by lia.
  rewrite parse_comp_phase; [|done| |apply (split_comp _ _ _ _ Hok)].
  2: { intros j Hj. by apply lookup_split_comp. }
  rewrite parse_pre_phase by done. by case_decide.
Qed.
End parse_phases.


(** The state [parse]'s loop ends in, for a path with a last component,
    the start [sp] of the component it records, and how that start
    relates to Node's [".."] test (off for a component right after the
    root). *)
Lemma parse_loop_state (pre comp sl : jsstr) :
  split_ok (pre ++ comp ++ sl) pre comp sl → comp ≠ [] →
  let path := pre ++ comp ++ sl in
  let isAbs := unit_is path 0 CHAR_FORWARD_SLASH in
  let start := if isAbs then 1%Z else 0%Z in
  ∃ sp,
    loop_down (parse_step path) start (Z.to_nat (Z.of_nat (length path) - start)) parse_init
    = PState (ps_startDot (comp_state (length pre) comp)) sp
             (Z.of_nat (length pre + length comp)) false
             (ps_preDotState (comp_state (length pre) comp)) ∧
    ((sp = Z.of_nat (length pre) ∧ bool_decide (pre ≠ [CHAR_FORWARD_SLASH]) = true) ∨
     (sp = 0%Z ∧ length pre = 1 ∧ bool_decide (pre ≠ [CHAR_FORWARD_SLASH]) = false)) ∧
    (if bool_decide (sp = 0)%Z && isAbs then 1%Z else sp) = Z.of_nat (length pre).
Proof.
  intros Hok Hne path isAbs start.
  assert (Habs : isAbs = true ↔ pre ≠ [] ∧ pre !! 0 = Some CHAR_FORWARD_SLASH).
  { unfold isAbs. change 0%Z with (Z.of_nat 0). rewrite unit_is_nat, bool_decide_eq_true.
    unfold path. destruct pre as [|c pre]; simpl.
    - destruct comp as [|c comp]; [done|]. simpl.
      pose proof (split_comp _ _ _ _ Hok) as Hc. apply Forall_cons in Hc as [Hc _].
      split; [by intros [= ->]|by intros [[] _]].
    - split; [done|by intros [_ ?]]. }
  assert (Hpre1 : pre = [CHAR_FORWARD_SLASH] ↔ length pre = 1 ∧ pre ≠ []).
  { split; [by intros ->|]. intros [Hl Hn].
    destruct (split_pre _ _ _ _ Hok) as [->|[pre' ->]]; [done|].
    rewrite length_app in Hl. simpl in Hl. by destruct pre'; [|simpl in Hl; lia]. }
  assert (Hlen : ∀ s0, s0 ≤ length pre →
    Z.to_nat (Z.of_nat (length path) - Z.of_nat s0) = length pre - s0 + length comp + length sl).
  { intros s0 Hs0. unfold path. rewrite !length_app. lia. }
  unfold start. destruct isAbs eqn:Hi.
  - destruct (proj1 Habs eq_refl) as [Hpne Hp0].
    assert (1 ≤ length pre) by (destruct pre; simpl; [done|lia]).
    change 1%Z with (Z.of_nat 1). rewrite Hlen by done.
    eexists. split; [apply parse_loop; done|].
    case_decide as Hle.
    + assert (pre = [CHAR_FORWARD_SLASH]) as -> by (apply Hpre1; split; [lia|done]).
      split; [right; split_and!; [done|done|]|].
      * apply bool_decide_eq_false_2. by intros [].
      * by rewrite bool_decide_eq_true_2.
    + split; [left; split; [done|]|].
      * apply bool_decide_eq_true_2. intros ->. simpl in Hle. lia.
      * rewrite bool_decide_eq_false_2 by lia. done.
  - assert (Hl0 := Hlen 0 (Nat.le_0_l _)). change (Z.of_nat 0) with 0%Z in Hl0. rewrite Hl0.
    eexists. split; [apply (parse_loop pre comp sl Hok 0); [done|lia]|].
    assert ((if decide (length pre ≤ 0) then 0%Z else Z.of_nat (length pre)) = Z.of_nat (length pre))
      as -> by (case_decide; lia).
    split; [left; split; [done|]|by rewrite andb_false_r].
    apply bool_decide_eq_true_2. intros Hp. rewrite Hp in Habs.
    assert (false = true) by (apply Habs; done). done.
Qed.

(** [parse] computes the last component as [base], its extension [comp_ext]
    as [ext], and [name] is [base] without [ext]. *)
Theorem parse_spec path :
  pr_base (parse path) = last_component path ∧
  pr_ext (parse path) = path_ext path ∧
  pr_name (parse path) ++ pr_ext (parse path) = pr_base (parse path).
Proof.
  unfold last_component, path_ext. pose proof (path_split_ok path) as Hok.
  destruct (path_split path) as [[pre comp] sl]. simpl.
  destruct (decide (comp = [])) as [->|Hne].
  - rewrite (split_empty _ _ _ _ Hok eq_refl) in Hok. rewrite (split_app _ _ _ _ Hok).
    simpl. unfold comp_ext. simpl.
    assert (pr_base (parse sl) = [] ∧ pr_ext (parse sl) = [] ∧ pr_name (parse sl) = [])
      as (-> & -> & ->); [|done].
    unfold parse. case_decide as Hsl; [done|].
    pose proof (split_sl _ _ _ _ Hok) as Hs.
    assert (Hslash : ∀ j, j < length sl → unit_is sl (Z.of_nat j) CHAR_FORWARD_SLASH = true).
    { intros j Hj. destruct (lookup_lt_is_Some_2 sl j Hj) as [c Hc].
      rewrite (unit_is_at _ _ c) by done. apply bool_decide_eq_true_2.
      by eapply (Forall_lookup_1 _ _ _ _ Hs). }
    assert (Ha : unit_is sl 0 CHAR_FORWARD_SLASH = true).
    { apply (Hslash 0). destruct sl; [done|simpl; lia]. }
    assert (Hl : loop_down (parse_step sl) 1 (Z.to_nat (Z.of_nat (length sl) - 1)) parse_init
                 = parse_init).
    { unfold loop_down. rewrite loop_down_r_noop; [done|]. intros j Hj. unfold parse_step.
      rewrite Z_of_nat_add_assoc with (a := 1), Hslash by lia. done. }
    rewrite Ha. cbv zeta. rewrite Hl. cbn. done.
  - rewrite (split_app _ _ _ _ Hok) in Hok |- *.
    destruct (parse_loop_state pre comp sl Hok Hne) as (sp & Hst & Hsp & Hstart).
    pose proof (parse_ext_cond comp (length pre) sp _ Hsp) as Hc. cbv zeta in Hc.
    change (ps_end (comp_state (length pre) comp))
      with (Z.of_nat (length pre + length comp)) in Hc.
    unfold parse. rewrite decide_False by (destruct comp; [done|]; by destruct pre).
    cbv zeta. rewrite Hst. cbn [ps_startDot ps_startPart ps_end ps_preDotState].
    rewrite decide_True by lia. rewrite Hstart, Hc.
    unfold comp_ext, comp_state. cbn [ps_startDot].
    destruct (last_dot comp) as [[|k]|] eqn:Hk; cbn [from_option];
      [| |cbn -[slice unit_is]; by rewrite app_nil_r, slice_split_comp].
    + cbn -[slice unit_is]. by rewrite app_nil_r, slice_split_comp.
    + pose proof (lookup_lt_Some _ _ _ (last_dot_Some _ _ Hk)) as Hlt.
      destruct (bool_decide (pre ≠ [CHAR_FORWARD_SLASH]) && bool_decide (comp = [CHAR_DOT; CHAR_DOT]));
        cbn -[slice unit_is]; [by rewrite app_nil_r, slice_split_comp|].
      rewrite slice_split_comp, slice_mid_take, slice_mid_drop by lia.
      split_and!; [done|done|]. apply take_drop.
Qed.


(** ** [basename(path, suffix)] strips a proper suffix of the last component *)

(** One iteration on a non-separator that matches the suffix unit
    [extIdx = k], from a state that has seen no full match yet; [f] is
    where the component ends. *)
Lemma bs_step_match path sfx (i k f : Z) c st :
  charCodeAt path i = Some c → c ≠ CHAR_FORWARD_SLASH → charCodeAt sfx k = Some c →
  (0 ≤ k)%Z → bs_start st = 0%Z → bs_end st = (-1)%Z → bs_extIdx st = k →
  (bs_firstNonSlashEnd st = -1 ∧ f = i + 1 ∨
   bs_firstNonSlashEnd st = f ∧ f ≠ -1 ∧ bs_matchedSlash st = false)%Z →
  basename_suffix_step path sfx i st
  = inl (BsState 0 (if decide (k = 0)%Z then i else -1) false (k - 1) f).
Proof.
  intros Hp Hc Hs Hk H0 He Hx Hf. unfold basename_suffix_step, unit_is.
  rewrite Hp, bool_decide_eq_false_2 by congruence.
  destruct st as [st en ms x fn]; simpl in *; subst.
  destruct Hf as [[-> ->]|(-> & Hf & ->)].
  - destruct (decide (-1 = -1)%Z); [|done]. simpl.
    destruct (decide (0 ≤ k)%Z); [|done]. rewrite Hs. cbn [code_eq].
    rewrite (bool_decide_eq_true_2 (c = c)) by done.
    case_decide; case_decide; try lia; done.
  - destruct (decide (f = -1)%Z); [done|]. simpl.
    destruct (decide (0 ≤ k)%Z); [|done]. rewrite Hs. cbn [code_eq].
    rewrite (bool_decide_eq_true_2 (c = c)) by done.
    case_decide; case_decide; try lia; done.
Qed.

Section suffix_phases.
Context (pre c' e sl : jsstr).
Let comp := c' ++ e.
Let path := pre ++ comp ++ sl.
Hypothesis Hok : split_ok path pre comp sl.
Let st0 := BsState 0 (-1) true (Z.of_nat (length e) - 1) (-1).
Let base := length pre + length c'.

Lemma lookup_suffix_e j : j < length e → path !! (base + j) = e !! j.
Proof.
  intros Hj. unfold path, comp, base. rewrite <- Nat.add_assoc, lookup_split_comp
    by (rewrite length_app; lia).
  rewrite lookup_app_r by lia. f_equal. lia.
Qed.

Lemma suffix_comp_not_slash j c : comp !! j = Some c → c ≠ CHAR_FORWARD_SLASH.
Proof. intros Hj. by apply (Forall_lookup_1 _ _ _ _ (split_comp _ _ _ _ Hok) Hj). Qed.

Lemma bs_sl_noop st :
  bs_matchedSlash st = true →
  loop_down_r (basename_suffix_step path e) (Z.of_nat (length pre + length comp)) (length sl) st
  = inl st.
Proof.
  intros Hm. apply loop_down_r_noop. intros j Hj.
  unfold basename_suffix_step. rewrite Z_of_nat_add_assoc, unit_is_nat.
  unfold path. rewrite lookup_split_sl.
  destruct (lookup_lt_is_Some_2 sl j Hj) as [c Hc].
  rewrite (Forall_lookup_1 _ _ _ _ (split_sl _ _ _ _ Hok) Hc) in Hc.
  by rewrite Hc, bool_decide_eq_true_2, Hm.
Qed.

(** Reading the part [t] of the suffix (with [e = u ++ t]) from the right:
    every unit matches, and the match completes at the suffix's start. *)
Lemma bs_e_phase t u :
  e = u ++ t → t ≠ [] →
  loop_down_r (basename_suffix_step path e) (Z.of_nat (base + length u)) (length t) st0
  = inl (BsState 0 (if decide (u = []) then Z.of_nat base else -1) false
           (Z.of_nat (length u) - 1) (Z.of_nat (base + length e))).
Proof.
  revert u. induction t as [|c t IH]; intros u He Hne; [done|].
  assert (Hlen : length e = length u + S (length t)) by (rewrite He, length_app; done).
  assert (Hc : path !! (base + length u) = Some c).
  { rewrite lookup_suffix_e by lia. rewrite He, lookup_app_r by lia.
    by rewrite Nat.sub_diag. }
  assert (Hns : c ≠ CHAR_FORWARD_SLASH).
  { apply (suffix_comp_not_slash (length c' + length u)). unfold comp.
    rewrite lookup_app_r by lia. rewrite Nat.add_comm, Nat.add_sub, He, lookup_app_r by lia.
    by rewrite Nat.sub_diag. }
  assert (Hsuf : charCodeAt e (Z.of_nat (length u)) = Some c).
  { rewrite charCodeAt_nat, He, lookup_app_r by lia. by rewrite Nat.sub_diag. }
  assert (H1 : (Z.of_nat (base + length u) + Z.of_nat 1)%Z = Z.of_nat (base + length (u ++ [c])))
    by (rewrite length_app; simpl; lia).
  change (length (c :: t)) with (1 + length t).
  destruct (decide (t = [])) as [->|Ht].
  - rewrite (loop_down_r_add_inl _ _ 1 0 st0 st0), loop_down_r_one by done.
    erewrite (bs_step_match _ _ _ _ (Z.of_nat (base + length e)));
      [|by rewrite charCodeAt_nat|done|done|lia|done
      |done|unfold st0; simpl in *; lia|left; split; [done|simpl in Hlen; lia]].
    destruct u as [|x u]; simpl; try done; do 2 f_equal; lia.
  - pose proof (IH (u ++ [c]) ltac:(by rewrite He, <- app_assoc) Ht) as IHt.
    rewrite <- H1 in IHt.
    rewrite (loop_down_r_add_inl _ _ 1 (length t) st0 _ IHt), loop_down_r_one.
    erewrite (bs_step_match _ _ _ _ (Z.of_nat (base + length e)));
      [|by rewrite charCodeAt_nat|done|done|lia|done
      |by rewrite decide_False by (by destruct u)|simpl; rewrite length_app; simpl; lia
      |right; split_and!; [done|lia|done]].
    destruct u as [|x u]; simpl; try done; do 2 f_equal; lia.
Qed.

Lemma bs_c_noop st :
  bs_extIdx st = (-1)%Z → bs_firstNonSlashEnd st ≠ (-1)%Z →
  loop_down_r (basename_suffix_step path e) (Z.of_nat (length pre)) (length c') st = inl st.
Proof.
  intros Hx Hf. apply loop_down_r_noop. intros j Hj.
  assert (Hl : j < length comp) by (unfold comp; rewrite length_app; lia).
  destruct (lookup_lt_is_Some_2 comp j Hl) as [c Hc].
  unfold basename_suffix_step. rewrite Z_of_nat_add_assoc, (unit_is_at _ _ c).
  - rewrite bool_decide_eq_false_2 by (by apply (suffix_comp_not_slash j)).
    destruct (decide (bs_firstNonSlashEnd st = -1)%Z); [done|].
    by rewrite decide_False by lia.
  - unfold path. by rewrite lookup_split_comp.
Qed.

Lemma bs_pre_phase st :
  bs_matchedSlash st = false →
  loop_down_r (basename_suffix_step path e) 0 (length pre) st =
  if decide (pre = []) then inl st
  else inr (BsState (Z.of_nat (length pre)) (bs_end st) false (bs_extIdx st)
              (bs_firstNonSlashEnd st)).
Proof.
  intros Hm. destruct (split_pre _ _ _ _ Hok) as [->|[pre' ->]]; [done|].
  rewrite decide_False by (by destruct pre').
  rewrite length_app, loop_down_r_add, loop_down_r_one. unfold basename_suffix_step.
  rewrite Z.add_0_l, unit_is_nat. unfold path.
  rewrite <- app_assoc, lookup_split_pre_last, bool_decide_eq_true_2, Hm by done.
  simpl. do 2 f_equal. lia.
Qed.
End suffix_phases.

(** Given a non-empty proper suffix [e] of the last component [c' ++ e],
    [basename(path, e)] is the component without it. *)
Theorem basename_suffix_strip pre c' e sl :
  split_ok (pre ++ (c' ++ e) ++ sl) pre (c' ++ e) sl → c' ≠ [] → e ≠ [] →
  basename_suffix (pre ++ (c' ++ e) ++ sl) e = c'.
Proof.
  intros Hok Hc He.
  assert (Hlen : length (pre ++ (c' ++ e) ++ sl) = length pre + length c' + (length e + length sl))
    by (rewrite !length_app; lia).
  unfold basename_suffix.
  rewrite decide_True by (split; [destruct e; simpl; [done|lia]|lia]).
  rewrite decide_False by (intros Heq; apply (f_equal length) in Heq; destruct c'; simpl in *;
    [done|lia]).
  unfold loop_down. rewrite Hlen, loop_down_r_phases, !Z.add_0_l.
  pose (st0 := BsState 0 (-1) true (Z.of_nat (length e) - 1) (-1)).
  rewrite (loop_down_r_add_inl _ _ (length e) (length sl) st0 st0); cycle 1.
  { replace (Z.of_nat (length pre + length c') + Z.of_nat (length e))%Z
      with (Z.of_nat (length pre + length (c' ++ e))) by (rewrite length_app; lia).
    apply bs_sl_noop; done. }
  pose proof (bs_e_phase pre c' e sl Hok e [] eq_refl He) as He'.
  rewrite Nat.add_0_r in He'. cbn [length] in He'. unfold st0. rewrite He'.
  rewrite decide_True by done. simpl.
  rewrite (bs_c_noop pre c' e sl Hok) by (simpl; lia).
  rewrite (bs_pre_phase pre c' e sl Hok) by done.
  assert (Hcl : length c' ≠ 0) by (destruct c'; simpl; [done|lia]).
  pose proof (slice_mid_take pre (c' ++ e) sl (length c')) as Hs.
  rewrite take_app_length in Hs. specialize (Hs ltac:(rewrite length_app; lia)).
  destruct (decide (pre = [])) as [->|Hpre]; simpl;
    (rewrite decide_False by lia; rewrite decide_False by lia); [|done].
  cbn [app length Nat.add] in Hs. by change (Z.of_nat 0) with 0%Z in Hs.
Qed.

(** [basename] returns the last component of the path, trailing slashes
    removed: the loop's answer is the reference one. *)
Theorem basename_spec path : basename path = last_component path.
Proof.
  unfold last_component. pose proof (path_split_ok path) as Hok.
  destruct (path_split path) as [[pre comp] sl]. simpl.
  destruct (decide (comp = [])) as [->|Hne].
  - rewrite (split_empty _ _ _ _ Hok eq_refl) in Hok.
    rewrite (split_app _ _ _ _ Hok). apply basename_all_slashes, (split_sl _ _ _ _ Hok).
  - rewrite (split_app _ _ _ _ Hok) in Hok |- *. unfold basename, loop_down.
    replace (length (pre ++ comp ++ sl)) with (length pre + length comp + length sl)
      by (rewrite !length_app; lia).
    rewrite loop_down_r_phases, !Z.add_0_l, basename_sl_noop, basename_comp_phase by done.
    rewrite basename_pre_phase by done.
    destruct (decide (pre = [])) as [->|Hpre]; simpl;
      (rewrite decide_False by lia);
      [apply (slice_split_comp [] comp sl)|apply (slice_split_comp pre comp sl)].
Qed.

(** The extension of a component starts with its last dot and contains no
    other dot and no separator. *)
Lemma last_dot_drop s k :
  last_dot s = Some k → ∃ r, drop k s = CHAR_DOT :: r ∧ CHAR_DOT ∉ r.
Proof.
  revert k. induction s as [|c s IH]; intros k; simpl; [done|].
  destruct (last_dot s) as [k'|] eqn:Hk.
  - intros [= <-]. simpl. by apply IH.
  - case_bool_decide as Hc; [|done]. intros [= <-]. subst c. exists s. split; [done|].
    intros Hin. apply list_elem_of_lookup_1 in Hin as [j Hj].
    clear IH. revert j Hj Hk. induction s as [|d s IH']; intros j Hj Hk; [done|].
    simpl in Hk. destruct (last_dot s) eqn:Hk'; [done|].
    destruct j as [|j]; simpl in Hj.
    + injection Hj as ->. by rewrite bool_decide_eq_true_2 in Hk.
    + by apply (IH' j).
Qed.

Lemma comp_ext_shape comp dotdot :
  Forall (λ c, c ≠ CHAR_FORWARD_SLASH) comp →
  comp_ext comp dotdot = [] ∨
  ∃ r, comp_ext comp dotdot = CHAR_DOT :: r ∧ CHAR_DOT ∉ r ∧ CHAR_FORWARD_SLASH ∉ r ∧
       ∃ stem, stem ≠ [] ∧ comp = stem ++ CHAR_DOT :: r.
Proof.
  intros Hns. unfold comp_ext. destruct (last_dot comp) as [[|k]|] eqn:Hk; [by left| |by left].
  destruct (_ && _); [by left|right].
  destruct (last_dot_drop _ _ Hk) as (r & Hr & Hnd). exists r. split_and!; [done|done| |].
  - intros Hin. rewrite <- (take_drop (S k) comp), Hr in Hns.
    apply Forall_app in Hns as [_ Hns]. apply Forall_cons in Hns as [_ Hns].
    by eapply Forall_forall in Hin; [|apply Hns].
  - exists (take (S k) comp). split.
    + pose proof (lookup_lt_Some _ _ _ (last_dot_Some _ _ Hk)).
      intros Ht. apply (f_equal length) in Ht. rewrite length_take in Ht. cbn [length] in Ht. lia.
    + by rewrite <- Hr, take_drop.
Qed.

End NodePath.
