(* ===== verification/NodeJoin.v ===== *)
(** * Node's [path.join] and [path.normalize] (POSIX)

    The locator returns [join(__dirname, '../../../bin/', plat)]
    ([src/lib/utilities.ts] line 24).  Node's [path.posix.join] glues its
    non-empty arguments with ['/'] and normalizes the result; [normalize]
    keeps a leading and a trailing separator and resolves the segments in
    between with [normalizeString], a single loop over the code units that
    keeps the resolved text [res], the length of its last segment, the
    position of the last separator and a dot counter.  This is library
    code, modelled loop by loop after Node's [lib/path.js].

    The reference semantics resolves the list of segments ([split] at
    ['/']) with a stack: empty and ["."] segments vanish, [".."] pops a
    segment that is not itself [".."] and is kept (relative paths) or
    dropped (absolute paths) otherwise.  [normalizeString_spec] proves the
    loop computes it.  For an absolute path the stack holds plain
    segments only ([path_segments] lists them), [join_bin_abs] computes
    the locator's [join(dir, '../../../bin/', tag)] for every absolute
    [dir], and [normalize_join_plain] shows that a path of plain segments
    is left unchanged by [normalize]. *)

From S2P Require Import Prelude JsString.

Module NodeJoin.
Import JsString.

(** [isPosixPathSeparator(code)] *)
Definition isPosixPathSeparator (code : codeunit) : bool := bool_decide (code = CHAR_FORWARD_SLASH).

(** The variables of [normalizeString]'s loop. *)
Record ns_state := NS {
  ns_res : jsstr;
  ns_lastSegmentLength : Z;
  ns_lastSlash : Z;
  ns_dots : Z;
  ns_code : codeunit
}.

Definition ns_init : ns_state := NS [] 0 (-1) 0 0.

(** The body for a separator at [i]: [lastSlash + 1 .. i] is a segment. *)
Definition ns_separator (path : jsstr) (allowAboveRoot : bool) (i : Z) (st : ns_state) : ns_state :=
  let '(NS res lastSegmentLength lastSlash dots code) := st in
  let rlen := Z.of_nat (length res) in
  if bool_decide (lastSlash = i - 1)%Z || bool_decide (dots = 1)%Z then
    NS res lastSegmentLength i 0 code                       (* NOOP *)
  else if bool_decide (dots = 2)%Z then
    let popped :=
      if (rlen <? 2)%Z || negb (bool_decide (lastSegmentLength = 2)%Z) ||
         negb (unit_is res (rlen - 1) CHAR_DOT) || negb (unit_is res (rlen - 2) CHAR_DOT) then
        if (2 <? rlen)%Z then
          let lastSlashIndex := lastIndexOf res CHAR_FORWARD_SLASH in
          if bool_decide (lastSlashIndex = -1)%Z then Some (NS [] 0 i 0 code)
          else
            let res' := slice res 0 lastSlashIndex in
            Some (NS res' (Z.of_nat (length res') - 1 - lastIndexOf res' CHAR_FORWARD_SLASH)%Z i 0 code)
        else if negb (bool_decide (rlen = 0)%Z) then Some (NS [] 0 i 0 code)
        else None
      else None in
    match popped with
    | Some st' => st'                                       (* continue *)
    | None =>
        let '(res, lastSegmentLength) :=
          if allowAboveRoot then
            ((if (0 <? rlen)%Z then res ++ [CHAR_FORWARD_SLASH; CHAR_DOT; CHAR_DOT]
              else [CHAR_DOT; CHAR_DOT]), 2%Z)
          else (res, lastSegmentLength) in
        NS res lastSegmentLength i 0 code
    end
  else
    let seg := slice path (lastSlash + 1) i in
    let res := if (0 <? rlen)%Z then res ++ CHAR_FORWARD_SLASH :: seg else seg in
    NS res (i - lastSlash - 1) i 0 code.

(** One iteration of [for (let i = 0; i <= path.length; ++i)]: the code
    unit at [i], or past the end a virtual separator unless the last unit
    read was one ([break]). *)
Definition normalizeString_step (path : jsstr) (allowAboveRoot : bool) (i : Z) (st : ns_state)
    : ns_state + ns_state :=
  let '(NS res lastSegmentLength lastSlash dots code) := st in
  let code_next :=
    if decide (i < Z.of_nat (length path))%Z then Some (default 0%N (charCodeAt path i))
    else if isPosixPathSeparator code then None
    else Some CHAR_FORWARD_SLASH in
  match code_next with
  | None => inr st
  | Some code =>
      inl (if isPosixPathSeparator code then
             ns_separator path allowAboveRoot i (NS res lastSegmentLength lastSlash dots code)
           else if bool_decide (code = CHAR_DOT) && negb (bool_decide (dots = -1)%Z) then
             NS res lastSegmentLength lastSlash (dots + 1) code
           else NS res lastSegmentLength lastSlash (-1) code)
  end.

(** [normalizeString(path, allowAboveRoot, '/', isPosixPathSeparator)] *)
Definition normalizeString (path : jsstr) (allowAboveRoot : bool) : jsstr :=
  ns_res (loop_up (normalizeString_step path allowAboveRoot) 0 (length path + 1) ns_init).

(** [posix.normalize(path)] *)
Definition normalize (path : jsstr) : jsstr :=
  if decide (length path = 0) then ‹"."› else
  let isAbsolute := unit_is path 0 CHAR_FORWARD_SLASH in
  let trailingSeparator := unit_is path (Z.of_nat (length path) - 1) CHAR_FORWARD_SLASH in
  let path' := normalizeString path (negb isAbsolute) in
  if decide (length path' = 0) then
    (if isAbsolute then ‹"/"› else if trailingSeparator then ‹"./"› else ‹"."›)
  else
    let path'' := if trailingSeparator then path' ++ ‹"/"› else path' in
    if isAbsolute then CHAR_FORWARD_SLASH :: path'' else path''.

(** [posix.join(...args)] *)
Definition join (args : list jsstr) : jsstr :=
  if decide (length args = 0) then ‹"."› else
  let joined :=
    fold_left (λ joined arg,
      if decide (0 < length arg) then
        match joined with
        | None => Some arg
        | Some j => Some (j ++ CHAR_FORWARD_SLASH :: arg)
        end
      else joined) args None in
  match joined with
  | None => ‹"."›
  | Some j => normalize j
  end.

(** ** The reference: resolving segments with a stack (top first) *)

Definition resolve_step (allowAboveRoot : bool) (stack : list jsstr) (seg : jsstr) : list jsstr :=
  if decide (seg = [] ∨ seg = ‹"."›) then stack
  else if decide (seg = ‹".."›) then
    match stack with
    | top :: rest =>
        if decide (top = ‹".."›) then (if allowAboveRoot then ‹".."› :: stack else stack)
        else rest
    | [] => if allowAboveRoot then [‹".."›] else []
    end
  else seg :: stack.

Definition resolve (allowAboveRoot : bool) (segs : list jsstr) (stack : list jsstr) : list jsstr :=
  fold_left (resolve_step allowAboveRoot) segs stack.

(** The text of a stack: its segments bottom first, joined with ['/']. *)
Definition stack_str (stack : list jsstr) : jsstr := JsString.join [CHAR_FORWARD_SLASH] (reverse stack).

Definition normalize_ref (path : jsstr) (allowAboveRoot : bool) : jsstr :=
  stack_str (resolve allowAboveRoot (split path CHAR_FORWARD_SLASH) []).

(** ** The loop invariant

    After the separator at [j], [res] is the text of the stack of resolved
    segments, [lastSegmentLength] the length of its top, and [dots] is
    [0]; the segments of the stack are non-empty and have no separator. *)

Definition seg_ok (s : jsstr) : Prop := s ≠ [] ∧ CHAR_FORWARD_SLASH ∉ s.

Definition top_len (stack : list jsstr) : Z :=
  match stack with t :: _ => Z.of_nat (length t) | [] => 0%Z end.

Definition ns_repr (stack : list jsstr) (j : Z) (st : ns_state) : Prop :=
  ns_res st = stack_str stack ∧ ns_lastSegmentLength st = top_len stack ∧
  ns_lastSlash st = j ∧ ns_dots st = 0%Z ∧ Forall seg_ok stack.

(** The dot counter after the units of a segment, from [d]. *)
Definition dots_after (d : Z) (seg : jsstr) : Z :=
  fold_left (λ d c, if bool_decide (c = CHAR_DOT) && negb (bool_decide (d = -1)%Z) then (d + 1)%Z else (-1)%Z) seg d.

Lemma stack_str_cons t r : r ≠ [] → stack_str (t :: r) = stack_str r ++ CHAR_FORWARD_SLASH :: t.
Proof.
  intros Hr. unfold stack_str. rewrite reverse_cons.
  rewrite (join_app_ne [CHAR_FORWARD_SLASH] (reverse r) [t]); [done| |done].
  intros E. apply (f_equal reverse) in E. rewrite reverse_involutive in E. done.
Qed.

Lemma stack_str_single t : stack_str [t] = t.
Proof. done. Qed.

Lemma stack_str_nil_iff stack : Forall seg_ok stack → stack_str stack = [] ↔ stack = [].
Proof.
  intros Hok. split; [|by intros ->].
  destruct stack as [|t [|t' r]]; [done| |].
  - apply Forall_cons in Hok as [[Ht _] _]. done.
  - rewrite stack_str_cons by done. intros E. apply (f_equal length) in E.
    rewrite length_app in E. simpl in E. lia.
Qed.

(** A stack of two segments or more is at least three units long. *)
Lemma stack_str_length_two t t' r :
  Forall seg_ok (t :: t' :: r) → 3 ≤ length (stack_str (t :: t' :: r)).
Proof.
  intros Hok. apply Forall_cons in Hok as [[Ht _] Hok].
  rewrite stack_str_cons by done. rewrite length_app. cbn [length].
  destruct t; [done|]. destruct (stack_str (t' :: r)) eqn:E; [|simpl; lia].
  apply stack_str_nil_iff in E; done.
Qed.

Lemma dots_after_spec d seg :
  (0 ≤ d)%Z → dots_after d seg =
  if forallb (λ c, bool_decide (c = CHAR_DOT)) seg then (d + Z.of_nat (length seg))%Z else (-1)%Z.
Proof.
  revert d. induction seg as [|c seg IH]; intros d Hd; simpl; [lia|].
  unfold dots_after in *. simpl. rewrite (bool_decide_eq_false_2 (d = -1)%Z) by lia. simpl.
  destruct (bool_decide (c = CHAR_DOT)); simpl.
  - rewrite IH by lia. destruct forallb; lia.
  - clear IH. induction seg as [|c' seg IH]; simpl; [done|].
    rewrite andb_false_r. apply IH.
Qed.

Lemma code_at path pre c rest :
  path = pre ++ c :: rest → default 0%N (charCodeAt path (Z.of_nat (length pre))) = c.
Proof. intros ->. rewrite charCodeAt_nat, lookup_app_r, Nat.sub_diag by lia. done. Qed.

(** Units of a segment only count dots. *)
Lemma ns_chars path allow pre seg rest st :
  path = pre ++ seg ++ rest → CHAR_FORWARD_SLASH ∉ seg →
  ∃ code, (seg = [] → code = ns_code st) ∧ (seg ≠ [] → code ∈ seg) ∧
    loop_up_r (normalizeString_step path allow) (Z.of_nat (length pre)) (length seg) st =
    inl (NS (ns_res st) (ns_lastSegmentLength st) (ns_lastSlash st) (dots_after (ns_dots st) seg) code).
Proof.
  revert pre st. induction seg as [|c seg IH]; intros pre [res lsl ls dots code] Hp Hseg.
  - by exists code.
  - rewrite elem_of_cons in Hseg. cbn [length loop_up_r normalizeString_step].
    rewrite decide_True by (subst path; rewrite length_app; simpl; lia).
    rewrite (code_at path pre c (seg ++ rest)) by done.
    unfold isPosixPathSeparator. rewrite bool_decide_eq_false_2 by naive_solver.
    replace (Z.of_nat (length pre) + 1)%Z with (Z.of_nat (length (pre ++ [c]))) by (rewrite length_app; simpl; lia).
    edestruct (IH (pre ++ [c])) as (code' & Hnil & Hin & ->); [by rewrite <- app_assoc|naive_solver|].
    exists code'. split; [done|]. split.
    + intros _. destruct seg as [|c' seg].
      * rewrite (Hnil eq_refl). apply list_elem_of_singleton. by destruct (_ && _).
      * apply elem_of_cons. right. by apply Hin.
    + unfold dots_after. cbn [fold_left]. by destruct (_ && _).
Qed.

Definition stack_prefix (r : list jsstr) : jsstr :=
  match r with [] => [] | _ => stack_str r ++ [CHAR_FORWARD_SLASH] end.

Lemma stack_str_cons_prefix t r : stack_str (t :: r) = stack_prefix r ++ t.
Proof. destruct r as [|t' r]; [done|]. rewrite stack_str_cons by done. unfold stack_prefix. by rewrite <- app_assoc. Qed.

(** The length of the top segment, read back as [res.lastIndexOf('/')]. *)
Lemma stack_str_last_segment t r :
  Forall seg_ok (t :: r) →
  (Z.of_nat (length (stack_str (t :: r))) - 1 - lastIndexOf (stack_str (t :: r)) CHAR_FORWARD_SLASH)%Z
  = Z.of_nat (length t).
Proof.
  intros [[_ Ht] _]%Forall_cons. destruct r as [|t' r].
  - rewrite stack_str_single, lastIndexOf_none by done. lia.
  - rewrite stack_str_cons, lastIndexOf_last, length_app by done. simpl. lia.
Qed.

Lemma unit_is_end2 x a b :
  unit_is (x ++ [a; b]) (Z.of_nat (length (x ++ [a; b])) - 1) CHAR_DOT = bool_decide (b = CHAR_DOT) ∧
  unit_is (x ++ [a; b]) (Z.of_nat (length (x ++ [a; b])) - 2) CHAR_DOT = bool_decide (a = CHAR_DOT).
Proof.
  unfold unit_is. rewrite length_app. simpl.
  replace (Z.of_nat (length x + 2) - 1)%Z with (Z.of_nat (length x + 1)) by lia.
  replace (Z.of_nat (length x + 2) - 2)%Z with (Z.of_nat (length x)) by lia.
  rewrite !charCodeAt_nat, !lookup_app_r by lia.
  replace (length x + 1 - length x) with 1 by lia. rewrite Nat.sub_diag. simpl.
  split; apply bool_decide_ext; naive_solver.
Qed.

(** The test [res.length < 2 || lastSegmentLength !== 2 || ...] asks
    whether the top segment differs from [".."]. *)
Lemma dotdot_test t r :
  Forall seg_ok (t :: r) →
  (let res := stack_str (t :: r) in
   let rlen := Z.of_nat (length res) in
   (rlen <? 2)%Z || negb (bool_decide (top_len (t :: r) = 2)%Z) ||
   negb (unit_is res (rlen - 1) CHAR_DOT) || negb (unit_is res (rlen - 2) CHAR_DOT))
  = negb (bool_decide (t = ‹".."›)).
Proof.
  intros Hok. cbn zeta. rewrite stack_str_cons_prefix. simpl top_len.
  destruct (decide (length t = 2)) as [H2|H2].
  - destruct t as [|a [|b [|]]]; try done.
    rewrite (proj1 (unit_is_end2 _ a b)), (proj2 (unit_is_end2 _ a b)).
    rewrite length_app. simpl length.
    rewrite (proj2 (Z.ltb_ge _ _)) by lia. rewrite bool_decide_eq_true_2 by done. simpl.
    rewrite orb_comm, <- negb_andb, <- bool_decide_and. f_equal. apply bool_decide_ext.
    change ‹".."› with [CHAR_DOT; CHAR_DOT]. naive_solver.
  - rewrite (bool_decide_eq_false_2 (Z.of_nat (length t) = 2)%Z) by lia.
    rewrite (bool_decide_eq_false_2 (t = _)) by (intros ->; done). by rewrite orb_true_r.
Qed.

Lemma seg_ok_dotdot : seg_ok ‹".."›.
Proof. split; [done|]. apply (bool_decide_unpack _). reflexivity. Qed.

Lemma ns_repr_intro stack i code :
  Forall seg_ok stack → ns_repr stack i (NS (stack_str stack) (top_len stack) i 0 code).
Proof. done. Qed.

(** A [".."] segment. *)
Lemma ns_separator_dotdot path allow i j code stack :
  Forall seg_ok stack → j ≠ (i - 1)%Z →
  ns_repr (resolve_step allow stack ‹".."›) i
    (ns_separator path allow i (NS (stack_str stack) (top_len stack) j 2 code)).
Proof.
  intros Hok Hj. unfold ns_separator.
  rewrite (bool_decide_eq_false_2 (j = i - 1)%Z), (bool_decide_eq_false_2 (2 = 1)%Z), (bool_decide_eq_true_2 (2 = 2)%Z) by lia.
  cbn -[stack_str top_len unit_is slice lastIndexOf].
  unfold resolve_step. rewrite decide_False by (intros [H|H]; discriminate H). rewrite decide_True by done.
  destruct stack as [|t r].
  - destruct allow; simpl.
    + apply (ns_repr_intro [‹".."›]). constructor; [apply seg_ok_dotdot|constructor].
    + apply (ns_repr_intro []). constructor.
  - rewrite dotdot_test by done. destruct (decide (t = ‹".."›)) as [->|Ht]; simpl negb; cbn match.
    + destruct allow.
      * rewrite (proj2 (Z.ltb_lt 0 _)) by (rewrite stack_str_cons_prefix, length_app; simpl; lia).
        change [CHAR_FORWARD_SLASH; CHAR_DOT; CHAR_DOT] with (CHAR_FORWARD_SLASH :: ‹".."›).
        rewrite <- stack_str_cons by done. apply (ns_repr_intro (‹".."› :: ‹".."› :: r)). constructor; [apply seg_ok_dotdot|done].
      * by apply ns_repr_intro.
    + rewrite bool_decide_eq_false_2 by done. simpl negb. cbn match. pose proof Hok as [[Htne Hts] Hr]%Forall_cons.
      destruct r as [|t' r].
      * rewrite stack_str_single, lastIndexOf_none by done.
        destruct (2 <? _)%Z; [by rewrite bool_decide_eq_true_2|].
        rewrite bool_decide_eq_false_2 by (destruct t; simpl; [done|lia]). done.
      * pose proof (stack_str_length_two t t' r Hok).
        rewrite (proj2 (Z.ltb_lt 2 _)) by lia.
        rewrite stack_str_cons, lastIndexOf_last by done.
        rewrite bool_decide_eq_false_2 by lia.
        assert (slice (stack_str (t' :: r) ++ CHAR_FORWARD_SLASH :: t) 0
                  (Z.of_nat (length (stack_str (t' :: r)))) = stack_str (t' :: r)) as ->.
        { pose proof (slice_mid_take [] (stack_str (t' :: r)) (CHAR_FORWARD_SLASH :: t)
            (length (stack_str (t' :: r))) ltac:(lia)) as E.
          rewrite take_ge in E by lia. exact E. }
        rewrite stack_str_last_segment by done. by apply ns_repr_intro.
Qed.

Lemma dots_after_seg seg :
  seg ≠ [] → (dots_after 0 seg = 1%Z ↔ seg = ‹"."›) ∧ (dots_after 0 seg = 2%Z ↔ seg = ‹".."›).
Proof.
  intros Hne. rewrite dots_after_spec by lia.
  destruct (forallb _ seg) eqn:Hd.
  - destruct seg as [|a [|b [|c s]]]; try done; simpl in Hd; rewrite ?andb_true_iff in Hd;
      repeat match goal with H : _ ∧ _ |- _ => destruct H end;
      repeat match goal with H : bool_decide _ = true |- _ => apply bool_decide_eq_true_1 in H end;
      subst; simpl; split; split; intros; try done; try lia.
    all: match goal with H : _ :: _ :: _ = _ |- _ => discriminate H end.
  - split; split; intros H; try lia; subst; done.
Qed.

(** Pushing a segment: [res += res.length > 0 ? `/${seg}` : seg]. *)
Lemma stack_str_push seg stack :
  Forall seg_ok stack →
  (if (0 <? Z.of_nat (length (stack_str stack)))%Z then stack_str stack ++ CHAR_FORWARD_SLASH :: seg
   else seg) = stack_str (seg :: stack).
Proof.
  intros Hok. destruct stack as [|t r]; [done|].
  rewrite (proj2 (Z.ltb_lt _ _)).
  - symmetry. by apply stack_str_cons.
  - destruct (stack_str (t :: r)) eqn:E; [|simpl; lia].
    by apply stack_str_nil_iff in E.
Qed.

(** The separator that ends a segment [seg] of [path = pre ++ seg ++ rest]
    resolves [seg] against the stack. *)
Lemma ns_separator_seg path allow pre seg rest stack code :
  path = pre ++ seg ++ rest → CHAR_FORWARD_SLASH ∉ seg → Forall seg_ok stack →
  ns_repr (resolve_step allow stack seg) (Z.of_nat (length pre + length seg))
    (ns_separator path allow (Z.of_nat (length pre + length seg))
       (NS (stack_str stack) (top_len stack) (Z.of_nat (length pre) - 1) (dots_after 0 seg) code)).
Proof.
  intros Hp Hs Hok. unfold resolve_step.
  destruct (decide (seg = [])) as [->|Hne].
  - rewrite decide_True by auto. unfold ns_separator. rewrite Nat.add_0_r.
    rewrite bool_decide_eq_true_2 by lia. by apply ns_repr_intro.
  - destruct (dots_after_seg seg Hne) as [H1 H2].
    destruct (decide (seg = ‹"."›)) as [Hd|Hd].
    + rewrite decide_True by auto. unfold ns_separator.
      rewrite (proj2 H1 Hd), orb_true_r. by apply ns_repr_intro.
    + rewrite decide_False by naive_solver.
      destruct (decide (seg = ‹".."›)) as [Hdd|Hdd].
      * rewrite (proj2 H2 Hdd). apply ns_separator_dotdot; [done|].
        destruct seg; [done|simpl; lia].
      * unfold ns_separator.
        rewrite (bool_decide_eq_false_2 (_ = _ - 1)%Z) by (destruct seg; [done|simpl; lia]).
        rewrite (bool_decide_eq_false_2 (dots_after 0 seg = 1)%Z) by (rewrite H1; done).
        rewrite (bool_decide_eq_false_2 (dots_after 0 seg = 2)%Z) by (rewrite H2; done). simpl.
        replace (Z.of_nat (length pre) - 1 + 1)%Z with (Z.of_nat (length pre)) by lia.
        rewrite Hp, slice_mid_take by lia.
        rewrite take_ge by lia.
        replace (Z.of_nat (length pre + length seg) - (Z.of_nat (length pre) - 1) - 1)%Z
          with (Z.of_nat (length seg)) by lia.
        rewrite stack_str_push by done.
        apply (ns_repr_intro (seg :: stack)). by constructor.
Qed.

Lemma ns_segment_mid path allow pre seg r stack st :
  path = pre ++ seg ++ CHAR_FORWARD_SLASH :: r → CHAR_FORWARD_SLASH ∉ seg →
  ns_repr stack (Z.of_nat (length pre) - 1) st →
  ∃ st', loop_up_r (normalizeString_step path allow) (Z.of_nat (length pre)) (length seg + 1) st = inl st' ∧
         ns_repr (resolve_step allow stack seg) (Z.of_nat (length pre + length seg)) st'.
Proof.
  intros Hp Hs (Hres & Hlsl & Hls & Hdots & Hok).
  destruct (ns_chars path allow pre seg (CHAR_FORWARD_SLASH :: r) st Hp Hs) as (code & _ & _ & Hc).
  rewrite (loop_up_r_add_inl _ _ _ _ _ _ Hc), loop_up_r_one. cbn [normalizeString_step].
  rewrite decide_True by (subst path; rewrite !length_app; simpl; lia).
  rewrite <- Nat2Z.inj_add, <- length_app, (code_at path (pre ++ seg) CHAR_FORWARD_SLASH r) by (subst; by rewrite <- app_assoc).
  unfold isPosixPathSeparator. rewrite bool_decide_eq_true_2 by done.
  eexists. split; [done|]. rewrite length_app, Hres, Hlsl, Hls, Hdots.
  by apply (ns_separator_seg path allow pre seg (CHAR_FORWARD_SLASH :: r)).
Qed.

Lemma ns_segment_last path allow pre seg stack st :
  path = pre ++ seg → CHAR_FORWARD_SLASH ∉ seg →
  ns_repr stack (Z.of_nat (length pre) - 1) st →
  ns_res (loop_up (normalizeString_step path allow) (Z.of_nat (length pre)) (length seg + 1) st)
  = stack_str (resolve_step allow stack seg).
Proof.
  intros Hp Hs (Hres & Hlsl & Hls & Hdots & Hok).
  destruct (ns_chars path allow pre seg [] st ltac:(by rewrite app_nil_r) Hs) as (code & Hnil & Hin & Hc).
  unfold loop_up. rewrite (loop_up_r_add_inl _ _ _ _ _ _ Hc), loop_up_r_one. cbn [normalizeString_step].
  rewrite decide_False by (subst path; rewrite !length_app; lia).
  destruct (isPosixPathSeparator code) eqn:Hsep.
  - destruct (decide (seg = [])) as [->|Hne].
    + unfold resolve_step. rewrite decide_True by auto. done.
    + apply bool_decide_eq_true_1 in Hsep. subst code. by apply Hin in Hne.
  - cbn [ns_res]. rewrite Hres, Hlsl, Hls, Hdots.
    rewrite <- Nat2Z.inj_add.
    by apply (ns_separator_seg path allow pre seg []); [rewrite app_nil_r|..].
Qed.

Lemma ns_segments path allow segs pre stack st :
  segs ≠ [] → Forall (λ s, CHAR_FORWARD_SLASH ∉ s) segs →
  path = pre ++ JsString.join [CHAR_FORWARD_SLASH] segs →
  ns_repr stack (Z.of_nat (length pre) - 1) st →
  ns_res (loop_up (normalizeString_step path allow) (Z.of_nat (length pre))
            (length (JsString.join [CHAR_FORWARD_SLASH] segs) + 1) st)
  = stack_str (resolve allow segs stack).
Proof.
  revert pre stack st. induction segs as [|s [|s' ss] IH]; intros pre stack st Hne Hs Hp Hr; [done| |].
  - apply Forall_cons in Hs as [Hs _]. by apply (ns_segment_last path allow pre s).
  - apply Forall_cons in Hs as [Hs Hss].
    rewrite join_cons in Hp |- * by done. cbn [app] in Hp.
    destruct (ns_segment_mid path allow pre s _ stack st Hp Hs Hr) as (st' & Hl & Hr').
    unfold loop_up.
    replace (length (s ++ [CHAR_FORWARD_SLASH] ++ JsString.join [CHAR_FORWARD_SLASH] (s' :: ss)) + 1)
      with ((length s + 1) + (length (JsString.join [CHAR_FORWARD_SLASH] (s' :: ss)) + 1))
      by (rewrite !length_app; simpl; lia).
    rewrite (loop_up_r_add_inl _ _ _ _ _ _ Hl).
    replace (Z.of_nat (length pre) + Z.of_nat (length s + 1))%Z
      with (Z.of_nat (length (pre ++ s ++ [CHAR_FORWARD_SLASH]))) by (rewrite !length_app; simpl; lia).
    apply (IH (pre ++ s ++ [CHAR_FORWARD_SLASH])); [done|done| |].
    + rewrite Hp, <- !app_assoc. done.
    + replace (Z.of_nat (length (pre ++ s ++ [CHAR_FORWARD_SLASH])) - 1)%Z
        with (Z.of_nat (length pre + length s)) by (rewrite !length_app; simpl; lia).
      done.
Qed.

(** [normalizeString] resolves the segments of [path] with a stack. *)
Lemma normalizeString_spec path allowAboveRoot :
  normalizeString path allowAboveRoot = normalize_ref path allowAboveRoot.
Proof.
  unfold normalizeString, normalize_ref.
  rewrite <- (join_split path CHAR_FORWARD_SLASH) at 2.
  apply (ns_segments path allowAboveRoot _ [] [] ns_init).
  - apply split_not_nil.
  - apply split_pieces_sep_free.
  - by rewrite join_split.
  - repeat split; constructor.
Qed.

(** ** Joining plain segments

    A plain segment is non-empty, has no separator and is neither ["."] nor
    [".."]: the segments of a normalized directory such as [__dirname]. *)
Definition plain_seg (s : jsstr) : Prop :=
  s ≠ [] ∧ (CHAR_FORWARD_SLASH ∉ s) ∧ s ≠ ‹"."› ∧ s ≠ ‹".."›.

Lemma split_join_app ps rest sep :
  ps ≠ [] → Forall (λ p, sep ∉ p) ps →
  split (JsString.join [sep] ps ++ sep :: rest) sep = ps ++ split rest sep.
Proof.
  induction ps as [|p [|p' ps] IH]; intros Hne Hf; [done| |].
  - apply Forall_cons in Hf as [Hp _]. simpl. by rewrite split_app_sep.
  - apply Forall_cons in Hf as [Hp Hf]. rewrite join_cons by done.
    rewrite <- !app_assoc. cbn [app]. rewrite split_app_sep by done. rewrite IH by done. done.
Qed.

Lemma resolve_app allow a b stack : resolve allow (a ++ b) stack = resolve allow b (resolve allow a stack).
Proof. apply fold_left_app. Qed.

Lemma resolve_step_plain allow stack s : plain_seg s → resolve_step allow stack s = s :: stack.
Proof.
  intros (Hne & _ & Hd & Hdd). unfold resolve_step.
  rewrite decide_False by naive_solver. by rewrite decide_False.
Qed.

Lemma resolve_plain allow segs stack :
  Forall plain_seg segs → resolve allow segs stack = reverse segs ++ stack.
Proof.
  revert stack. induction segs as [|s segs IH]; intros stack Hs; [done|].
  apply Forall_cons in Hs as [Hs Hss]. unfold resolve. cbn [fold_left].
  rewrite resolve_step_plain by done. fold (resolve allow segs (s :: stack)).
  rewrite IH by done. rewrite reverse_cons, <- app_assoc. done.
Qed.

(** Above an absolute root, [".."] drops the top plain segment, if any. *)
Lemma resolve_step_dotdot stack :
  Forall plain_seg stack → resolve_step false stack ‹".."› = drop 1 stack.
Proof.
  intros Hs. unfold resolve_step. rewrite decide_False by (intros [H|H]; discriminate H).
  rewrite decide_True by done. destruct stack as [|t r]; [done|].
  apply Forall_cons in Hs as [(_ & _ & _ & Ht) _]. by rewrite decide_False.
Qed.

Lemma plain_seg_ok s : plain_seg s → seg_ok s.
Proof. by intros (? & ? & _). Qed.

Lemma Forall_plain_drop n stack : Forall plain_seg stack → Forall plain_seg (drop n stack).
Proof. apply Forall_drop. Qed.

(** The last unit of a non-empty string without separators is not one. *)
Lemma unit_is_last_not_sep x t :
  t ≠ [] → CHAR_FORWARD_SLASH ∉ t →
  unit_is (x ++ t) (Z.of_nat (length (x ++ t)) - 1) CHAR_FORWARD_SLASH = false.
Proof.
  intros Hne Hs. destruct (exists_last Hne) as [t' [c ->]].
  rewrite app_assoc. unfold unit_is. rewrite length_app. simpl.
  replace (Z.of_nat (length (x ++ t') + 1) - 1)%Z with (Z.of_nat (length (x ++ t'))) by lia.
  rewrite charCodeAt_nat, lookup_app_r, Nat.sub_diag by done. simpl.
  apply bool_decide_eq_false_2. intros [= ->]. apply Hs. apply elem_of_app. right. by left.
Qed.

(** ** Absolute paths

    For an absolute path [normalize] resolves with [allowAboveRoot = false]:
    [".."] at the root vanishes and the stack holds plain segments only. *)

(** The segments of [normalize p] for an absolute [p], first to last. *)
Definition path_segments (p : jsstr) : list jsstr :=
  reverse (resolve false (split p CHAR_FORWARD_SLASH) []).

Lemma Forall_plain_ok stack : Forall plain_seg stack → Forall seg_ok stack.
Proof. intros H. eapply Forall_impl; [done|]. apply plain_seg_ok. Qed.

Lemma resolve_step_abs_plain stack s :
  Forall plain_seg stack → CHAR_FORWARD_SLASH ∉ s → Forall plain_seg (resolve_step false stack s).
Proof.
  intros Hs Hn. unfold resolve_step.
  case_decide; [done|]. case_decide.
  - destruct stack as [|t r]; [constructor|].
    case_decide; [done|by apply Forall_cons in Hs as [_ ?]].
  - constructor; [|done]. repeat split; naive_solver.
Qed.

Lemma resolve_abs_plain segs stack :
  Forall plain_seg stack → Forall (λ s, CHAR_FORWARD_SLASH ∉ s) segs →
  Forall plain_seg (resolve false segs stack).
Proof.
  revert stack. induction segs as [|s segs IH]; intros stack Hs Hsegs; [done|].
  apply Forall_cons in Hsegs as [Hn Hsegs]. unfold resolve. cbn [fold_left].
  apply IH; [by apply resolve_step_abs_plain|done].
Qed.

Lemma path_segments_plain p : Forall plain_seg (path_segments p).
Proof. apply Forall_reverse, resolve_abs_plain; [constructor|apply split_pieces_sep_free]. Qed.

#[export] Hint Resolve path_segments_plain Forall_plain_ok : jsdb.

(** [normalize] of an absolute path: its resolved segments after one
    separator, and the trailing separator kept; ["/"] if none is left. *)
Lemma normalize_abs rest :
  normalize (CHAR_FORWARD_SLASH :: rest) =
  match path_segments (CHAR_FORWARD_SLASH :: rest) with
  | [] => ‹"/"›
  | segs =>
      CHAR_FORWARD_SLASH :: JsString.join [CHAR_FORWARD_SLASH] segs ++
      (if unit_is (CHAR_FORWARD_SLASH :: rest) (Z.of_nat (length rest)) CHAR_FORWARD_SLASH
       then ‹"/"› else [])
  end.
Proof.
  unfold normalize. rewrite decide_False by done.
  replace (unit_is _ 0 _) with true by done. cbn [negb length].
  replace (Z.of_nat (S (length rest)) - 1)%Z with (Z.of_nat (length rest)) by lia.
  rewrite normalizeString_spec. unfold normalize_ref.
  assert (stack_str (resolve false (split (CHAR_FORWARD_SLASH :: rest) CHAR_FORWARD_SLASH) []) =
          JsString.join [CHAR_FORWARD_SLASH] (path_segments (CHAR_FORWARD_SLASH :: rest))) as -> by done.
  pose proof (path_segments_plain (CHAR_FORWARD_SLASH :: rest)) as Hp.
  destruct (path_segments _) as [|t segs] eqn:E; [done|].
  apply Forall_cons in Hp as [(Ht & _) _].
  rewrite decide_False.
  2:{ destruct segs; simpl; rewrite ?length_app; destruct t; simpl; [done|lia|done|lia]. }
  destruct (unit_is _ _ _); by rewrite ?app_nil_r.
Qed.

(** The segments of ['/' + segs.join('/')] for plain segments are [segs]. *)
Lemma path_segments_join segs :
  Forall plain_seg segs →
  path_segments (CHAR_FORWARD_SLASH :: JsString.join [CHAR_FORWARD_SLASH] segs) = segs.
Proof.
  intros Hs. unfold path_segments. rewrite split_sep_cons.
  destruct segs as [|s segs]; [done|].
  rewrite split_join by (done || (eapply Forall_impl; [done|]; by intros ? (_ & ? & _))).
  change (resolve false ([] :: s :: segs) []) with (resolve false (s :: segs) (resolve_step false [] [])).
  replace (resolve_step false [] []) with (@nil jsstr) by done.
  rewrite resolve_plain, app_nil_r by done.
  apply reverse_involutive.
Qed.

(** The last unit of [c :: r ++ t] is not a separator when [t] is a
    non-empty string without separators. *)
Lemma unit_is_cons_last c r t :
  t ≠ [] → CHAR_FORWARD_SLASH ∉ t →
  unit_is (c :: r ++ t) (Z.of_nat (length (r ++ t))) CHAR_FORWARD_SLASH = false.
Proof.
  intros Hne Hs. rewrite app_comm_cons.
  replace (Z.of_nat (length (r ++ t))) with (Z.of_nat (length ((c :: r) ++ t)) - 1)%Z
    by (rewrite !length_app; simpl; lia).
  by apply unit_is_last_not_sep.
Qed.

(** A path ['/' + segs.join('/')] of plain segments does not end with a
    separator. *)
Lemma unit_is_join_last segs :
  segs ≠ [] → Forall plain_seg segs →
  unit_is (CHAR_FORWARD_SLASH :: JsString.join [CHAR_FORWARD_SLASH] segs)
    (Z.of_nat (length (JsString.join [CHAR_FORWARD_SLASH] segs))) CHAR_FORWARD_SLASH = false.
Proof.
  intros Hne Hs. destruct (exists_last Hne) as [ps [t ->]].
  rewrite Forall_app, Forall_singleton in Hs. destruct Hs as [_ (Htn & Hts & _)].
  destruct (join_snoc_suffix [CHAR_FORWARD_SLASH] ps t) as [x ->].
  by apply unit_is_cons_last.
Qed.

(** A path of plain segments is canonical: [normalize] leaves it unchanged. *)
Lemma normalize_join_plain segs :
  segs ≠ [] → Forall plain_seg segs →
  normalize (CHAR_FORWARD_SLASH :: JsString.join [CHAR_FORWARD_SLASH] segs) =
  CHAR_FORWARD_SLASH :: JsString.join [CHAR_FORWARD_SLASH] segs.
Proof.
  intros Hne Hs. rewrite normalize_abs, path_segments_join by done.
  destruct segs as [|s segs']; [done|]. rewrite unit_is_join_last by done. by rewrite app_nil_r.
Qed.

(** The units of ['../../../bin/' + '/' + tag] split at ['/']. *)
Lemma split_bin_tag tag :
  CHAR_FORWARD_SLASH ∉ tag →
  split (‹"../../../bin/"› ++ CHAR_FORWARD_SLASH :: tag) CHAR_FORWARD_SLASH =
  [‹".."›; ‹".."›; ‹".."›; ‹"bin"›; []; tag].
Proof.
  intros Ht. change (‹"../../../bin/"› ++ CHAR_FORWARD_SLASH :: tag) with
    (‹".."› ++ CHAR_FORWARD_SLASH :: ‹".."› ++ CHAR_FORWARD_SLASH :: ‹".."› ++ CHAR_FORWARD_SLASH ::
     ‹"bin"› ++ CHAR_FORWARD_SLASH :: [] ++ CHAR_FORWARD_SLASH :: tag).
  rewrite !split_app_sep by (apply (bool_decide_unpack _); reflexivity).
  by rewrite split_sep_free.
Qed.

(** Resolving those segments above a plain stack: three pops (none past
    the root), then [bin] and the tag. *)
Lemma resolve_bin_tag stack tag :
  Forall plain_seg stack → plain_seg tag →
  resolve false [‹".."›; ‹".."›; ‹".."›; ‹"bin"›; []; tag] stack = tag :: ‹"bin"› :: drop 3 stack.
Proof.
  intros Hs Ht. unfold resolve. cbn [fold_left].
  rewrite (resolve_step_dotdot stack) by done.
  rewrite (resolve_step_dotdot (drop 1 _)) by by apply Forall_drop.
  rewrite (resolve_step_dotdot (drop 1 _)) by by do 2 apply Forall_drop.
  rewrite !drop_drop. cbn [Nat.add].
  rewrite (resolve_step_plain _ _ ‹"bin"›) by (apply (bool_decide_unpack _); reflexivity).
  replace (resolve_step false _ []) with (‹"bin"› :: drop 3 stack) by done.
  by rewrite resolve_step_plain.
Qed.

(** The segments of [dir + '/' + '../../../bin/' + '/' + tag]. *)
Lemma path_segments_bin rest tag :
  plain_seg tag →
  path_segments (CHAR_FORWARD_SLASH :: rest ++ CHAR_FORWARD_SLASH :: ‹"../../../bin/"› ++ CHAR_FORWARD_SLASH :: tag) =
  take (length (path_segments (CHAR_FORWARD_SLASH :: rest)) - 3)
       (path_segments (CHAR_FORWARD_SLASH :: rest)) ++ [‹"bin"›; tag].
Proof.
  intros Htag. pose proof Htag as (_ & Hts & _). unfold path_segments.
  rewrite app_comm_cons, split_app_sep_gen, split_bin_tag, resolve_app by done.
  rewrite resolve_bin_tag by (done || (apply resolve_abs_plain; [constructor|apply split_pieces_sep_free])).
  rewrite reverse_cons, reverse_cons, <- app_assoc, reverse_drop, length_reverse. done.
Qed.

(** [join(dir, '../../../bin/', tag)] for every absolute directory: the
    segments of [normalize(dir)] but the last three (as many as there
    are), then [bin] and the tag. *)
Lemma join_bin_abs rest tag :
  plain_seg tag →
  join [CHAR_FORWARD_SLASH :: rest; ‹"../../../bin/"›; tag] =
  CHAR_FORWARD_SLASH :: JsString.join [CHAR_FORWARD_SLASH]
    (take (length (path_segments (CHAR_FORWARD_SLASH :: rest)) - 3)
          (path_segments (CHAR_FORWARD_SLASH :: rest)) ++ [‹"bin"›; tag]).
Proof.
  intros Htag. pose proof Htag as (Htne & Hts & _).
  unfold join. rewrite decide_False by done. cbn [fold_left].
  rewrite !decide_True by (first [simpl; lia | destruct tag; [done|simpl; lia]]).
  rewrite <- !app_assoc. cbn [app]. rewrite normalize_abs, path_segments_bin by done.
  replace (rest ++ CHAR_FORWARD_SLASH :: ‹"../../../bin/"› ++ CHAR_FORWARD_SLASH :: tag)
    with ((rest ++ CHAR_FORWARD_SLASH :: ‹"../../../bin/"› ++ [CHAR_FORWARD_SLASH]) ++ tag)
    by (by rewrite <- !app_assoc).
  rewrite unit_is_cons_last by done.
  destruct (take _ _ ++ _) as [|x xs] eqn:E; [by apply app_eq_nil in E as [_ ?]|].
  by rewrite app_nil_r.
Qed.

(** [join(dir, '../../../bin/', tag)] for an absolute directory with plain
    segments: three segments up (not above the root), then [bin/tag]. *)
Lemma join_bin segs tag :
  Forall plain_seg segs → plain_seg tag →
  join [CHAR_FORWARD_SLASH :: JsString.join [CHAR_FORWARD_SLASH] segs; ‹"../../../bin/"›; tag]
  = CHAR_FORWARD_SLASH :: JsString.join [CHAR_FORWARD_SLASH] (take (length segs - 3) segs ++ [‹"bin"›; tag]).
Proof. intros Hs Ht. by rewrite join_bin_abs, path_segments_join. Qed.

End NodeJoin.
