(* ===== verification/FileNames.v ===== *)
(** * The file name helpers: [getFileExtension] and [getFileName]

    [src/lib/utilities.ts] lines 32 and 39-40.  The helpers only call the
    [path] module, so they are stated against the interface [PathLib] of
    the three functions they use ([parse(p).ext], [basename(p)],
    [basename(p, suffix)]) and its laws; the round trip
    [getFileName p ++ getFileExtension p = basename p] is proved from the
    laws alone.  The instance [node_path] is Node's POSIX [path] of
    [NodePath], whose theorems discharge the laws, so every statement holds
    of the helpers as they run on Node. *)

From S2P Require Import Prelude JsString NodePath.

Module FileNames.
Import JsString NodePath.

(** ** What the helpers need from [path] *)
Class PathLib := {
  pl_parse_ext : jsstr → jsstr;            (* path.parse(p).ext *)
  pl_basename : jsstr → jsstr;             (* path.basename(p) *)
  pl_basename_suffix : jsstr → jsstr → jsstr  (* path.basename(p, suffix) *)
}.

Class PathLibLaws `{PathLib} := {
  (** an empty suffix is no suffix *)
  pl_basename_suffix_nil p : pl_basename_suffix p [] = pl_basename p;
  (** the extension is a suffix of the base name, with something before it *)
  pl_ext_suffix p : ∃ stem, pl_basename p = stem ++ pl_parse_ext p ∧
                            (pl_parse_ext p ≠ [] → stem ≠ []);
  (** a non-empty proper suffix of the base name is stripped *)
  pl_basename_suffix_strip p stem e :
    pl_basename p = stem ++ e → stem ≠ [] → e ≠ [] → pl_basename_suffix p e = stem
}.

Section helpers.
Context `{PathLib}.

(** [getFileExtension = (filepath) => parse(filepath).ext] *)
Definition getFileExtension (filepath : jsstr) : jsstr := pl_parse_ext filepath.

(** [getFileName = (filepath) => basename(filepath, getFileExtension(filepath))] *)
Definition getFileName (filepath : jsstr) : jsstr :=
  pl_basename_suffix filepath (getFileExtension filepath).

Context `{!PathLibLaws}.

(** The round trip, against the interface. *)
Lemma getFileName_getFileExtension p :
  getFileName p ++ getFileExtension p = pl_basename p.
Proof.
  unfold getFileName, getFileExtension.
  destruct (pl_ext_suffix p) as [stem [Hb Hne]].
  destruct (decide (pl_parse_ext p = [])) as [He|He].
  - by rewrite He, pl_basename_suffix_nil, app_nil_r.
  - rewrite (pl_basename_suffix_strip p stem) by auto. done.
Qed.
End helpers.

(** ** Node's [path] implements the interface *)

#[export] Instance node_path : PathLib := {
  pl_parse_ext p := pr_ext (parse p);
  pl_basename := basename;
  pl_basename_suffix := basename_suffix
}.

#[export] Instance node_path_laws : PathLibLaws.
Proof.
  split.
  - intros p. cbn [pl_basename_suffix pl_basename node_path]. unfold basename_suffix.
    rewrite decide_False; [done|]. cbn [length]. lia.
  - intros p. cbn [pl_basename pl_parse_ext node_path].
    destruct (parse_spec p) as (Hb & He & Hn).
    exists (pr_name (parse p)). rewrite basename_spec, <- Hb, Hn. split; [done|].
    intros Hne Hname. unfold last_component in Hb. unfold path_ext in He.
    pose proof (path_split_ok p) as Hok. destruct (path_split p) as [[pre comp] sl].
    simpl in Hb. destruct (comp_ext_shape comp (bool_decide (pre ≠ [CHAR_FORWARD_SLASH]))
      (split_comp _ _ _ _ Hok)) as [Hc|(r & Hc & _ & _ & stem & Hstem & Hcomp)].
    + by rewrite He, Hc in Hne.
    + rewrite Hname, He, Hc, Hb, Hcomp in Hn. apply (f_equal length) in Hn.
      rewrite !length_app in Hn. destruct stem; [done|simpl in Hn; lia].
  - intros p stem e Hb Hs He. simpl in *. rewrite basename_spec in Hb.
    unfold last_component in Hb. pose proof (path_split_ok p) as Hok.
    destruct (path_split p) as [[pre comp] sl]. simpl in Hb. subst comp.
    rewrite (split_app _ _ _ _ Hok) in Hok |- *. by apply basename_suffix_strip.
Qed.

(** ** The helpers on Node *)

(** C12: [getFileName p ++ getFileExtension p] is the base name of [p]
    (last component, trailing slashes removed) for every path [p]: the
    two helpers split the base name and lose nothing. *)
Theorem getFileName_roundtrip p : getFileName p ++ getFileExtension p = basename p.
Proof. exact (getFileName_getFileExtension p). Qed.

(** C13: [getFileExtension] is the extension of the last component: from
    its last dot, empty when it has no dot, when the dot is its first unit,
    or when it is [".."] (except right after the root, see [path_ext]). *)
Theorem getFileExtension_spec p : getFileExtension p = path_ext p.
Proof. apply parse_spec. Qed.

(** C14: an extension is empty, or one dot followed by units that are
    neither dots nor separators, ending the base name after a non-empty
    stem. *)
Theorem getFileExtension_shape p :
  getFileExtension p = [] ∨
  ∃ r, getFileExtension p = CHAR_DOT :: r ∧ (CHAR_DOT ∉ r) ∧ (CHAR_FORWARD_SLASH ∉ r) ∧
       ∃ stem, stem ≠ [] ∧ basename p = stem ++ CHAR_DOT :: r.
Proof.
  unfold getFileExtension. simpl. rewrite (proj1 (proj2 (parse_spec p))), basename_spec.
  unfold path_ext, last_component.
  pose proof (path_split_ok p) as Hok. destruct (path_split p) as [[pre comp] sl].
  apply comp_ext_shape, (split_comp _ _ _ _ Hok).
Qed.

(** C15: [basename(p, ext)] with Node's suffix-matching loop gives the same
    stem as the [name] field of [path.parse]. *)
Theorem getFileName_parse_name p : getFileName p = pr_name (parse p).
Proof.
  apply (app_inv_tail (getFileExtension p)).
  rewrite (getFileName_getFileExtension p). simpl. rewrite basename_spec.
  destruct (parse_spec p) as (Hb & _ & Hn).
  unfold getFileExtension. simpl. by rewrite Hn, Hb.
Qed.

(** The examples of the specification, section 8. *)
Example getFileExtension_example : getFileExtension ‹"a/b/file.tar.gz"› = ‹".gz"›.
Proof. reflexivity. Qed.

Example getFileExtension_noext : getFileExtension ‹"noext"› = [].
Proof. reflexivity. Qed.

Example getFileName_example : getFileName ‹"a/b/file.tar.gz"› = ‹"file.tar"›.
Proof. reflexivity. Qed.

(** Dot files have no extension; [".."] has none, except directly under
    the root, where [path.parse] reports ["."]. *)
Example getFileExtension_dotfiles :
  getFileExtension ‹".bashrc"› = [] ∧ getFileExtension ‹"a/.."› = [] ∧
  getFileExtension ‹"/.."› = ‹"."› ∧ getFileName ‹"/.."› = ‹"."›.
Proof. split_and!; reflexivity. Qed.

End FileNames.
