(* ===== verification/JsNumber.v ===== *)
(** * JS numbers: [parseFloat], [ToInt32] and the [~] operator

    The locator tests [~~parseFloat(release) === 7] ([src/lib/utilities.ts]
    line 19).  A JS number is an IEEE-754 binary64 value, here Stdlib's
    [spec_float] (zero, infinity, NaN, or [±m·2^e]).  This file models the
    ECMAScript algorithms the test runs:
    - [parseFloat]: strip leading white space, take the longest prefix that
      is a StrDecimalLiteral ([scan_decimal_literal]), and round its
      mathematical value [±M·10^E] to the nearest binary64 value, ties to
      even ([round_binary64]);
    - [ToInt32]: truncate towards zero, reduce modulo [2^32], read the
      result as a signed 32-bit integer ([NaN], zeros and infinities give
      [0]);
    - [~x]: [ToInt32(x)] then the bitwise complement, an int32 again.
    The theorems characterise the rounding exponent, show that integers
    below [2^53] are exact, and bound the result of [parseFloat] on
    release strings such as ["7.9.2009"]. *)

From S2P Require Import Prelude JsString.
From Stdlib Require Import SpecFloat.

Module JsNumber.
Import JsString.

Abbreviation number := spec_float.

#[export] Instance number_eq_dec : EqDecision number.
Proof. solve_decision. Defined.

(** binary64: 53 bits of precision, exponents up to [1024]. *)
Definition prec : Z := 53.
Definition emax : Z := 1024.
Definition emin : Z := 3 - emax - prec.

(** ** Code-unit classes of the grammar *)

Definition is_digit (c : codeunit) : bool := bool_decide (CHAR_0 ≤ c ≤ CHAR_9)%N.

Definition digit_value (c : codeunit) : Z := Z.of_N (c - CHAR_0).

(** StrWhiteSpaceChar: WhiteSpace (TAB, VT, FF, ZWNBSP and the
    Space_Separator category) and LineTerminator (LF, CR, LS, PS). *)
Definition is_str_whitespace (c : codeunit) : bool :=
  bool_decide (c ∈ [9; 10; 11; 12; 13; 32; 160; 5760; 8232; 8233; 8239; 8287; 12288; 65279]%N)
  || bool_decide (8192 ≤ c ≤ 8202)%N.

(** [TrimString(s, start)] *)
Fixpoint trim_start (s : jsstr) : jsstr :=
  match s with
  | c :: s' => if is_str_whitespace c then trim_start s' else s
  | [] => []
  end.

(** The value of a sequence of decimal digits. *)
Definition digits_value (ds : jsstr) : Z :=
  fold_left (λ acc d, acc * 10 + digit_value d)%Z ds 0%Z.

(** ** The StrDecimalLiteral scanner *)

Inductive decimal_literal :=
| DL_infinity (neg : bool)
| DL_finite (neg : bool) (m : Z) (e : Z).   (* ±m·10^e *)

Definition INFINITY_TEXT : jsstr := ‹"Infinity"›.

(** An optional sign. *)
Definition scan_sign (s : jsstr) : bool * jsstr :=
  match s with
  | c :: r =>
      if bool_decide (c = CHAR_PLUS) then (false, r)
      else if bool_decide (c = CHAR_HYPHEN_MINUS) then (true, r)
      else (false, s)
  | [] => (false, s)
  end.

(** The exponent of an ExponentPart at the head of [s]; [0] when there is
    none (an [e] not followed by digits is not part of the literal). *)
Definition scan_exponent (s : jsstr) : Z :=
  match s with
  | c :: r =>
      if bool_decide (c = CHAR_LOWERCASE_E ∨ c = CHAR_UPPERCASE_E) then
        let '(eneg, r1) := scan_sign r in
        let '(ed, _) := span_while is_digit r1 in
        if bool_decide (ed = []) then 0%Z
        else if eneg then (- digits_value ed)%Z else digits_value ed
      else 0%Z
  | [] => 0%Z
  end.

(** The longest prefix of [s] that is a StrDecimalLiteral, if any:
    [Infinity], or digits with an optional fraction (at least one digit in
    all) and an optional exponent, after an optional sign. *)
Definition scan_decimal_literal (s : jsstr) : option decimal_literal :=
  let '(neg, s1) := scan_sign s in
  if is_prefix INFINITY_TEXT s1 then Some (DL_infinity neg) else
  let '(intd, s2) := span_while is_digit s1 in
  let '(fracd, s3) :=
    match s2 with
    | c :: r => if bool_decide (c = CHAR_DOT) then span_while is_digit r else ([], s2)
    | [] => ([], s2)
    end in
  if bool_decide (intd = [] ∧ fracd = []) then None
  else Some (DL_finite neg (digits_value (intd ++ fracd))
               (scan_exponent s3 - Z.of_nat (length fracd))).

(** ** Rounding to binary64

    [ratio_exp num den] is [⌊log2 (num/den)⌋]: with [a], [b] the binary
    logarithms of [num] and [den] it is [a - b] or [a - b - 1]. *)
Definition pow2_le_ratio (k : Z) (num den : positive) : bool :=
  if (0 <=? k)%Z then (Zpos den * 2 ^ k <=? Zpos num)%Z
  else (Zpos den <=? Zpos num * 2 ^ (- k))%Z.

Definition ratio_exp (num den : positive) : Z :=
  let d := (Z.log2 (Zpos num) - Z.log2 (Zpos den))%Z in
  if pow2_le_ratio d num den then d else (d - 1)%Z.

(** The binary64 value nearest to [±num/den], ties to even: the exponent
    of the last mantissa bit is [e = max (⌊log2 x⌋ - 52) emin], the
    mantissa the quotient of [x / 2^e], rounded with the remainder
    ([round_nearest_even]); a mantissa that reaches [2^53] moves to the
    next binade, and a value at or above [2^1024] is an infinity
    ([make_binary64]). *)
Definition round_nearest_even (q r d : Z) : Z :=
  if (d <? 2 * r)%Z || ((2 * r =? d)%Z && Z.odd q) then (q + 1)%Z else q.

(** The value [±m·2^e] for a rounded mantissa [m ≤ 2^53]. *)
Definition make_binary64 (neg : bool) (m e : Z) : number :=
  let '(m, e) := if (m =? 2 ^ prec)%Z then (2 ^ (prec - 1), e + 1)%Z else (m, e) in
  match m with
  | Zpos p => if (emax - prec <? e)%Z then S754_infinity neg else S754_finite neg p e
  | _ => S754_zero neg
  end.

Definition round_binary64 (neg : bool) (num den : positive) : number :=
  let e := Z.max (ratio_exp num den - (prec - 1)) emin in
  let '(n, d) := if (0 <=? e)%Z then (Zpos num, Zpos den * 2 ^ e)%Z
                 else (Zpos num * 2 ^ (- e), Zpos den)%Z in
  make_binary64 neg (round_nearest_even (n / d) (n mod d) d) e.

(** A string that does not continue a numeric literal: empty, or starting
    with a unit that is neither a digit nor an exponent mark. *)
Definition ends_number (rest : jsstr) : bool :=
  match rest with
  | [] => true
  | c :: _ => negb (is_digit c) && negb (bool_decide (c = CHAR_LOWERCASE_E ∨ c = CHAR_UPPERCASE_E))
  end.

(** [parseFloat(string)] *)
Definition parseFloat (s : jsstr) : number :=
  match scan_decimal_literal (trim_start s) with
  | None => S754_nan
  | Some (DL_infinity neg) => S754_infinity neg
  | Some (DL_finite neg m e) =>
      match m with
      | Zpos p =>
          if (0 <=? e)%Z then round_binary64 neg (Z.to_pos (Zpos p * 10 ^ e)) 1
          else round_binary64 neg p (Z.to_pos (10 ^ (- e)))
      | _ => S754_zero neg
      end
  end.

(** ** [ToInt32] and [~] *)

(** The integer part of a finite value, truncated towards zero. *)
Definition truncate (x : number) : Z :=
  match x with
  | S754_finite s m e =>
      let t := if (0 <=? e)%Z then Z.shiftl (Zpos m) e else Z.shiftr (Zpos m) (- e) in
      if s then (- t)%Z else t
  | _ => 0%Z
  end.

(** Steps 4-5 of [ToInt32]: [int32bit = int modulo 2^32], read as signed. *)
Definition int32_wrap (int : Z) : Z :=
  let int32bit := (int mod 2 ^ 32)%Z in
  if (2 ^ 31 <=? int32bit)%Z then (int32bit - 2 ^ 32)%Z else int32bit.

Definition ToInt32 (x : number) : Z :=
  match x with
  | S754_finite _ _ _ => int32_wrap (truncate x)
  | _ => 0%Z
  end.

(** [~x] on a number: [ToInt32], then the complement. *)
Definition bitwise_not (x : number) : Z := Z.lnot (ToInt32 x).

(** [~n] on an int32 value [n], for which [ToInt32] is the identity. *)
Definition bitwise_not_int32 (n : Z) : Z := Z.lnot n.

(** [~~x] *)
Definition double_not (x : number) : Z := bitwise_not_int32 (bitwise_not x).

(** ** Lemmas: the rounding *)

Lemma ratio_exp_spec (num den : positive) (k : Z) :
  (0 ≤ k)%Z → (Zpos den * 2 ^ k ≤ Zpos num < Zpos den * 2 ^ (k + 1))%Z →
  ratio_exp num den = k.
Proof.
  intros Hk [Hlo Hhi]. unfold ratio_exp.
  pose proof (Z.log2_le_mono _ _ Hlo) as H1.
  assert (Zpos num ≤ Zpos den * 2 ^ (k + 1))%Z as H2' by lia.
  pose proof (Z.log2_le_mono _ _ H2') as H2.
  rewrite Z.log2_mul_pow2 in H1, H2 by lia.
  assert (Z.log2 (Zpos num) - Z.log2 (Zpos den) = k ∨
          Z.log2 (Zpos num) - Z.log2 (Zpos den) = k + 1)%Z as [Hd|Hd] by lia;
    rewrite Hd; unfold pow2_le_ratio.
  - rewrite (proj2 (Z.leb_le 0 k)), (proj2 (Z.leb_le _ _)) by lia. done.
  - rewrite (proj2 (Z.leb_le 0 (k+1))) by lia.
    rewrite (proj2 (Z.leb_gt _ _)) by lia. lia.
Qed.



Lemma round_nearest_even_exact q d : (0 < d)%Z → round_nearest_even q 0 d = q.
Proof.
  intros Hd. unfold round_nearest_even.
  rewrite (proj2 (Z.ltb_ge _ _)), (proj2 (Z.eqb_neq _ _)) by lia. done.
Qed.

Lemma round_nearest_even_range q r d :
  (q ≤ round_nearest_even q r d ≤ q + 1)%Z ∧
  ((2 * r < d)%Z → round_nearest_even q r d = q).
Proof.
  unfold round_nearest_even. split.
  - destruct (_ || _); lia.
  - intros Hr. rewrite (proj2 (Z.ltb_ge _ _)), (proj2 (Z.eqb_neq _ _)) by lia. done.
Qed.

Lemma make_binary64_finite neg m e :
  (0 < m < 2 ^ prec)%Z → (e ≤ emax - prec)%Z →
  make_binary64 neg m e = S754_finite neg (Z.to_pos m) e.
Proof.
  intros Hm He. unfold make_binary64.
  rewrite (proj2 (Z.eqb_neq _ _)) by lia.
  destruct m as [|p|p]; try lia. by rewrite (proj2 (Z.ltb_ge _ _)) by lia.
Qed.

Lemma truncate_finite_neg_exp neg p e :
  (e ≤ 0)%Z → truncate (S754_finite neg p e) =
  if neg then (- (Zpos p / 2 ^ (- e)))%Z else (Zpos p / 2 ^ (- e))%Z.
Proof.
  intros He. unfold truncate. destruct (Z.leb_spec 0 e).
  - assert (e = 0)%Z as -> by lia. by rewrite Z.shiftl_0_r, Z.div_1_r.
  - by rewrite Z.shiftr_div_pow2 by lia.
Qed.

Lemma round_binary64_seven (num den : positive) :
  (7 * Zpos den ≤ Zpos num)%Z → (2 ^ 51 * Zpos num < (2 ^ 54 - 1) * Zpos den)%Z →
  truncate (round_binary64 false num den) = 7%Z.
Proof.
  intros Hlo Hhi. unfold round_binary64.
  rewrite (ratio_exp_spec num den 2) by lia.
  replace (Z.max (2 - (prec - 1)) emin) with (-50)%Z by reflexivity.
  cbn -[Z.div Z.modulo Z.pow Z.mul make_binary64]. change (- (-50))%Z with 50%Z.
  set (n := (Zpos num * 2 ^ 50)%Z).
  pose proof (Z.div_mod n (Zpos den) ltac:(lia)) as Hdm.
  pose proof (Z.mod_pos_bound n (Zpos den) ltac:(lia)) as Hr.
  set (q := (n / Zpos den)%Z) in *. set (r := (n mod Zpos den)%Z) in *.
  assert (7 * 2 ^ 50 ≤ q)%Z by (apply Z.div_le_lower_bound; lia).
  assert (q < 2 ^ 53)%Z by (apply Z.div_lt_upper_bound; lia).
  destruct (round_nearest_even_range q r (Zpos den)) as [Hm Heven].
  assert (round_nearest_even q r (Zpos den) < 2 ^ 53)%Z.
  { destruct (Z.eq_dec q (2 ^ 53 - 1)); [rewrite Heven|]; lia. }
  rewrite make_binary64_finite by (unfold emax, prec; lia).
  rewrite truncate_finite_neg_exp by lia. symmetry.
  apply (Z.div_unique _ _ _ (Zpos (Z.to_pos (round_nearest_even q r (Zpos den))) - 7 * 2 ^ 50));
    rewrite Z2Pos.id; lia.
Qed.

Lemma round_binary64_int (neg : bool) (n : positive) :
  (Zpos n < 2 ^ 53)%Z →
  truncate (round_binary64 neg n 1) = if neg then (- Zpos n)%Z else Zpos n.
Proof.
  intros Hn. pose proof (Z.log2_spec (Zpos n) ltac:(lia)) as Hk.
  pose proof (Z.log2_nonneg (Zpos n)).
  set (k := Z.log2 (Zpos n)) in *. clearbody k. unfold Z.succ in Hk.
  assert (k < 53)%Z.
  { destruct (Z.lt_ge_cases k 53); [done|].
    pose proof (Z.pow_le_mono_r 2 53 k ltac:(lia) ltac:(lia)). lia. }
  unfold round_binary64. rewrite (ratio_exp_spec n 1 k) by lia.
  replace (Z.max (k - (prec - 1)) emin) with (k - 52)%Z by (unfold emin, emax, prec; lia).
  assert (0 < 2 ^ (52 - k))%Z by lia.
  destruct (Z.leb_spec 0 (k - 52)) as [Hk0|Hk0]; cbn -[Z.div Z.modulo Z.pow Z.mul make_binary64].
  - assert (k = 52)%Z as -> by lia. rewrite Z.mul_1_l, Z.div_1_r, Z.mod_1_r.
    rewrite round_nearest_even_exact, make_binary64_finite by (unfold emax, prec; lia).
    rewrite truncate_finite_neg_exp by lia. by rewrite Z.div_1_r.
  - rewrite Z.div_1_r, Z.mod_1_r, round_nearest_even_exact by lia.
    replace (- (k - 52))%Z with (52 - k)%Z by lia.
    assert (Zpos n * 2 ^ (52 - k) < 2 ^ 53)%Z.
    { replace (2 ^ 53)%Z with (2 ^ (k + 1) * 2 ^ (52 - k))%Z by (rewrite <- Z.pow_add_r; f_equal; lia).
      apply Z.mul_lt_mono_pos_r; lia. }
    rewrite make_binary64_finite by (unfold emax, prec; lia).
    rewrite truncate_finite_neg_exp, Z2Pos.id by lia.
    replace (- (k - 52))%Z with (52 - k)%Z by lia. by rewrite Z.div_mul by lia.
Qed.

(** ** Lemmas: the scanner *)

Lemma trim_start_app ws s :
  forallb is_str_whitespace ws = true → trim_start (ws ++ s) = trim_start s.
Proof.
  induction ws as [|c ws IH]; simpl; [done|]. intros [-> H]%andb_true_iff. by apply IH.
Qed.

Lemma is_digit_not_whitespace c : is_digit c = true → is_str_whitespace c = false.
Proof.
  unfold is_digit, is_str_whitespace. intros Hc%bool_decide_eq_true_1.
  unfold CHAR_0, CHAR_9 in Hc. apply orb_false_iff; split; apply bool_decide_eq_false_2; [|lia].
  rewrite !elem_of_cons, elem_of_nil. lia.
Qed.

Lemma trim_start_digit c s : is_digit c = true → trim_start (c :: s) = c :: s.
Proof. intros Hc. simpl. by rewrite is_digit_not_whitespace. Qed.

Lemma digits_value_fold ds acc :
  fold_left (λ acc d, acc * 10 + digit_value d)%Z ds acc = (acc * 10 ^ Z.of_nat (length ds) + digits_value ds)%Z.
Proof.
  revert acc. induction ds as [|d ds IH]; intros acc; [unfold digits_value; simpl; lia|].
  unfold digits_value. cbn [fold_left length]. rewrite !IH.
  rewrite Nat2Z.inj_succ, Z.pow_succ_r by lia. ring.
Qed.

Lemma digits_value_app a b :
  digits_value (a ++ b) = (digits_value a * 10 ^ Z.of_nat (length b) + digits_value b)%Z.
Proof. unfold digits_value at 1. by rewrite fold_left_app, digits_value_fold. Qed.

Lemma digits_value_cons d ds :
  digits_value (d :: ds) = (digit_value d * 10 ^ Z.of_nat (length ds) + digits_value ds)%Z.
Proof. apply (digits_value_app [d] ds). Qed.

Lemma digits_value_bound ds :
  forallb is_digit ds = true → (0 ≤ digits_value ds < 10 ^ Z.of_nat (length ds))%Z.
Proof.
  induction ds as [|d ds IH]; [done|]. cbn [forallb]. intros [Hd Hds]%andb_true_iff.
  rewrite digits_value_cons. specialize (IH Hds).
  unfold is_digit in Hd. apply bool_decide_eq_true_1 in Hd. unfold digit_value.
  rewrite length_cons, Nat2Z.inj_succ, Z.pow_succ_r by lia.
  unfold CHAR_0, CHAR_9 in *. nia.
Qed.

Lemma scan_exponent_end rest : ends_number rest = true → scan_exponent rest = 0%Z.
Proof.
  destruct rest as [|c rest]; [done|]. simpl.
  intros [_ Hc]%andb_true_iff. apply negb_true_iff in Hc. by rewrite Hc.
Qed.

Lemma ends_number_not_digit rest : ends_number rest = true → ∀ x r, rest = x :: r → is_digit x = false.
Proof. intros H x r ->. simpl in H. apply andb_true_iff in H as [H _]. by apply negb_true_iff. Qed.

Lemma scan_sign_digit d s : is_digit d = true → scan_sign (d :: s) = (false, d :: s).
Proof.
  unfold is_digit. intros Hd%bool_decide_eq_true_1. simpl.
  unfold CHAR_0, CHAR_9, CHAR_PLUS, CHAR_HYPHEN_MINUS in *.
  by rewrite !bool_decide_eq_false_2 by lia.
Qed.

Lemma is_prefix_infinity_digit d s : is_digit d = true → is_prefix INFINITY_TEXT (d :: s) = false.
Proof.
  unfold is_digit. intros Hd%bool_decide_eq_true_1. simpl. unfold CHAR_0, CHAR_9 in Hd.
  by rewrite bool_decide_eq_false_2 by lia.
Qed.

(** The literal [ip.fp] followed by units that do not continue it. *)
Lemma scan_decimal_literal_fraction d ip fp rest :
  forallb is_digit (d :: ip) = true → forallb is_digit fp = true → ends_number rest = true →
  scan_decimal_literal ((d :: ip) ++ CHAR_DOT :: fp ++ rest) =
  Some (DL_finite false (digits_value ((d :: ip) ++ fp)) (- Z.of_nat (length fp))).
Proof.
  intros Hip Hfp Hrest. pose proof Hip as [Hd _]%andb_true_iff.
  unfold scan_decimal_literal. cbn [app].
  rewrite scan_sign_digit, is_prefix_infinity_digit by done.
  rewrite app_comm_cons, (span_while_app _ (d :: ip)) by (done || by intros ?? [= <- _]).
  rewrite bool_decide_eq_true_2 by done.
  rewrite span_while_app by (done || eauto using ends_number_not_digit).
  rewrite bool_decide_eq_false_2 by (intros [? _]; done).
  by rewrite scan_exponent_end by done.
Qed.

(** The literal [ip] followed by units that do not continue it. *)
Lemma scan_decimal_literal_integer d ip rest :
  forallb is_digit (d :: ip) = true → ends_number rest = true → head rest ≠ Some CHAR_DOT →
  scan_decimal_literal ((d :: ip) ++ rest) = Some (DL_finite false (digits_value (d :: ip)) 0).
Proof.
  intros Hip Hrest Hdot. pose proof Hip as [Hd _]%andb_true_iff.
  unfold scan_decimal_literal. cbn [app].
  rewrite scan_sign_digit, is_prefix_infinity_digit by done.
  rewrite app_comm_cons, span_while_app by (done || eauto using ends_number_not_digit).
  assert (match rest with
          | c :: r => if bool_decide (c = CHAR_DOT) then span_while is_digit r else ([], rest)
          | [] => ([], rest) end = ([], rest)) as ->.
  { destruct rest as [|c r]; [done|]. rewrite bool_decide_eq_false_2; [done|].
    intros ->. done. }
  rewrite bool_decide_eq_false_2 by (intros [? _]; done).
  rewrite app_nil_r, scan_exponent_end by done. done.
Qed.

(** ** Lemmas: [ToInt32] *)

Lemma ToInt32_truncate x : ToInt32 x = int32_wrap (truncate x).
Proof. by destruct x. Qed.

Lemma double_not_ToInt32 x : double_not x = ToInt32 x.
Proof. apply Z.lnot_involutive. Qed.

Lemma int32_wrap_small z : (0 ≤ z < 2 ^ 31)%Z → int32_wrap z = z.
Proof.
  intros Hz. unfold int32_wrap. rewrite Z.mod_small by lia.
  by rewrite (proj2 (Z.leb_gt _ _)) by lia.
Qed.

Lemma trim_start_literal ws d s :
  forallb is_str_whitespace ws = true → is_digit d = true → trim_start (ws ++ d :: s) = d :: s.
Proof. intros. by rewrite trim_start_app, trim_start_digit. Qed.

(** ** Properties *)

(** C8: a release string made of decimal digits (after optional white
    space, before units that do not continue the number) whose value is
    below [2^53] parses exactly, and [~~] reduces it modulo [2^32] to a
    signed 32-bit integer: [~~parseFloat(release)] is not the integer part
    when the release is [2^31] or more. *)
Theorem parseFloat_integer ws d ip rest :
  forallb is_str_whitespace ws = true → forallb is_digit (d :: ip) = true →
  (digits_value (d :: ip) < 2 ^ 53)%Z → ends_number rest = true → head rest ≠ Some CHAR_DOT →
  double_not (parseFloat (ws ++ (d :: ip) ++ rest)) = int32_wrap (digits_value (d :: ip)).
Proof.
  intros Hws Hds Hbound Hrest Hdot. pose proof Hds as [Hd _]%andb_true_iff.
  unfold parseFloat. rewrite <- app_comm_cons, trim_start_literal, app_comm_cons by done.
  rewrite scan_decimal_literal_integer by done.
  rewrite double_not_ToInt32, ToInt32_truncate.
  pose proof (digits_value_bound _ Hds) as Hnn.
  destruct (digits_value (d :: ip)) as [|p|p]; [done| |lia].
  cbn -[round_binary64 Z.pow]. by rewrite Z.mul_1_r, round_binary64_int.
Qed.

(** C7: every release string of the form ["7.<at most 15 digits>"]
    (after optional white space, followed by units that do not continue the
    number, for instance [".2009"] in ["7.9.2009"]) gives
    [~~parseFloat(release) === 7]: the value lies in [[7, 8)] and is not
    rounded up to [8]. *)
Theorem parseFloat_release_seven ws fp rest :
  forallb is_str_whitespace ws = true → forallb is_digit fp = true → length fp ≤ 15 →
  ends_number rest = true →
  double_not (parseFloat (ws ++ ‹"7."› ++ fp ++ rest)) = 7%Z.
Proof.
  intros Hws Hfp Hlen Hrest.
  change (‹"7."› ++ fp ++ rest) with ((CHAR_0 + 7)%N :: CHAR_DOT :: fp ++ rest).
  unfold parseFloat. rewrite trim_start_literal by done.
  change ((CHAR_0 + 7)%N :: CHAR_DOT :: fp ++ rest) with ([(CHAR_0 + 7)%N] ++ CHAR_DOT :: fp ++ rest).
  rewrite scan_decimal_literal_fraction by done.
  rewrite double_not_ToInt32, ToInt32_truncate.
  pose proof (digits_value_bound _ Hfp) as Hf.
  rewrite digits_value_app. change (digits_value [(CHAR_0 + 7)%N]) with 7%Z.
  set (L := Z.of_nat (length fp)) in *.
  assert (10 ^ L ≤ 10 ^ 15)%Z by (apply Z.pow_le_mono_r; lia).
  assert (0 < 10 ^ L)%Z by lia.
  destruct (7 * 10 ^ L + digits_value fp)%Z as [|p|p] eqn:Hp; [lia| |lia].
  destruct (Z.leb_spec 0 (- L)).
  - assert (L = 0)%Z as HL by lia. rewrite HL in *. change (10 ^ (- 0))%Z with 1%Z. change (10 ^ 0)%Z with 1%Z in *.
    rewrite round_binary64_seven; [done|..]; rewrite Z2Pos.id; lia.
  - rewrite Z.opp_involutive. rewrite round_binary64_seven; [done|..]; rewrite ?Z2Pos.id; lia.
Qed.

Lemma parseFloat_integer_witness : double_not (parseFloat ‹"4294967303"›) = 7%Z.
Proof.
  refine (eq_trans (parseFloat_integer [] (CHAR_0 + 4)%N ‹"294967303"› [] eq_refl eq_refl _ eq_refl _) _).
  - vm_compute. reflexivity.
  - discriminate.
  - vm_compute. reflexivity.
Defined.

Lemma parseFloat_release_seven_witness :
  double_not (parseFloat ‹"7.9.2009"›) = 7%Z ∧ double_not (parseFloat ‹" 7.2"›) = 7%Z.
Proof.
  split.
  - apply (parseFloat_release_seven [] ‹"9"› ‹".2009"›); vm_compute; first [reflexivity | lia].
  - apply (parseFloat_release_seven ‹" "› ‹"2"› []); vm_compute; first [reflexivity | lia].
Defined.

(** Seventeen nines round up to [8]; strings that do not start with a
    number, [Infinity] and values beyond the binary64 range give [0]. *)
Example parseFloat_release_edges :
  double_not (parseFloat ‹"7.99999999999999999"›) = 8%Z ∧
  double_not (parseFloat ‹"v7"›) = 0%Z ∧
  double_not (parseFloat ‹"Infinity"›) = 0%Z ∧
  double_not (parseFloat ‹"1e400"›) = 0%Z ∧
  double_not (parseFloat ‹"-7.5"›) = (-7)%Z.
Proof. split_and!; vm_compute; reflexivity. Qed.

End JsNumber.
