(* ===== verification/Flags.v ===== *)
(** * The flag helpers: [createFlagsForTool] and [splitFlagAndValue]

    [src/lib/utilities.ts] lines 62 and 69-70.  Both are list
    transformations: the first prefixes each flag with a dash, the second
    splits every entry at its spaces and flattens the pieces with
    [[].concat(...)].  [splitFlagAndValue] takes [flags: any[]]: its
    entries are JS values ([js_value]), and [flag.split(' ')] throws a
    [TypeError] on an entry that is not a string, which [map] propagates.
    The theorems give the functional behaviour, the round trips with
    [Array.prototype.join(' ')], the shape of the tokens (no token
    contains a space; how many tokens there are) and the error path. *)

From S2P Require Import Prelude JsString JsNumber.
From Stdlib Require Import SpecFloat.

Module Flags.
Import JsString JsNumber.

(** [flags.map(flag => `-${flag}`)] *)
Definition createFlagsForTool (flags : list jsstr) : list jsstr :=
  map (λ flag, [CHAR_HYPHEN_MINUS] ++ flag) flags.

(** [this.concat(...args)] where every argument is an array: the
    elements of [this], then those of each argument in order. *)
Definition array_concat {A} (this : list A) (args : list (list A)) : list A :=
  this ++ List.concat args.

(** The values an element of an [any[]] array holds.  An object stands
    for every object whose prototype chain has no [split] method (arrays
    and plain objects). *)
Inductive js_value :=
| JUndefined
| JNull
| JBoolean (b : bool)
| JNumber (n : number)
| JString (s : jsstr)
| JObject.

(** [flag.split(sep)]: [String.prototype.split] on a string; reading a
    property of [undefined] or [null] throws, and on the other values
    [flag.split] is [undefined], which is not callable (the messages are
    V8's). *)
Definition value_split (flag : js_value) (sep : codeunit) : result (list jsstr) :=
  match flag with
  | JString s => Ok (split s sep)
  | JUndefined => Err ‹"TypeError: Cannot read properties of undefined (reading 'split')"›
  | JNull => Err ‹"TypeError: Cannot read properties of null (reading 'split')"›
  | _ => Err ‹"TypeError: flag.split is not a function"›
  end.

Definition is_string (v : js_value) : bool :=
  match v with JString _ => true | _ => false end.

(** The contract of [v.split(sep)] on a value that is not a string: the
    [TypeError] V8 throws (reading a property of [undefined] or [null],
    or calling a property that is [undefined]). *)
Definition split_type_error (v : js_value) : jsstr :=
  match v with
  | JUndefined => ‹"TypeError: Cannot read properties of undefined (reading 'split')"›
  | JNull => ‹"TypeError: Cannot read properties of null (reading 'split')"›
  | _ => ‹"TypeError: flag.split is not a function"›
  end.

(** [[].concat(...flags.map(flag => flag.split(' ')))]: [map] calls the
    callback on the elements in order and rethrows the first exception. *)
Definition splitFlagAndValue (flags : list js_value) : result (list jsstr) :=
  pieces ← mapM (λ flag, value_split flag CHAR_SPACE) flags;
  mret (array_concat [] pieces).

(** The tokens of string entries. *)
Definition split_tokens (flags : list jsstr) : list jsstr :=
  List.concat (map (λ flag, split flag CHAR_SPACE) flags).

(** Number of spaces of a string. *)
Definition spaces (s : jsstr) : nat := length (filter (λ c, c = CHAR_SPACE) s).

(** ** Lemmas *)

(** On string entries [splitFlagAndValue] does not throw. *)
Lemma splitFlagAndValue_strings flags :
  splitFlagAndValue (map JString flags) = Ok (split_tokens flags).
Proof.
  unfold splitFlagAndValue, split_tokens, array_concat.
  induction flags as [|f fs IH]; [done|]. result_simpl.
  destruct (mapM _ (map JString fs)); [|discriminate]. injection IH as IH. cbn. by rewrite IH.
Qed.

Lemma split_tokens_cons f fs : split_tokens (f :: fs) = split f CHAR_SPACE ++ split_tokens fs.
Proof. done. Qed.

Lemma split_tokens_nil_inv fs : split_tokens fs = [] → fs = [].
Proof.
  destruct fs as [|f fs]; [done|]. rewrite split_tokens_cons.
  pose proof (split_not_nil f CHAR_SPACE). destruct (split f CHAR_SPACE); done.
Qed.

(** The entries before the first non-string decide the outcome. *)
Lemma splitFlagAndValue_app_strings pre rest :
  splitFlagAndValue (map JString pre ++ rest) =
  pieces ← splitFlagAndValue rest; mret (split_tokens pre ++ pieces).
Proof.
  unfold splitFlagAndValue, array_concat.
  induction pre as [|f fs IH]; result_simpl.
  - by destruct (mapM _ rest).
  - destruct (mapM _ (map JString fs ++ rest)) as [ps|msg], (mapM _ rest) as [qs|msg'];
      result_simpl; try congruence.
    unfold split_tokens in *. simpl.
    rewrite <- app_assoc. congruence.
Qed.

(** [flag.split(' ')] throws the [TypeError] of the contract on every
    value that is not a string. *)
Lemma value_split_non_string v sep : is_string v = false → value_split v sep = Err (split_type_error v).
Proof. by destruct v. Qed.

#[local] Hint Resolve split_not_nil : jsdb.

(** ** Properties *)

(** C16: on string entries [splitFlagAndValue] returns tokens, and joining
    them with single spaces gives the entries joined with single spaces:
    splitting loses nothing and keeps the order of the entries and of the
    pieces inside each one. *)
Theorem splitFlagAndValue_join flags :
  ∃ toks, splitFlagAndValue (map JString flags) = Ok toks ∧
          join [CHAR_SPACE] toks = join [CHAR_SPACE] flags.
Proof.
  exists (split_tokens flags). split; [apply splitFlagAndValue_strings|].
  induction flags as [|f [|f' fs] IH]; [done| |].
  - rewrite split_tokens_cons, app_nil_r. apply join_split.
  - rewrite split_tokens_cons, join_app_ne, IH, join_split by
      (auto with jsdb; intros E%split_tokens_nil_inv; done).
    by rewrite (join_cons _ f).
Qed.

(** C18: no token produced by [splitFlagAndValue] contains a space. *)
Theorem splitFlagAndValue_no_space flags toks :
  splitFlagAndValue flags = Ok toks → Forall (λ t, CHAR_SPACE ∉ t) toks.
Proof.
  revert toks. induction flags as [|f fs IH]; intros toks Hs; [by injection Hs as <-|].
  destruct f; try discriminate.
  change (JString s :: fs) with (map JString [s] ++ fs) in Hs.
  rewrite splitFlagAndValue_app_strings in Hs.
  destruct (splitFlagAndValue fs) as [ps|msg]; result_simpl; [|discriminate]. injection Hs as <-.
  apply Forall_app. split; [|by apply IH]. rewrite split_tokens_cons, app_nil_r.
  apply split_pieces_sep_free.
Qed.

Lemma splitFlagAndValue_no_space_witness :
  splitFlagAndValue [JString ‹"width 512"›] = Ok [‹"width"›; ‹"512"›] ∧
  Forall (λ t, CHAR_SPACE ∉ t) [‹"width"›; ‹"512"›].
Proof.
  assert (splitFlagAndValue [JString ‹"width 512"›] = Ok [‹"width"›; ‹"512"›]) as H by reflexivity.
  split; [exact H|exact (splitFlagAndValue_no_space _ _ H)].
Defined.

(** C19: an entry with [k] spaces yields [k + 1] tokens, so the output has
    [Σ (spaces f + 1)] tokens, never fewer than there are entries. *)
Theorem splitFlagAndValue_length flags :
  ∃ toks, splitFlagAndValue (map JString flags) = Ok toks ∧
          length toks = sum_list (map (λ f, S (spaces f)) flags).
Proof.
  exists (split_tokens flags). split; [apply splitFlagAndValue_strings|].
  induction flags as [|f fs IH]; [done|].
  rewrite split_tokens_cons, length_app, IH, length_split. done.
Qed.

(** C20: splitting inverts joining: entries written as space-separated
    groups of space-free, non-empty-group tokens (for instance a flag name
    and its value, ["width 512"]) give back the groups' tokens in order. *)
Theorem splitFlagAndValue_groups (groups : list (list jsstr)) :
  Forall (λ g, g ≠ [] ∧ Forall (λ t, CHAR_SPACE ∉ t) g) groups →
  splitFlagAndValue (map JString (map (join [CHAR_SPACE]) groups)) = Ok (List.concat groups).
Proof.
  rewrite splitFlagAndValue_strings. intros Hg. f_equal.
  induction groups as [|g gs IH]; [done|].
  apply Forall_cons in Hg as [[Hne Hsp] Hgs].
  simpl. rewrite split_tokens_cons, split_join, IH by done. done.
Qed.

Lemma splitFlagAndValue_groups_witness :
  splitFlagAndValue (map JString (map (join [CHAR_SPACE]) [[‹"width"›; ‹"512"›]; [‹"verbose"›]]))
  = Ok [‹"width"›; ‹"512"›; ‹"verbose"›].
Proof.
  apply splitFlagAndValue_groups. apply (bool_decide_unpack _). vm_compute. reflexivity.
Defined.

(** C17: [splitFlagAndValue] throws exactly when an entry is not a string:
    it throws the [TypeError] of the first such entry ([undefined] and
    [null] cannot be read, other values have no [split] method), the
    entries before it being strings; the entries after it are not looked
    at. *)
Theorem splitFlagAndValue_type_error flags msg :
  splitFlagAndValue flags = Err msg ↔
  ∃ pre v post, flags = map JString pre ++ v :: post ∧ is_string v = false ∧
                msg = split_type_error v.
Proof.
  split.
  - induction flags as [|f fs IH]; [done|]. intros Hs. destruct (is_string f) eqn:Hf.
    2:{ exists [], f, fs. split_and!; [done|done|]. unfold splitFlagAndValue in Hs.
        destruct f; try discriminate Hf; result_simpl; congruence. }
    destruct f as [| | | |s|]; try discriminate Hf.
    change (JString s :: fs) with (map JString [s] ++ fs) in Hs.
    rewrite splitFlagAndValue_app_strings in Hs.
    destruct (splitFlagAndValue fs) as [ps|msg']; result_simpl; simplify_eq.
    destruct IH as (pre & v & post & -> & Hv & He); [done|].
    by exists (s :: pre), v, post.
  - intros (pre & v & post & -> & Hv & ->). rewrite splitFlagAndValue_app_strings.
    unfold splitFlagAndValue at 1. simpl. by rewrite value_split_non_string.
Qed.

Lemma splitFlagAndValue_type_error_witness :
  splitFlagAndValue [JString ‹"width 512"›; JNumber (S754_finite false 1 0); JUndefined]
  = Err ‹"TypeError: flag.split is not a function"›.
Proof.
  apply splitFlagAndValue_type_error.
  exists [‹"width 512"›], (JNumber (S754_finite false 1 0)), [JUndefined]. done.
Defined.

(** C21: every flag [createFlagsForTool] produces starts with a dash, and
    dropping that dash gives back the input flags, in order and complete. *)
Theorem createFlagsForTool_strip flags :
  map (drop 1) (createFlagsForTool flags) = flags ∧
  Forall (λ t, head t = Some CHAR_HYPHEN_MINUS) (createFlagsForTool flags).
Proof.
  unfold createFlagsForTool. split.
  - induction flags as [|f fs IH]; cbn [map]; [done|]. by rewrite IH.
  - induction flags as [|f fs IH]; cbn [map]; by constructor.
Qed.

(** The examples of the specification, section 8. *)
Example createFlagsForTool_example :
  createFlagsForTool [‹"v"›; ‹"o"›] = [‹"-v"›; ‹"-o"›].
Proof. reflexivity. Qed.

Example splitFlagAndValue_example :
  splitFlagAndValue [JString ‹"width 512"›; JString ‹"verbose"›] = Ok [‹"width"›; ‹"512"›; ‹"verbose"›].
Proof. reflexivity. Qed.

(** Consecutive, leading or trailing spaces give empty tokens, which the
    specification leaves open. *)
Example splitFlagAndValue_double_space :
  splitFlagAndValue [JString ‹"width  512 "›] = Ok [‹"width"›; []; ‹"512"›; []].
Proof. reflexivity. Qed.

End Flags.
