(* ===== verification/Mip.v ===== *)
(** * [getMipChainLevels]: [Math.floor(Math.log2(value)) + 1]

    [src/lib/utilities.ts] line 55.  The value is a JS number; [Math.floor]
    and [+] are exact operations on binary64 values ([math_floor],
    [number_add], Stdlib's [SFadd]), but ECMAScript leaves [Math.log2]
    implementation-approximated, except at [NaN], negatives, zeros, [1] and
    [+∞].  [Math.log2] is therefore an interface ([MathLog2]) whose laws
    ([Log2Laws]) are the exact cases and correct rounding on integers
    below [2^53].  Correct rounding is stated without reals: [log2 n] lies
    in the interval of reals that round to [r] when [n^(2^54)] lies
    between [2] raised to the ends of that interval scaled by [2^54]
    ([log2_nearest]); the ends are dyadic, so the statement is one of
    integers.  [rn_log2] is an instance of the laws, which are therefore
    satisfiable; a JS engine whose [Math.log2] is correctly rounded on
    integers is another.

    The theorems: for every value below [2^48] the result is the number of
    levels of the mip chain [value, value/2, ..., 1]; below [2^53] it is
    an integer, that number or one more, since rounding never crosses a
    representable integer ([floor_nearest_range]); for [2^49 - 1] the
    rounding of [log2] to [49] makes it one more. *)

From S2P Require Import Prelude JsString JsNumber.
From Stdlib Require Import SpecFloat.

Module Mip.
Import JsNumber.

(** ** Binary64 operations *)

(** The Number value of an integer below [2^53] in magnitude. *)
Definition number_of_Z (z : Z) : number :=
  match z with
  | Z0 => S754_zero false
  | Zpos p => round_binary64 false p 1
  | Zneg p => round_binary64 true p 1
  end.

(** [Math.floor(x)]: the greatest integral Number not above [x];
    [NaN], zeros and infinities are returned as they are. *)
Definition math_floor (x : number) : number :=
  match x with
  | S754_finite s m e =>
      if (0 <=? e)%Z then x else
      let q := (Zpos m / 2 ^ (- e))%Z in
      let r := (Zpos m mod 2 ^ (- e))%Z in
      if s then (if (r =? 0)%Z then x else number_of_Z (- (q + 1)))
      else number_of_Z q
  | _ => x
  end.

(** [x + y] on numbers. *)
Definition number_add (x y : number) : number := SFadd prec emax x y.

(** ** [Math.log2] *)

Class MathLog2 := math_log2 : number → number.

(** [2^54] times the ends of the interval of reals that round to the
    normal binary64 value [m·2^e] ([-52 ≤ e ≤ 0]): half a gap on each
    side, the gap below being half as wide at the bottom of a binade. *)
Definition hi_scaled (m e : Z) : Z := ((2 * m + 1) * 2 ^ (e + 53))%Z.
Definition lo_scaled (m e : Z) : Z :=
  if (m =? 2 ^ 52)%Z then ((4 * m - 1) * 2 ^ (e + 52))%Z else ((2 * m - 1) * 2 ^ (e + 53))%Z.

(** [r] is a binary64 value nearest to [log2 n]. *)
Definition log2_nearest (n : Z) (r : number) : Prop :=
  ∃ m e, r = S754_finite false m e ∧ (2 ^ 52 ≤ Zpos m < 2 ^ 53)%Z ∧ (-52 ≤ e ≤ 0)%Z ∧
         (2 ^ lo_scaled (Zpos m) e ≤ n ^ (2 ^ 54) ≤ 2 ^ hi_scaled (Zpos m) e)%Z.

Class Log2Laws `{MathLog2} := {
  log2_nan : math_log2 S754_nan = S754_nan;
  log2_negative m e : math_log2 (S754_finite true m e) = S754_nan;
  log2_neg_infinity : math_log2 (S754_infinity true) = S754_nan;
  log2_zero s : math_log2 (S754_zero s) = S754_infinity true;
  log2_infinity : math_log2 (S754_infinity false) = S754_infinity false;
  log2_one : math_log2 (number_of_Z 1) = S754_zero false;
  log2_integer n : (2 ≤ n < 2 ^ 53)%Z → log2_nearest n (math_log2 (number_of_Z n))
}.

(** [getMipChainLevels = (value) => Math.floor(Math.log2(value)) + 1] *)
Definition getMipChainLevels `{MathLog2} (value : number) : number :=
  number_add (math_floor (math_log2 value)) (number_of_Z 1).

(** ** A correctly rounded [log2] on integers

    For [2^k ≤ n < 2^(k+1)] the result lies in [[k, k+1]], whose binade
    has exponent [j = ⌊log2 k⌋]; with [T = 2^(53-j)] the rounding
    midpoints are the odd multiples of [1/T], so the nearest value is
    read off [⌊log2 (n^T)⌋].  (Exact, and far too large to evaluate.) *)
Definition rn_log2_int (n : Z) : number :=
  let j := Z.log2 (Z.log2 n) in
  let Ms := Z.log2 (n ^ (2 ^ (53 - j))) in
  let m := ((Ms + 1) / 2)%Z in
  if (m =? 2 ^ 53)%Z then S754_finite false (Z.to_pos (2 ^ 52)) (j - 51)
  else S754_finite false (Z.to_pos m) (j - 52).

(** The exact cases, and [rn_log2_int] on integers; other positive
    values are outside the laws and get [NaN] here. *)
Definition rn_log2 (x : number) : number :=
  match x with
  | S754_nan | S754_infinity true | S754_finite true _ _ => S754_nan
  | S754_zero _ => S754_infinity true
  | S754_infinity false => S754_infinity false
  | S754_finite false _ _ =>
      let n := truncate x in
      if bool_decide (number_of_Z n = x) then
        (if bool_decide (n = 1)%Z then S754_zero false
         else if bool_decide (2 ≤ n < 2 ^ 53)%Z then rn_log2_int n else S754_nan)
      else S754_nan
  end.

(** ** Lemmas: powers *)

(** [(x^a)^b = x^(a·b)] and monotonicity, the facts the rounding
    arguments raise both sides of an inequality with. *)
Lemma pow_pow x a b : (0 ≤ a)%Z → (0 ≤ b)%Z → ((x ^ a) ^ b = x ^ (a * b))%Z.
Proof. intros. by rewrite Z.pow_mul_r. Qed.

Lemma pow2_le a b : (a ≤ b)%Z → (2 ^ a ≤ 2 ^ b)%Z.
Proof. intros. apply Z.pow_le_mono_r; lia. Qed.

Lemma pow2_lt a b : (0 ≤ a)%Z → (a < b)%Z → (2 ^ a < 2 ^ b)%Z.
Proof. intros. apply Z.pow_lt_mono_r; lia. Qed.

Lemma log2_between x a : (0 ≤ a)%Z → (2 ^ a ≤ x < 2 ^ (a + 1))%Z → Z.log2 x = a.
Proof. intros. apply Z.log2_unique; lia. Qed.

(** [rn_log2_int] returns a value nearest to [log2 n]. *)
Lemma rn_log2_int_nearest n : (2 ≤ n < 2 ^ 53)%Z → log2_nearest n (rn_log2_int n).
Proof.
  intros Hn. unfold rn_log2_int, log2_nearest.
  pose proof (Z.log2_spec n ltac:(lia)) as Hk. pose proof (Z.log2_nonneg n).
  set (k := Z.log2 n) in *. clearbody k. unfold Z.succ in Hk.
  assert (1 ≤ k ≤ 52)%Z as Hkr.
  { split.
    - destruct (Z.le_gt_cases 1 k); [done|]. assert (k = 0)%Z by lia.
      subst k. simpl in Hk. lia.
    - destruct (Z.le_gt_cases k 52); [done|]. pose proof (pow2_le 53 k ltac:(lia)). lia. }
  pose proof (Z.log2_spec k ltac:(lia)) as Hj. pose proof (Z.log2_nonneg k).
  set (j := Z.log2 k) in *. clearbody j. unfold Z.succ in Hj.
  assert (j ≤ 5)%Z as Hj5.
  { destruct (Z.le_gt_cases j 5); [done|]. pose proof (pow2_le 6 j ltac:(lia)). lia. }
  set (T := (2 ^ (53 - j))%Z). set (P := (2 ^ (j + 1))%Z).
  assert (0 < T)%Z by (unfold T; lia). assert (0 < P)%Z by (unfold P; lia).
  assert (HF53 : (2 ^ j * T = 2 ^ 53)%Z) by (unfold T; rewrite <- Z.pow_add_r by lia; f_equal; lia).
  assert (HF54 : (P * T = 2 ^ 54)%Z) by (unfold T, P; rewrite <- Z.pow_add_r by lia; f_equal; lia).
  assert (HP2 : (2 ^ (j + 2) = 2 * P)%Z) by (unfold P; rewrite <- Z.pow_succ_r by lia; f_equal; lia).
  assert (HPj : (P = 2 * 2 ^ j)%Z) by (unfold P; rewrite <- Z.pow_succ_r by lia; f_equal; lia).
  pose proof (Z.log2_spec (n ^ T) ltac:(apply Z.pow_pos_nonneg; lia)) as HM.
  set (Ms := Z.log2 (n ^ T)) in *. clearbody Ms. unfold Z.succ in HM.
  remember (2 ^ 53)%Z as F53 eqn:E53. remember (2 ^ 54)%Z as F54 eqn:E54.
  assert (F53 ≤ Ms < F54)%Z as HMs.
  { assert (2 ^ F53 ≤ n ^ T)%Z.
    { transitivity ((2 ^ k) ^ T)%Z; [|apply Z.pow_le_mono_l; lia].
      rewrite pow_pow by lia. apply pow2_le. rewrite <- HF53. apply Z.mul_le_mono_nonneg_r; lia. }
    assert (n ^ T < 2 ^ F54)%Z.
    { apply (Z.lt_le_trans _ ((2 ^ (k + 1)) ^ T)); [apply Z.pow_lt_mono_l; lia|].
      rewrite pow_pow by lia. apply pow2_le. rewrite <- HF54. apply Z.mul_le_mono_nonneg_r; lia. }
    split.
    - destruct (Z.le_gt_cases F53 Ms) as [|Hlt]; [done|].
      pose proof (pow2_le (Ms + 1) F53 ltac:(lia)). lia.
    - destruct (Z.le_gt_cases F54 Ms) as [Hge|]; [|done].
      pose proof (pow2_le F54 Ms Hge). lia. }
  assert (2 ^ (Ms * P) ≤ n ^ F54 < 2 ^ ((Ms + 1) * P))%Z as HN.
  { replace (n ^ F54)%Z with ((n ^ T) ^ P)%Z by (rewrite pow_pow, <- HF54, Z.mul_comm by lia; done).
    rewrite <- !pow_pow by lia. split.
    - apply Z.pow_le_mono_l. split; [lia|]. apply HM.
    - apply Z.pow_lt_mono_l; [lia|]. split; [lia|]. apply HM. }
  pose proof (Z.div_mod (Ms + 1) 2 ltac:(lia)). pose proof (Z.mod_pos_bound (Ms + 1) 2 ltac:(lia)).
  destruct (Z.eqb_spec ((Ms + 1) / 2) F53) as [Hm|Hm].
  - exists (Z.to_pos (2 ^ 52)%Z), (j - 51)%Z. rewrite Z2Pos.id by lia.
    unfold lo_scaled, hi_scaled. rewrite Z.eqb_refl.
    replace (j - 51 + 52)%Z with (j + 1)%Z by lia. replace (j - 51 + 53)%Z with (j + 2)%Z by lia.
    fold P. rewrite HP2. split_and!; try done; try lia.
    + transitivity (2 ^ (Ms * P))%Z; [|apply HN].
      apply pow2_le, Z.mul_le_mono_nonneg_r; lia.
    + transitivity (2 ^ ((Ms + 1) * P))%Z; [lia|]. apply pow2_le.
      replace ((2 * 2 ^ 52 + 1) * (2 * P))%Z with ((4 * 2 ^ 52 + 2) * P)%Z by ring.
      apply Z.mul_le_mono_nonneg_r; lia.
  - set (m := ((Ms + 1) / 2)%Z). assert (2 ^ 52 ≤ m < F53)%Z by (unfold m; lia).
    exists (Z.to_pos m), (j - 52)%Z. rewrite Z2Pos.id by lia.
    unfold lo_scaled, hi_scaled.
    replace (j - 52 + 53)%Z with (j + 1)%Z by lia. replace (j - 52 + 52)%Z with j by lia. fold P.
    split_and!; try done; try lia.
    + transitivity (2 ^ (Ms * P))%Z; [|apply HN]. apply pow2_le.
      destruct (Z.eqb_spec m (2 ^ 52)) as [Hm52|Hm52].
      * rewrite HPj, Z.mul_assoc. apply Z.mul_le_mono_nonneg_r; lia.
      * apply Z.mul_le_mono_nonneg_r; lia.
    + transitivity (2 ^ ((Ms + 1) * P))%Z; [lia|]. apply pow2_le.
      apply Z.mul_le_mono_nonneg_r; lia.
Qed.

(** ** Lemmas: bounds on [(1 - 1/A)^N] *)

(** Second-order upper bound of [(1 - 1/A)^N], scaled by [A^(N+2)]. *)
Lemma taylor_bound (A : Z) (N : nat) :
  (1 ≤ A)%Z →
  (2 * A ^ 2 * (A - 1) ^ Z.of_nat N ≤
   2 * A ^ 2 * A ^ Z.of_nat N - 2 * Z.of_nat N * A * A ^ Z.of_nat N
   + Z.of_nat N * (Z.of_nat N - 1) * A ^ Z.of_nat N)%Z.
Proof.
  intros HA. induction N as [|N IH]; [simpl; lia|].
  rewrite Nat2Z.inj_succ, !Z.pow_succ_r by lia.
  set (X := (A ^ Z.of_nat N)%Z) in *. set (Y := ((A - 1) ^ Z.of_nat N)%Z) in *.
  set (z := Z.of_nat N) in *.
  assert (0 ≤ X)%Z by (unfold X; lia). assert (0 ≤ z)%Z by (unfold z; lia).
  assert (2 * A ^ 2 * ((A - 1) * Y) ≤ (A - 1) * (2 * A ^ 2 * X - 2 * z * A * X + z * (z - 1) * X))%Z.
  { rewrite Z.mul_assoc, (Z.mul_comm _ (A - 1)), <- Z.mul_assoc. apply Z.mul_le_mono_nonneg_l; lia. }
  assert (0 ≤ z * (z - 1) * X)%Z by (destruct (decide (z = 0%Z)); nia).
  unfold Z.succ. nia.
Qed.

(** [(1 - 1/A)^A < 1/2], hence [(1 - 1/A)^P < 1/2] for [P ≥ A]. *)
Lemma half_bound (A P : Z) : (2 ≤ A ≤ P)%Z → (2 * (A - 1) ^ P < A ^ P)%Z.
Proof.
  intros HA.
  assert (2 * (A - 1) ^ A < A ^ A)%Z as HAA.
  { pose proof (taylor_bound A (Z.to_nat A) ltac:(lia)) as T. rewrite Z2Nat.id in T by lia.
    assert (0 < A ^ A)%Z by lia. rewrite Z.pow_2_r in T. nia. }
  replace P with (A + (P - A))%Z by lia. rewrite !Z.pow_add_r by lia.
  assert ((A - 1) ^ (P - A) ≤ A ^ (P - A))%Z by (apply Z.pow_le_mono_l; lia).
  assert (0 ≤ (A - 1) ^ (P - A))%Z by lia. assert (0 < A ^ (P - A))%Z by lia. nia.
Qed.

(** Bernoulli: [(1 - 1/A)^(N+1) > 1 - (N+1)/A] for [N ≥ 1]. *)
Lemma bernoulli_strict (A : Z) (N : nat) :
  (2 ≤ A)%Z → 1 ≤ N →
  (A * A ^ Z.of_nat N - (Z.of_nat N + 1) * A ^ Z.of_nat N < (A - 1) ^ (Z.of_nat N + 1))%Z.
Proof.
  intros HA HN. induction N as [|N IH]; [lia|].
  destruct (decide (N = 0)) as [->|HN0]; [simpl; nia|].
  specialize (IH ltac:(lia)). rewrite Nat2Z.inj_succ. unfold Z.succ.
  rewrite !Z.pow_add_r, !Z.pow_1_r in * by lia.
  set (X := (A ^ Z.of_nat N)%Z) in *. set (Y := ((A - 1) ^ Z.of_nat N)%Z) in *.
  assert (0 < X)%Z by (unfold X; apply Z.pow_pos_nonneg; lia).
  assert ((A - 1) * (A * X - (Z.of_nat N + 1) * X) < (A - 1) * (Y * (A - 1)))%Z
    by (apply Z.mul_lt_mono_pos_l; lia).
  nia.
Qed.

(** ** Lemmas: rounding intervals *)

(** Half the gap below the integer [c], scaled by [2^54]. *)
Definition half_gap_below (c : Z) : Z := (2 ^ (Z.log2 (c - 1) + 1))%Z.

Section float_facts.
Context (m e : Z) (Hm : (2 ^ 52 ≤ m < 2 ^ 53)%Z) (He : (-52 ≤ e ≤ 0)%Z).

Let U := (2 ^ (e + 52))%Z.
Lemma U_pos : (0 < U)%Z. Proof. unfold U. apply Z.pow_pos_nonneg; lia. Qed.
Lemma U_scale : (2 ^ (- e) * U = 2 ^ 52)%Z.
Proof. unfold U. rewrite <- Z.pow_add_r by lia. f_equal. lia. Qed.
Lemma U_53 : (2 ^ (e + 53) = 2 * U)%Z.
Proof. unfold U. rewrite <- Z.pow_succ_r by lia. f_equal. lia. Qed.

(** A value below the integer [c] ends its rounding interval at most half
    a gap below [c]. *)
Lemma hi_scaled_below c :
  (1 ≤ c ≤ 2 ^ 53)%Z → (m < c * 2 ^ (- e))%Z → (hi_scaled m e ≤ c * 2 ^ 54 - half_gap_below c)%Z.
Proof.
  intros Hc Hlt. pose proof U_pos. pose proof U_scale. pose proof U_53.
  assert (0 < 2 ^ (- e))%Z by (apply Z.pow_pos_nonneg; lia).
  assert (H54 : (2 ^ 54 = 4 * (2 ^ (- e) * U))%Z) by (rewrite U_scale; reflexivity).
  unfold hi_scaled, half_gap_below. rewrite U_53.
  destruct (Z.le_gt_cases (Z.log2 (c - 1)) (e + 52)) as [Hl|Hl].
  - assert (2 ^ (Z.log2 (c - 1) + 1) ≤ 2 * U)%Z.
    { rewrite <- U_53. apply Z.pow_le_mono_r; lia. }
    nia.
  - assert (c ≠ 1)%Z by (intros ->; simpl in Hl; lia).
    pose proof (Z.log2_spec (c - 1) ltac:(lia)) as Hs.
    assert (2 * U ≤ c - 1)%Z.
    { rewrite <- U_53. transitivity (2 ^ Z.log2 (c - 1))%Z; [apply Z.pow_le_mono_r; lia|lia]. }
    assert (Z.log2 (c - 1) < 53)%Z by (apply Z.log2_lt_pow2; lia).
    assert (2 ^ (Z.log2 (c - 1) + 1) ≤ 2 ^ 54)%Z by (apply Z.pow_le_mono_r; lia).
    nia.
Qed.
(** A value at or above the integer [c] starts its rounding interval at
    most half a gap below [c]. *)
Lemma lo_scaled_above c :
  (2 ≤ c)%Z → (c * 2 ^ (- e) ≤ m)%Z → (c * 2 ^ 54 - half_gap_below c ≤ lo_scaled m e)%Z.
Proof.
  intros Hc Hge. pose proof U_pos. pose proof U_scale. pose proof U_53.
  assert (0 < 2 ^ (- e))%Z by (apply Z.pow_pos_nonneg; lia).
  assert (H54 : (2 ^ 54 = 4 * (2 ^ (- e) * U))%Z) by (rewrite U_scale; reflexivity).
  assert (0 < half_gap_below c)%Z by (unfold half_gap_below; apply Z.pow_pos_nonneg; pose proof (Z.log2_nonneg (c - 1)); lia).
  unfold lo_scaled. fold U. rewrite U_53.
  destruct (Z.eqb_spec m (2 ^ 52)) as [Hm52|Hm52].
  - destruct (Z.eq_dec m (c * 2 ^ (- e))) as [Heq|Hne]; [|nia].
    assert (c = U) as -> by nia.
    assert (-51 ≤ e)%Z.
    { destruct (Z.eq_dec e (-52)) as [->|]; [|lia]. unfold U in Hc. simpl in Hc. lia. }
    assert (Z.log2 (U - 1) = e + 51)%Z as Hl.
    { apply log2_between; [lia|]. replace (e + 51 + 1)%Z with (e + 52)%Z by lia. fold U.
      assert (2 * 2 ^ (e + 51) = U)%Z by (unfold U; rewrite <- Z.pow_succ_r by lia; f_equal; lia).
      lia. }
    unfold half_gap_below. rewrite Hl. replace (e + 51 + 1)%Z with (e + 52)%Z by lia. fold U. nia.
  - destruct (Z.eq_dec m (c * 2 ^ (- e))) as [Heq|Hne]; [|nia].
    assert (U < c < 2 * U)%Z by nia.
    assert (Z.log2 (c - 1) = e + 52)%Z as Hl.
    { apply log2_between; [lia|]. replace (e + 52 + 1)%Z with (e + 53)%Z by lia. rewrite U_53. fold U. lia. }
    unfold half_gap_below. rewrite Hl. replace (e + 52 + 1)%Z with (e + 53)%Z by lia. rewrite U_53. nia.
Qed.
End float_facts.

Lemma half_gap_below_pos c : (0 < half_gap_below c)%Z.
Proof. unfold half_gap_below. apply Z.pow_pos_nonneg; [lia|]. pose proof (Z.log2_nonneg (c - 1)). lia. Qed.

Lemma half_gap_below_le c : (1 ≤ c ≤ 2 ^ 53)%Z → (half_gap_below c ≤ 2 ^ 54)%Z.
Proof.
  intros Hc. unfold half_gap_below. apply Z.pow_le_mono_r; [lia|].
  destruct (Z.eq_dec c 1) as [->|]; [simpl; lia|].
  assert (Z.log2 (c - 1) < 53)%Z by (apply Z.log2_lt_pow2; lia). lia.
Qed.

(** [Math.floor] of a value nearest to [log2 n] is [c] when [log2 n] lies
    more than half a gap above [c] and below [c + 1]. *)
Lemma floor_nearest n r c :
  log2_nearest n r → (1 ≤ c ≤ 2 ^ 51)%Z →
  (2 ^ (c * 2 ^ 54 - half_gap_below c) < n ^ (2 ^ 54))%Z →
  (n ^ (2 ^ 54) < 2 ^ ((c + 1) * 2 ^ 54 - half_gap_below (c + 1)))%Z →
  math_floor r = number_of_Z c.
Proof.
  intros (m & e & -> & Hm & He & Hlo & Hhi) Hc Hlow Hup.
  remember (n ^ (2 ^ 54))%Z as N eqn:EN. clear EN.
  assert (0 < 2 ^ (- e))%Z by (apply Z.pow_pos_nonneg; lia).
  assert (c * 2 ^ (- e) ≤ Zpos m)%Z.
  { destruct (Z.le_gt_cases (c * 2 ^ (- e)) (Zpos m)) as [|Hlt]; [done|].
    pose proof (hi_scaled_below (Zpos m) e Hm He c ltac:(lia) Hlt).
    pose proof (pow2_le _ _ H0). lia. }
  assert (Zpos m < (c + 1) * 2 ^ (- e))%Z.
  { destruct (Z.le_gt_cases ((c + 1) * 2 ^ (- e)) (Zpos m)) as [Hge|]; [|done].
    pose proof (lo_scaled_above (Zpos m) e Hm He (c + 1) ltac:(lia) Hge).
    pose proof (pow2_le _ _ H1). lia. }
  assert (e ≠ 0)%Z by (intros ->; rewrite Z.opp_0, Z.pow_0_r in *; lia).
  unfold math_floor. rewrite (proj2 (Z.leb_gt 0 e)) by lia.
  f_equal. symmetry. apply (Z.div_unique _ _ _ (Zpos m - c * 2 ^ (- e))); lia.
Qed.

Lemma number_add_one c :
  (0 ≤ c < 60)%Z → number_add (number_of_Z c) (number_of_Z 1) = number_of_Z (c + 1).
Proof.
  intros Hc.
  assert (Hall : Forall (λ k : nat, number_add (number_of_Z (Z.of_nat k)) (number_of_Z 1) =
                                    number_of_Z (Z.of_nat k + 1)) (seq 0 60)).
  { apply (bool_decide_unpack _). vm_compute. reflexivity. }
  rewrite Forall_forall in Hall. rewrite <- (Z2Nat.id c) by lia. apply Hall.
  apply elem_of_seq. lia.
Qed.

Lemma bernoulli_strict_Z A P : (2 ≤ A)%Z → (2 ≤ P)%Z → ((A - P) * A ^ (P - 1) < (A - 1) ^ P)%Z.
Proof.
  intros HA HP. pose proof (bernoulli_strict A (Z.to_nat (P - 1)) HA ltac:(lia)) as B.
  rewrite Z2Nat.id in B by lia. replace (P - 1 + 1)%Z with P in B by lia. nia.
Qed.

(** [log2 n] is at least [k] when [2^k ≤ n]. *)
Lemma log2_lower n k :
  (1 ≤ k ≤ 2 ^ 51)%Z → (2 ^ k ≤ n)%Z → (2 ^ (k * 2 ^ 54 - half_gap_below k) < n ^ (2 ^ 54))%Z.
Proof.
  intros Hk Hn. pose proof (half_gap_below_pos k). pose proof (half_gap_below_le k ltac:(lia)).
  apply (Z.lt_le_trans _ ((2 ^ k) ^ (2 ^ 54))).
  - rewrite pow_pow by lia. apply pow2_lt; nia.
  - apply Z.pow_le_mono_l. split; [lia|done].
Qed.

(** [log2 n] stays more than half a gap below [k + 1] when [n < 2^(k+1)]
    and [k ≤ 47]: [(1 - 2^-(k+1))^(2^(53-j)) < 1/2] for [j = ⌊log2 k⌋]. *)
Lemma log2_upper n k :
  (1 ≤ k ≤ 47)%Z → (1 ≤ n < 2 ^ (k + 1))%Z →
  (n ^ (2 ^ 54) < 2 ^ ((k + 1) * 2 ^ 54 - half_gap_below (k + 1)))%Z.
Proof.
  intros Hk Hn. unfold half_gap_below. replace (k + 1 - 1)%Z with k by lia.
  pose proof (Z.log2_spec k ltac:(lia)) as Hj. pose proof (Z.log2_nonneg k).
  set (j := Z.log2 k) in *. clearbody j. unfold Z.succ in Hj.
  assert (j ≤ 5)%Z as Hj5.
  { destruct (Z.le_gt_cases j 5); [done|]. pose proof (pow2_le 6 j ltac:(lia)). lia. }
  set (A := (2 ^ (k + 1))%Z). set (P := (2 ^ (53 - j))%Z). set (Q := (2 ^ (j + 1))%Z).
  assert (HPQ : (P * Q = 2 ^ 54)%Z) by (unfold P, Q; rewrite <- Z.pow_add_r by lia; f_equal; lia).
  assert (2 ≤ A)%Z by (unfold A; pose proof (pow2_le 1 (k + 1) ltac:(lia)); simpl in *; lia).
  assert (A ≤ P)%Z by (apply pow2_le; lia).
  assert (0 < Q)%Z by (unfold Q; lia).
  pose proof (half_bound A P ltac:(lia)) as Hh.
  assert (HAP : (A ^ P = 2 * 2 ^ ((k + 1) * P - 1))%Z).
  { unfold A. rewrite pow_pow by lia. rewrite <- Z.pow_succ_r by nia. f_equal. lia. }
  rewrite <- HPQ. apply (Z.le_lt_trans _ ((A - 1) ^ (P * Q))).
  - apply Z.pow_le_mono_l. lia.
  - rewrite <- pow_pow by lia. replace ((k + 1) * (P * Q) - Q)%Z with (((k + 1) * P - 1) * Q)%Z by ring.
    rewrite <- pow_pow by nia. apply Z.pow_lt_mono_l; [lia|].
    split; [apply Z.pow_nonneg; lia|]. lia.
Qed.

(** [log2 (2^49 - 1)] is less than half a gap (of [2^-47]) below [49]. *)
Lemma log2_lower_pred49 :
  (2 ^ (49 * 2 ^ 54 - half_gap_below 49) < (2 ^ 49 - 1) ^ (2 ^ 54))%Z.
Proof.
  assert (Hhg : half_gap_below 49 = 64%Z) by reflexivity.
  assert (H54 : (2 ^ 54 = 2 ^ 48 * 64)%Z) by reflexivity.
  assert (H49 : (2 ^ 49 = 2 * 2 ^ 48)%Z) by reflexivity.
  rewrite Hhg, H54, H49. remember (2 ^ 48)%Z as P eqn:EP.
  assert (2 ≤ P)%Z by (subst P; lia).
  rewrite <- (pow_pow (2 * P - 1) P 64) by lia.
  replace (49 * (P * 64) - 64)%Z with ((49 * P - 1) * 64)%Z by ring.
  rewrite <- pow_pow by lia. apply Z.pow_lt_mono_l; [lia|].
  split; [apply Z.pow_nonneg; lia|].
  pose proof (bernoulli_strict_Z (2 * P) P ltac:(lia) ltac:(lia)) as B.
  replace (2 * P - P)%Z with P in B by ring.
  enough ((P * (2 * P) ^ (P - 1))%Z = (2 ^ (49 * P - 1))%Z) as <- by done.
  assert (H2P : (2 * P = 2 ^ 49)%Z) by (subst P; reflexivity).
  rewrite H2P, pow_pow by lia.
  transitivity (2 ^ 48 * 2 ^ (49 * (P - 1)))%Z; [by rewrite <- EP|].
  rewrite <- Z.pow_add_r by lia. f_equal. lia.
Qed.

(** ** The mip chain *)

(** The sizes of the mip levels of a texture of size [n]: [n], [⌊n/2⌋], ..., [1]. *)
Fixpoint mip_chain_fuel (fuel : nat) (n : Z) : list Z :=
  match fuel with
  | O => []
  | S f => if (n <=? 0)%Z then [] else n :: mip_chain_fuel f (n / 2)
  end.

(** 64 halvings reach [0] from any value below [2^64]. *)
Definition mip_chain (n : Z) : list Z := mip_chain_fuel 64 n.

Lemma mip_chain_fuel_length f n :
  (1 ≤ n)%Z → (Z.log2 n < Z.of_nat f)%Z → Z.of_nat (length (mip_chain_fuel f n)) = (Z.log2 n + 1)%Z.
Proof.
  revert n. induction f as [|f IH]; intros n Hn Hf; [pose proof (Z.log2_nonneg n); lia|].
  cbn [mip_chain_fuel]. rewrite (proj2 (Z.leb_gt _ _)) by lia. cbn [length].
  destruct (Z.eq_dec n 1) as [->|Hn1].
  - destruct f; reflexivity.
  - assert (Z.log2 (n / 2) = Z.log2 n - 1)%Z as Hl.
    { rewrite <- Z.shiftr_div_pow2 with (n := 1%Z) by lia. rewrite Z.log2_shiftr by lia.
      pose proof (Z.log2_pos n ltac:(lia)). lia. }
    rewrite Nat2Z.inj_succ, IH; [lia| |].
    + assert (2 * 1 ≤ n)%Z by lia. apply Z.div_le_lower_bound; lia.
    + rewrite Hl. lia.
Qed.

Lemma mip_chain_length n : (1 ≤ n < 2 ^ 64)%Z → Z.of_nat (length (mip_chain n)) = (Z.log2 n + 1)%Z.
Proof.
  intros Hn. apply mip_chain_fuel_length; [lia|].
  assert (Z.log2 n < 64)%Z by (apply Z.log2_lt_pow2; lia). simpl. lia.
Qed.

(** ** The instance *)

Lemma number_of_Z_finite n :
  (1 ≤ n < 2 ^ 53)%Z → ∃ m e, number_of_Z n = S754_finite false m e ∧ truncate (number_of_Z n) = n.
Proof.
  intros Hn. destruct n as [|p|p]; try lia.
  pose proof (round_binary64_int false p ltac:(lia)) as Ht. simpl in Ht |- *.
  destruct (round_binary64 false p 1) as [s|s| |s m e] eqn:E; simpl in Ht; try lia.
  destruct s; [|eauto]. unfold truncate in Ht. destruct (0 <=? e)%Z.
  - pose proof (proj2 (Z.shiftl_nonneg (Zpos m) e) ltac:(lia)). lia.
  - pose proof (proj2 (Z.shiftr_nonneg (Zpos m) (- e)) ltac:(lia)). lia.
Qed.

#[export] Instance rn_log2_math : MathLog2 := rn_log2.

#[export] Instance rn_log2_laws : Log2Laws.
Proof.
  split; try done.
  intros n Hn. destruct (number_of_Z_finite n ltac:(lia)) as (m & e & E & Ht).
  unfold math_log2, rn_log2_math, rn_log2. rewrite E. rewrite <- E, Ht.
  rewrite bool_decide_eq_true_2 by done. rewrite bool_decide_eq_false_2 by lia.
  rewrite bool_decide_eq_true_2 by lia. by apply rn_log2_int_nearest.
Qed.

Lemma log2_below n c :
  (1 ≤ c ≤ 2 ^ 52)%Z → (1 ≤ n < 2 ^ c)%Z →
  (n ^ (2 ^ 54) < 2 ^ ((c + 1) * 2 ^ 54 - half_gap_below (c + 1)))%Z.
Proof.
  intros Hc Hn. pose proof (half_gap_below_le (c + 1) ltac:(lia)).
  apply (Z.lt_le_trans _ ((2 ^ c) ^ (2 ^ 54))).
  - apply Z.pow_lt_mono_l; lia.
  - rewrite pow_pow by lia. apply pow2_le. nia.
Qed.

(** [Math.floor] of a value nearest to [log2 n], for [2^k ≤ n < 2^(k+1)],
    is [k] or [k + 1]: rounding never crosses a representable integer. *)
Lemma floor_nearest_range n r k :
  log2_nearest n r → (1 ≤ k ≤ 52)%Z → (2 ^ k ≤ n < 2 ^ (k + 1))%Z →
  ∃ q, math_floor r = number_of_Z q ∧ (k ≤ q ≤ k + 1)%Z.
Proof.
  intros Hr Hk Hn.
  assert (H1 : (1 ≤ k ≤ 2 ^ 51)%Z) by lia. assert (H2 : (1 ≤ k + 1 ≤ 2 ^ 52)%Z) by lia.
  assert (H3 : (1 ≤ n < 2 ^ (k + 1))%Z) by lia.
  pose proof (log2_lower n k H1 (proj1 Hn)) as Hlow. pose proof (log2_below n (k + 1) H2 H3) as Hup.
  destruct Hr as (m & e & -> & Hm & He & Hlo & Hhi).
  remember (n ^ (2 ^ 54))%Z as N eqn:EN. clear EN.
  replace (k + 1 + 1)%Z with (k + 2)%Z in Hup by lia.
  assert (0 < 2 ^ (- e))%Z by (apply Z.pow_pos_nonneg; lia).
  assert (k * 2 ^ (- e) ≤ Zpos m)%Z.
  { destruct (Z.le_gt_cases (k * 2 ^ (- e)) (Zpos m)) as [|Hlt]; [done|].
    pose proof (pow2_le _ _ (hi_scaled_below (Zpos m) e Hm He k ltac:(lia) Hlt)). lia. }
  assert (Zpos m < (k + 2) * 2 ^ (- e))%Z.
  { destruct (Z.le_gt_cases ((k + 2) * 2 ^ (- e)) (Zpos m)) as [Hge|]; [|done].
    pose proof (pow2_le _ _ (lo_scaled_above (Zpos m) e Hm He (k + 2) ltac:(lia) Hge)). lia. }
  assert (e ≠ 0)%Z by (intros ->; rewrite Z.opp_0, Z.pow_0_r in *; lia).
  unfold math_floor. rewrite (proj2 (Z.leb_gt 0 e)) by lia.
  exists (Zpos m / 2 ^ (- e))%Z. split; [done|]. split.
  - apply Z.div_le_lower_bound; lia.
  - assert (Zpos m / 2 ^ (- e) < k + 2)%Z by (apply Z.div_lt_upper_bound; lia). lia.
Qed.

(** ** Properties *)

Section levels.
Context `{MathLog2} `{!Log2Laws}.

(** C9: for every value [1 ≤ n < 2^48], [getMipChainLevels(n)] is the
    number of levels of the mip chain [n, ⌊n/2⌋, ..., 1], i.e.
    [⌊log2 n⌋ + 1], for every correctly rounded [Math.log2]. *)
Theorem getMipChainLevels_levels n :
  (1 ≤ n < 2 ^ 48)%Z → getMipChainLevels (number_of_Z n) = number_of_Z (Z.of_nat (length (mip_chain n))).
Proof.
  intros Hn. rewrite mip_chain_length by lia. unfold getMipChainLevels.
  destruct (Z.eq_dec n 1) as [->|Hn1]; [rewrite log2_one; vm_compute; reflexivity|].
  pose proof (log2_integer n ltac:(lia)) as Hr.
  pose proof (Z.log2_spec n ltac:(lia)) as Hk. pose proof (Z.log2_pos n ltac:(lia)).
  assert (Z.log2 n < 48)%Z by (apply Z.log2_lt_pow2; lia).
  set (k := Z.log2 n) in *. clearbody k. unfold Z.succ in Hk.
  rewrite (floor_nearest n _ k Hr); [apply number_add_one; lia|lia| |].
  - apply log2_lower; lia.
  - apply log2_upper; lia.
Qed.

(** C11: for [2^49 - 1] a correctly rounded [log2] is [49] (the distance
    to [49] is below half a gap), so [getMipChainLevels] returns [50]
    although the chain has [49] levels. *)
Theorem getMipChainLevels_rounds_up :
  getMipChainLevels (number_of_Z (2 ^ 49 - 1)) = number_of_Z 50 ∧
  length (mip_chain (2 ^ 49 - 1)) = 49.
Proof.
  split; [|vm_compute; reflexivity].
  pose proof (log2_integer (2 ^ 49 - 1) ltac:(lia)) as Hr. unfold getMipChainLevels.
  rewrite (floor_nearest _ _ 49 Hr); [apply number_add_one; lia|lia| |].
  - apply log2_lower_pred49.
  - apply log2_below; lia.
Qed.

(** C10: over the safe integers [1 ≤ n < 2^53], [getMipChainLevels(n)]
    is an integer, and it is the number of levels of the mip chain or one
    more, for every correctly rounded [Math.log2]. *)
Theorem getMipChainLevels_range n :
  (1 ≤ n < 2 ^ 53)%Z →
  ∃ c, getMipChainLevels (number_of_Z n) = number_of_Z c ∧
       (Z.of_nat (length (mip_chain n)) ≤ c ≤ Z.of_nat (length (mip_chain n)) + 1)%Z.
Proof.
  intros Hn. rewrite mip_chain_length by lia. unfold getMipChainLevels.
  destruct (Z.eq_dec n 1) as [->|Hn1].
  { exists 1%Z. rewrite log2_one. split; [vm_compute; reflexivity|simpl; lia]. }
  pose proof (Z.log2_spec n ltac:(lia)) as Hk. pose proof (Z.log2_pos n ltac:(lia)).
  assert (Z.log2 n < 53)%Z by (apply Z.log2_lt_pow2; lia).
  set (k := Z.log2 n) in *. clearbody k. unfold Z.succ in Hk.
  destruct (floor_nearest_range n _ k (log2_integer n ltac:(lia)) ltac:(lia) Hk) as (q & -> & Hq).
  exists (q + 1)%Z. rewrite number_add_one by lia. split; [done|lia].
Qed.

(** Outside the specification's precondition the result is [-Infinity]
    at zero and [NaN] below, the special cases of [Math.log2] passed
    through [Math.floor] and [+ 1]. *)
Example getMipChainLevels_nonpositive_values m e :
  getMipChainLevels (S754_zero false) = S754_infinity true ∧
  getMipChainLevels (S754_zero true) = S754_infinity true ∧
  getMipChainLevels (S754_finite true m e) = S754_nan.
Proof. unfold getMipChainLevels. rewrite !log2_zero, log2_negative. split_and!; reflexivity. Qed.
End levels.

Lemma getMipChainLevels_levels_witness :
  getMipChainLevels (number_of_Z 1) = number_of_Z 1 ∧
  getMipChainLevels (number_of_Z 256) = number_of_Z 9 ∧
  getMipChainLevels (number_of_Z 257) = number_of_Z 9.
Proof. split_and!; (rewrite getMipChainLevels_levels; [vm_compute; reflexivity|lia]). Defined.

Lemma getMipChainLevels_rounds_up_witness :
  getMipChainLevels (number_of_Z (2 ^ 49 - 1)) = number_of_Z 50.
Proof. apply getMipChainLevels_rounds_up. Defined.

Lemma getMipChainLevels_range_witness :
  ∃ c, getMipChainLevels (number_of_Z 1000) = number_of_Z c ∧
       (Z.of_nat (length (mip_chain 1000)) ≤ c ≤ Z.of_nat (length (mip_chain 1000)) + 1)%Z.
Proof. apply getMipChainLevels_range. lia. Defined.


End Mip.
