(* ===== verification/Locator.v ===== *)
(** * The platform binary locator: [getBinaryDirectory]

    [src/lib/utilities.ts] lines 13-25.  The function reads
    [os.platform()], and on Linux awaits [si.osInfo()] and replaces the
    tag by ["centos7"] when the distribution names CentOS or the kernel
    alios7 and [~~parseFloat(release) === 7]; it returns
    [join(__dirname, '../../../bin/', plat)].

    The two system queries are the program's only effects, so the function
    is a small program over them ([locator_prog]: return, ask the
    platform, await the OS information), and a host ([host]: the platform
    and how the promise of [si.osInfo()] settles: fulfilled, rejected, or
    never) runs it ([run]), recording the queries it answers and how the
    promise of [getBinaryDirectory] settles ([settlement]).  A rejected
    [si.osInfo()] rejects that promise with the same reason (the function
    has no [try]), and one that never settles leaves it pending (there is
    no timeout). *)

From S2P Require Import Prelude JsString JsNumber NodeJoin.

Module Locator.
Import JsString JsNumber NodeJoin.

(** The values of [os.platform()]. *)
Inductive platform := aix | android | cygwin | darwin | freebsd | linux | netbsd | openbsd | sunos | win32.

#[export] Instance platform_eq_dec : EqDecision platform.
Proof. solve_decision. Defined.

Definition platform_string (p : platform) : jsstr :=
  match p with
  | aix => ‹"aix"› | android => ‹"android"› | cygwin => ‹"cygwin"› | darwin => ‹"darwin"›
  | freebsd => ‹"freebsd"› | linux => ‹"linux"› | netbsd => ‹"netbsd"›
  | openbsd => ‹"openbsd"› | sunos => ‹"sunos"› | win32 => ‹"win32"›
  end.

(** The fields of [si.osInfo()] the function reads. *)
Record osInfo_data := OsInfo { distro : jsstr; release : jsstr; kernel : jsstr }.

(** Programs over the two queries. *)
Inductive locator_prog (A : Type) :=
| LRet (a : A)
| LPlatform (k : jsstr → locator_prog A)
| LOsInfo (k : osInfo_data → locator_prog A).
Arguments LRet {A} a.
Arguments LPlatform {A} k.
Arguments LOsInfo {A} k.

Fixpoint locator_bind {A B} (f : A → locator_prog B) (m : locator_prog A) : locator_prog B :=
  match m with
  | LRet a => f a
  | LPlatform k => LPlatform (λ p, locator_bind f (k p))
  | LOsInfo k => LOsInfo (λ d, locator_bind f (k d))
  end.

#[export] Instance locator_ret : MRet locator_prog := @LRet.
#[export] Instance locator_mbind : MBind locator_prog := @locator_bind.

(** [platform()] and [await si.osInfo()] *)
Definition os_platform : locator_prog jsstr := LPlatform mret.
Definition si_osInfo : locator_prog osInfo_data := LOsInfo mret.

(** The condition of line 19. *)
Definition isCentos7 (distro release kernel : jsstr) : bool :=
  (regex_test ‹"CentOS"› distro || regex_test ‹"alios7"› kernel) &&
  bool_decide (double_not (parseFloat release) = 7%Z).

(** [getBinaryDirectory], with [__dirname] as a parameter. *)
Definition getBinaryDirectory (dirname : jsstr) : locator_prog jsstr :=
  plat ← os_platform;
  plat ← (if bool_decide (plat = ‹"linux"›) then
            info ← si_osInfo;
            mret (if isCentos7 (distro info) (release info) (kernel info) then ‹"centos7"› else plat)
          else mret plat);
  mret (join [dirname; ‹"../../../bin/"›; plat]).

(** ** Running against a host *)

(** How a promise ends up: fulfilled with a value, rejected with a
    reason, or pending for ever. *)
Inductive settlement (A : Type) :=
| Fulfilled (a : A)
| Rejected (msg : jsstr)
| Pending.
Arguments Fulfilled {A} a.
Arguments Rejected {A} msg.
Arguments Pending {A}.

#[export] Instance settlement_ret : MRet settlement := @Fulfilled.
#[export] Instance settlement_bind : MBind settlement :=
  λ A B f s, match s with Fulfilled a => f a | Rejected msg => Rejected msg | Pending => Pending end.

Inductive query := Q_platform | Q_osInfo.

Record host := Host { h_platform : platform; h_osInfo : settlement osInfo_data }.

(** The queries answered, in order, and how the promise settles. *)
Fixpoint run {A} (h : host) (p : locator_prog A) : list query * settlement A :=
  match p with
  | LRet a => ([], Fulfilled a)
  | LPlatform k => let '(qs, r) := run h (k (platform_string (h_platform h))) in (Q_platform :: qs, r)
  | LOsInfo k =>
      match h_osInfo h with
      | Fulfilled d => let '(qs, r) := run h (k d) in (Q_osInfo :: qs, r)
      | Rejected msg => ([Q_osInfo], Rejected msg)
      | Pending => ([Q_osInfo], Pending)
      end
  end.

(** ** The contract of the specification, section 4.1

    The tag: the platform, replaced on Linux by ["centos7"] when the
    OS information satisfies [isCentos7]; a failed query fails and one
    that hangs hangs.  The directory: [<root>/bin/<tag>] where [<root>]
    is the normalized [__dirname] three levels up. *)
Definition locator_tag (h : host) : settlement jsstr :=
  match h_platform h with
  | linux => d ← h_osInfo h; mret (if isCentos7 (distro d) (release d) (kernel d) then ‹"centos7"› else ‹"linux"›)
  | p => Fulfilled (platform_string p)
  end.

Definition locator_dir (dirname tag : jsstr) : jsstr :=
  let segs := path_segments dirname in
  CHAR_FORWARD_SLASH :: JsString.join [CHAR_FORWARD_SLASH] (take (length segs - 3) segs ++ [‹"bin"›; tag]).

Definition locator_queries (h : host) : list query :=
  if decide (h_platform h = linux) then [Q_platform; Q_osInfo] else [Q_platform].

(** ** Lemmas *)

Lemma run_bind {A B} h (m : locator_prog A) (f : A → locator_prog B) :
  run h (m ≫= f) =
  let '(qs, r) := run h m in
  match r with
  | Fulfilled a => let '(qs', r') := run h (f a) in (qs ++ qs', r')
  | Rejected msg => (qs, Rejected msg)
  | Pending => (qs, Pending)
  end.
Proof.
  induction m as [a|k IH|k IH]; simpl.
  - by destruct (run h (f a)).
  - rewrite IH. destruct (run h (k _)) as [qs [a|msg|]]; [|done|done]. by destruct (run h (f a)).
  - destruct (h_osInfo h) as [d|msg|]; [|done|done].
    rewrite IH. destruct (run h (k d)) as [qs [a|msg|]]; [|done|done]. by destruct (run h (f a)).
Qed.

Lemma platform_string_linux p : platform_string p = ‹"linux"› ↔ p = linux.
Proof. split; [|by intros ->]. destruct p; simpl; done. Qed.

Lemma locator_tag_plain h t : locator_tag h = Fulfilled t → plain_seg t.
Proof.
  unfold locator_tag. intros Ht.
  destruct (h_platform h); try destruct (h_osInfo h) as [d|msg|]; simpl in Ht; try done;
    injection Ht as <-; try destruct (isCentos7 _ _ _); by apply (bool_decide_unpack _).
Qed.

(** What [run] does with the program, whatever the directory. *)
Lemma run_getBinaryDirectory h dirname :
  run h (getBinaryDirectory dirname) =
  (locator_queries h, t ← locator_tag h; Fulfilled (join [dirname; ‹"../../../bin/"›; t])).
Proof.
  unfold getBinaryDirectory, locator_queries, locator_tag, os_platform, si_osInfo.
  rewrite run_bind. simpl. destruct (decide (h_platform h = linux)) as [Hl|Hl].
  - rewrite bool_decide_eq_true_2 by (by apply platform_string_linux). rewrite Hl.
    rewrite run_bind. simpl. by destruct (h_osInfo h) as [d|msg|].
  - rewrite bool_decide_eq_false_2 by (by rewrite platform_string_linux).
    destruct (h_platform h); done.
Qed.

(** The directory of the contract is a path of plain segments ending
    with [bin/<tag>]. *)
Lemma locator_dir_plain dirname t :
  plain_seg t →
  ∃ segs, locator_dir dirname t = CHAR_FORWARD_SLASH :: JsString.join [CHAR_FORWARD_SLASH] segs ∧
          segs ≠ [] ∧ Forall plain_seg segs ∧ ∃ a, locator_dir dirname t = a ++ ‹"/bin/"› ++ t.
Proof.
  intros Ht. unfold locator_dir. set (xs := take _ _).
  exists (xs ++ [‹"bin"›; t]). split_and!; [done|by destruct xs| |].
  - apply Forall_app; split; [apply Forall_take, path_segments_plain|].
    constructor; [apply (bool_decide_unpack _); reflexivity|by apply Forall_singleton].
  - destruct xs as [|x xs']; [by exists []|].
    exists (CHAR_FORWARD_SLASH :: JsString.join [CHAR_FORWARD_SLASH] (x :: xs')).
    rewrite join_app_ne by done. done.
Qed.

(** ** Properties *)

(** C1: [getBinaryDirectory] implements the contract: for every absolute
    [__dirname], it asks for the platform, asks for the OS information
    exactly when the platform is Linux, and fulfils with
    [<normalized __dirname three segments up>/bin/<tag>] (never above the
    root), rejects with the reason of a failed OS query, or stays pending
    with a query that never settles. *)
Theorem getBinaryDirectory_spec h rest :
  run h (getBinaryDirectory (CHAR_FORWARD_SLASH :: rest)) =
  (locator_queries h, t ← locator_tag h; Fulfilled (locator_dir (CHAR_FORWARD_SLASH :: rest) t)).
Proof.
  rewrite run_getBinaryDirectory. f_equal.
  destruct (locator_tag h) as [t|msg|] eqn:Ht; [|done|done]. simpl.
  rewrite join_bin_abs; eauto using locator_tag_plain.
Qed.

Lemma getBinaryDirectory_spec_witness :
  run (Host linux (Fulfilled (OsInfo ‹"CentOS Linux"› ‹"7.9.2009"› ‹"3.10.0"›)))
      (getBinaryDirectory ‹"/opt/app/node_modules/texture-compressor/dist/lib"›) =
  ([Q_platform; Q_osInfo], Fulfilled ‹"/opt/app/node_modules/bin/centos7"›).
Proof.
  refine (eq_trans (getBinaryDirectory_spec _ (tail ‹"/opt/app/node_modules/texture-compressor/dist/lib"›)) _).
  vm_compute. reflexivity.
Defined.

(** C2: off Linux the OS information is never queried and the platform
    tag is used as it is. *)
Theorem getBinaryDirectory_non_linux h dirname :
  h_platform h ≠ linux →
  run h (getBinaryDirectory dirname) =
  ([Q_platform], Fulfilled (join [dirname; ‹"../../../bin/"›; platform_string (h_platform h)])).
Proof.
  intros Hl. rewrite run_getBinaryDirectory. unfold locator_queries, locator_tag.
  rewrite decide_False by done. by destruct (h_platform h).
Qed.

Lemma getBinaryDirectory_non_linux_witness :
  run (Host darwin Pending) (getBinaryDirectory ‹"/a/b/c/d"›) =
  ([Q_platform], Fulfilled ‹"/a/bin/darwin"›).
Proof.
  refine (eq_trans (getBinaryDirectory_non_linux _ _ _) _); [discriminate|vm_compute; reflexivity].
Defined.

(** C3: on Linux a rejected [si.osInfo()] rejects [getBinaryDirectory]
    with the same reason, after the two queries. *)
Theorem getBinaryDirectory_osInfo_error h dirname msg :
  h_platform h = linux → h_osInfo h = Rejected msg →
  run h (getBinaryDirectory dirname) = ([Q_platform; Q_osInfo], Rejected msg).
Proof.
  intros Hl He. rewrite run_getBinaryDirectory. unfold locator_queries, locator_tag.
  rewrite decide_True, Hl, He by done. done.
Qed.

Lemma getBinaryDirectory_osInfo_error_witness :
  run (Host linux (Rejected ‹"EACCES"›)) (getBinaryDirectory ‹"/a/b/c/d"›) =
  ([Q_platform; Q_osInfo], Rejected ‹"EACCES"›).
Proof. by apply getBinaryDirectory_osInfo_error. Defined.

(** C4: the promise of [getBinaryDirectory] settles unless the platform is
    Linux and [si.osInfo()] never settles, in which case it hangs too. *)
Theorem getBinaryDirectory_settles h dirname :
  snd (run h (getBinaryDirectory dirname)) = Pending ↔ h_platform h = linux ∧ h_osInfo h = Pending.
Proof.
  rewrite run_getBinaryDirectory. unfold locator_tag. cbn [snd].
  destruct (h_platform h); try (split; [done|by intros [? _]]).
  destruct (h_osInfo h) as [d|msg|]; cbn; split; try done; by intros [_ ?].
Qed.

(** C5: the binary directory is a canonical absolute path under a [bin]
    directory: it starts with ['/'], [path.normalize] leaves it unchanged,
    it has no [".."] segment, and it ends with [/bin/<tag>]. *)
Theorem getBinaryDirectory_canonical h rest p :
  snd (run h (getBinaryDirectory (CHAR_FORWARD_SLASH :: rest))) = Fulfilled p →
  head p = Some CHAR_FORWARD_SLASH ∧ normalize p = p ∧ (‹".."› ∉ split p CHAR_FORWARD_SLASH) ∧
  ∃ a t, p = a ++ ‹"/bin/"› ++ t ∧ locator_tag h = Fulfilled t.
Proof.
  rewrite run_getBinaryDirectory. cbn [snd].
  destruct (locator_tag h) as [t|msg|] eqn:Ht; [|done|done]. intros [= <-].
  pose proof (locator_tag_plain h t Ht) as Hplain. rewrite join_bin_abs by done.
  fold (locator_dir (CHAR_FORWARD_SLASH :: rest) t).
  destruct (locator_dir_plain (CHAR_FORWARD_SLASH :: rest) t Hplain) as (segs & -> & Hne & Hs & Hsuf).
  split_and!; [done|by apply normalize_join_plain| |].
  - rewrite split_sep_cons, split_join by (done || (eapply Forall_impl; [done|]; by intros ? (_ & ? & _))).
    rewrite elem_of_cons. intros [? | Hin]; [done|].
    rewrite Forall_forall in Hs. by destruct (Hs _ Hin) as (_ & _ & _ & ?).
  - destruct Hsuf as [a Ha]. by exists a, t.
Qed.

Lemma getBinaryDirectory_canonical_witness :
  snd (run (Host linux (Fulfilled (OsInfo ‹"Ubuntu"› ‹"22.04"› ‹"5.15"›))) (getBinaryDirectory ‹"/a/./b//../c"›))
    = Fulfilled ‹"/bin/linux"› ∧
  normalize ‹"/bin/linux"› = ‹"/bin/linux"›.
Proof.
  assert (snd (run (Host linux (Fulfilled (OsInfo ‹"Ubuntu"› ‹"22.04"› ‹"5.15"›)))
                   (getBinaryDirectory ‹"/a/./b//../c"›)) = Fulfilled ‹"/bin/linux"›) as H
    by (vm_compute; reflexivity).
  split; [exact H|].
  exact (proj1 (proj2 (getBinaryDirectory_canonical _ (tail ‹"/a/./b//../c"›) _ H))).
Defined.

(** C6: the override condition: the distribution contains ["CentOS"] or
    the kernel contains ["alios7"] (case-sensitive substrings), and
    [ToInt32(parseFloat(release))] is [7]. *)
Theorem isCentos7_spec distro release kernel :
  isCentos7 distro release kernel = true ↔
  ((∃ a b, distro = a ++ ‹"CentOS"› ++ b) ∨ (∃ a b, kernel = a ++ ‹"alios7"› ++ b)) ∧
  ToInt32 (parseFloat release) = 7%Z.
Proof.
  unfold isCentos7. rewrite andb_true_iff, orb_true_iff, !regex_test_spec, bool_decide_eq_true.
  by rewrite double_not_ToInt32.
Qed.

(** The examples of the specification, section 8. *)
Example getBinaryDirectory_examples :
  snd (run (Host linux (Fulfilled (OsInfo ‹"CentOS Linux"› ‹"7.9"› ‹"3.10.0-1160"›))) (getBinaryDirectory ‹"/p/dist/lib/x"›))
    = Fulfilled ‹"/p/bin/centos7"› ∧
  snd (run (Host linux (Fulfilled (OsInfo ‹"Ubuntu"› ‹"7.0"› ‹"4.15.0-20-generic"›))) (getBinaryDirectory ‹"/p/dist/lib/x"›))
    = Fulfilled ‹"/p/bin/linux"› ∧
  snd (run (Host win32 (Rejected [])) (getBinaryDirectory ‹"/p/dist/lib/x"›)) = Fulfilled ‹"/p/bin/win32"› ∧
  run (Host linux Pending) (getBinaryDirectory ‹"/p/dist/lib/x"›) = ([Q_platform; Q_osInfo], Pending).
Proof. split_and!; vm_compute; reflexivity. Qed.

(** The test is case-sensitive; [~~] wraps releases modulo [2^32]; a
    release just below [8] with seventeen digits rounds to [8]. *)
Example isCentos7_edges :
  isCentos7 ‹"centos"› ‹"7.9"› [] = false ∧
  isCentos7 ‹"CentOS Linux"› ‹"4294967303"› [] = true ∧
  isCentos7 ‹"CentOS Linux"› ‹"7.99999999999999999"› [] = false ∧
  isCentos7 ‹"Alibaba Cloud Linux"› ‹"7.2"› ‹"4.19.91-alios7"› = true.
Proof. split_and!; vm_compute; reflexivity. Qed.

End Locator.
