(* ===== verification/ImageSize.v ===== *)
(** * [getImageSize]

    [src/lib/utilities.ts] lines 47-48 call [imageSize(filepath)] of the
    [image-size] package (imported on line 8) and return its result.  The
    call is synchronous: the package reads the file and decodes the pixel
    dimensions from its header, and throws when the file is missing or
    unreadable or when its format is not one it recognises; [getImageSize]
    has no [try], so the exception reaches the caller unchanged.

    The package is an external collaborator, so it is an interface here:
    the file system the call reads ([file_system]: the bytes of a path, or
    the reason it cannot be read) and the header decoder ([ImageSizeLib]:
    dimensions, or the reason the bytes are not an image it knows).  The
    specification (sections 4.3 and 7) promises no more than that. *)

From S2P Require Import Prelude JsString.

Module ImageSize.

(** [{ width, height }] in pixels. *)
Record dimensions := Dims { width : Z; height : Z }.

(** What a read of a path gives: its bytes, or the reason of the failure. *)
Record file_system := FileSystem { read_file : jsstr → result (list Byte.byte) }.

(** The header decoder of the [image-size] package. *)
Class ImageSizeLib := image_size_lookup : list Byte.byte → result dimensions.

(** [imageSize(filepath)]: read the file, then decode its header. *)
Definition imageSize `{ImageSizeLib} (fs : file_system) (filepath : jsstr) : result dimensions :=
  bytes ← read_file fs filepath;
  image_size_lookup bytes.

(** [getImageSize = (filepath) => imageSize(filepath)] *)
Definition getImageSize `{ImageSizeLib} (fs : file_system) (filepath : jsstr) : result dimensions :=
  imageSize fs filepath.

End ImageSize.
